(** * Ghost Query: streaming gateway and response reconstruction

    A shallow embedding of the proxy server ([proxy-server/api/index.js]) and
    of the client component ([App.tsx]: stream listeners, [handleStop],
    [normalizeStreamingText], [cleanCurrencyAndPercent], [formatResponse]),
    followed by the properties of the specification checked against it.

    Conventions.
    - A JavaScript string is the list of its UTF-16 code units ([list N]).
    - A JavaScript value that comes out of [JSON.parse] or of a request body is
      a [JsValue].
    - Code that may throw returns a [Completion]; calls on the Express
      response object [res] are recorded, in order, as a list of [ResCall]. *)

From Stdlib Require Import ZArith NArith Ascii String List Lia Bool.
From stdpp Require Import gmap strings list fin_maps.
From Equations Require Import Equations.
Import ListNotations.

#[local] Set Warnings "-register-all".
#[local] Set Warnings "-notation-incompatible-prefix".

(* ===================================================================== *)
(** * Part I: the embedding *)
(* ===================================================================== *)

(** ** JavaScript strings *)
Module JsString.

Abbreviation jsstring := (list N).

(** An ASCII literal of the source as a list of code units. *)
Definition js (s : string) : jsstring :=
  map N_of_ascii (list_ascii_of_string s).

Definition ch (a : ascii) : N := N_of_ascii a.

(** Character classes of the regular expressions of [App.tsx]. *)
Definition between (lo hi c : N) : bool := (lo <=? c)%N && (c <=? hi)%N.
Definition is_digit (c : N) : bool := between 48 57 c.          (* \d *)
Definition is_upper (c : N) : bool := between 65 90 c.          (* [A-Z] *)
Definition is_lower (c : N) : bool := between 97 122 c.
Definition is_letter (c : N) : bool := is_upper c || is_lower c. (* [A-Za-z] *)
Definition is_sentence_end (c : N) : bool :=                     (* [.!?] *)
  (c =? 46)%N || (c =? 33)%N || (c =? 63)%N.

(** [\s] of a JavaScript regular expression, which is also what [trim]
    strips: WhiteSpace and LineTerminator of ECMAScript. *)
Definition is_space (c : N) : bool :=
  between 9 13 c || (c =? 32)%N || (c =? 160)%N || (c =? 5760)%N
  || between 8192 8202 c || (c =? 8232)%N || (c =? 8233)%N
  || (c =? 8239)%N || (c =? 8287)%N || (c =? 12288)%N || (c =? 65279)%N.

(** What [.] does not match: the line terminators. *)
Definition is_line_terminator (c : N) : bool :=
  (c =? 10)%N || (c =? 13)%N || (c =? 8232)%N || (c =? 8233)%N.

(** [span p s]: the longest prefix of [s] whose characters satisfy [p], and
    the rest (a greedy [p*]). *)
Fixpoint span (p : N -> bool) (s : jsstring) : jsstring * jsstring :=
  match s with
  | [] => ([], [])
  | c :: r => if p c then let '(a, b) := span p r in (c :: a, b)
              else ([], s)
  end.

Fixpoint drop_while (p : N -> bool) (s : jsstring) : jsstring :=
  match s with
  | [] => []
  | c :: r => if p c then drop_while p r else s
  end.

(** [String.prototype.trim]. *)
Definition trimStart (s : jsstring) : jsstring := drop_while is_space s.
Definition trimEnd (s : jsstring) : jsstring :=
  rev (drop_while is_space (rev s)).
Definition trim (s : jsstring) : jsstring := trimEnd (trimStart s).

(** [s.indexOf(c)] and [s.lastIndexOf(c)] for a one-character pattern;
    [-1] when the character does not occur. *)
Fixpoint indexOf_from (c : N) (s : jsstring) (i : Z) : Z :=
  match s with
  | [] => (-1)%Z
  | x :: r => if (x =? c)%N then i else indexOf_from c r (i + 1)%Z
  end.
Definition indexOf (c : N) (s : jsstring) : Z := indexOf_from c s 0.

Fixpoint lastIndexOf_from (c : N) (s : jsstring) (i found : Z) : Z :=
  match s with
  | [] => found
  | x :: r =>
      lastIndexOf_from c r (i + 1)%Z (if (x =? c)%N then i else found)
  end.
Definition lastIndexOf (c : N) (s : jsstring) : Z :=
  lastIndexOf_from c s 0 (-1).

(** [s.substring(a, b)]: negative arguments count as 0, the arguments are
    swapped when [a > b], and both are cut at the length of [s]. *)
Definition substring (s : jsstring) (a b : Z) : jsstring :=
  let a' := Z.to_nat (Z.max 0 a) in
  let b' := Z.to_nat (Z.max 0 b) in
  take (Nat.max a' b' - Nat.min a' b') (drop (Nat.min a' b') s).

(** [s.split(sep)] for a one-character separator: never the empty array,
    the empty string splits into one empty string. *)
Fixpoint split_on (sep : N) (s : jsstring) : list jsstring :=
  match s with
  | [] => [[]]
  | c :: r =>
      if (c =? sep)%N then [] :: split_on sep r
      else match split_on sep r with
           | w :: ws => (c :: w) :: ws
           | [] => [[c]]
           end
  end.

(** [s.startsWith(p)]. *)
Fixpoint startsWith (p s : jsstring) : bool :=
  match p, s with
  | [], _ => true
  | _ :: _, [] => false
  | a :: p', b :: s' => (a =? b)%N && startsWith p' s'
  end.

(** [parts.join(sep)]. *)
Fixpoint join (sep : jsstring) (parts : list jsstring) : jsstring :=
  match parts with
  | [] => []
  | [p] => p
  | p :: rest => p ++ sep ++ join sep rest
  end.

Definition eqb (a b : jsstring) : bool := bool_decide (a = b).

End JsString.
Export JsString.

(** ** Exceptions *)

Inductive JsError :=
| SyntaxError
| TypeError
| ReferenceError (identifier : string).

Inductive Completion (A : Type) :=
| Normal (a : A)
| Throw (e : JsError).
Arguments Normal {A} a.
Arguments Throw {A} e.

#[global] Instance completion_bind : MBind Completion :=
  fun A B (k : A -> Completion B) (c : Completion A) =>
    match c with
    | Normal a => k a
    | Throw e => Throw e
    end.

#[global] Instance completion_ret : MRet Completion := fun A a => Normal a.

(** ** JSON values and [JSON.parse] *)
Module Json.

(** A number is kept as the decimal literal it was read from:
    [(-1)^neg * mant * 10^exp10]. The program only ever tests a number for
    truthiness. *)
Record Decimal := { d_neg : bool; d_mant : N; d_exp10 : Z }.

Inductive JsValue :=
| JsUndefined
| JsNull
| JsBool (b : bool)
| JsNumber (d : Decimal)
| JsString (s : jsstring)
| JsArray (items : list JsValue)
| JsObject (fields : list (jsstring * JsValue)).

(** The double nearest to the literal is [0] (or [-0]) exactly when the
    literal is at most [2^-1075] in magnitude (round to nearest, ties to
    even). *)
Definition is_zero_number (d : Decimal) : bool :=
  if (d_mant d =? 0)%N then true
  else if (0 <=? d_exp10 d)%Z then false
  else (Z.of_N (d_mant d) * 2 ^ 1075 <=? 10 ^ (- d_exp10 d))%Z.

(** ToBoolean. *)
Definition truthy (v : JsValue) : bool :=
  match v with
  | JsUndefined | JsNull => false
  | JsBool b => b
  | JsNumber d => negb (is_zero_number d)
  | JsString s => match s with [] => false | _ => true end
  | JsArray _ | JsObject _ => true
  end.

(** [a || b]. *)
Definition js_or (a b : JsValue) : JsValue := if truthy a then a else b.

(** Own property of an object built by [JSON.parse]: of two members with
    the same name the later one wins. *)
Fixpoint own_property (k : jsstring) (fs : list (jsstring * JsValue))
  : option JsValue :=
  match fs with
  | [] => None
  | (k', v) :: r =>
      match own_property k r with
      | Some v' => Some v'
      | None => if JsString.eqb k k' then Some v else None
      end
  end.

(** [v.name] for the property names the program reads ([summary],
    [details], [key_points], [status], [choices], [delta], [content]):
    none of them is found on a prototype, so only objects have them.
    Reading a property of [null] or [undefined] throws. *)
Definition get_prop (v : JsValue) (name : jsstring) : Completion JsValue :=
  match v with
  | JsUndefined | JsNull => Throw TypeError
  | JsObject fs =>
      Normal (match own_property name fs with
              | Some x => x
              | None => JsUndefined
              end)
  | _ => Normal JsUndefined
  end.

(** [v?.name]. *)
Definition opt_get_prop (v : JsValue) (name : jsstring) : JsValue :=
  match get_prop v name with
  | Normal x => x
  | Throw _ => JsUndefined
  end.

(** [v[0]]: first element of an array, first character of a string,
    member ["0"] of an object. *)
Definition get_index0 (v : JsValue) : Completion JsValue :=
  match v with
  | JsUndefined | JsNull => Throw TypeError
  | JsArray items =>
      Normal (match items with x :: _ => x | [] => JsUndefined end)
  | JsString s =>
      Normal (match s with c :: _ => JsString [c] | [] => JsUndefined end)
  | JsObject fs =>
      Normal (match own_property (js "0") fs with
              | Some x => x
              | None => JsUndefined
              end)
  | _ => Normal JsUndefined
  end.

(** *** The parser *)

Inductive Parsed (A : Type) :=
| POk (a : A) (rest : jsstring)
| PSyntaxError
| POutOfFuel.
Arguments POk {A} a rest.
Arguments PSyntaxError {A}.
Arguments POutOfFuel {A}.

(** JSON white space: space, tab, line feed, carriage return. *)
Definition is_json_ws (c : N) : bool :=
  (c =? 32)%N || (c =? 9)%N || (c =? 10)%N || (c =? 13)%N.

Definition skip_ws (s : jsstring) : jsstring := drop_while is_json_ws s.

Definition hex_value (c : N) : option N :=
  if between 48 57 c then Some (c - 48)%N
  else if between 97 102 c then Some (c - 87)%N
  else if between 65 70 c then Some (c - 55)%N
  else None.

Definition hex4 (a b c d : N) : option N :=
  match hex_value a, hex_value b, hex_value c, hex_value d with
  | Some x, Some y, Some z, Some w =>
      Some (((x * 16 + y) * 16 + z) * 16 + w)%N
  | _, _, _, _ => None
  end.

Definition unescape (c : N) : option N :=
  if (c =? 34)%N then Some 34%N            (* quote *)
  else if (c =? 92)%N then Some 92%N       (* backslash *)
  else if (c =? 47)%N then Some 47%N       (* slash *)
  else if (c =? 98)%N then Some 8%N        (* b *)
  else if (c =? 102)%N then Some 12%N      (* f *)
  else if (c =? 110)%N then Some 10%N      (* n *)
  else if (c =? 114)%N then Some 13%N      (* r *)
  else if (c =? 116)%N then Some 9%N       (* t *)
  else None.

(** The characters of a string literal after its opening quote, up to and
    including the closing quote. *)
Fixpoint parse_string (s : jsstring) : option (jsstring * jsstring) :=
  match s with
  | [] => None
  | c :: r =>
      if (c =? 34)%N then Some ([], r)
      else if (c =? 92)%N then
        match r with
        | [] => None
        | e :: r1 =>
            if (e =? 117)%N then          (* u and four hex digits *)
              match r1 with
              | h1 :: h2 :: h3 :: h4 :: r2 =>
                  match hex4 h1 h2 h3 h4, parse_string r2 with
                  | Some u, Some (str, rest) => Some (u :: str, rest)
                  | _, _ => None
                  end
              | _ => None
              end
            else
              match unescape e, parse_string r1 with
              | Some u, Some (str, rest) => Some (u :: str, rest)
              | _, _ => None
              end
        end
      else if (c <? 32)%N then None
      else match parse_string r with
           | Some (str, rest) => Some (c :: str, rest)
           | None => None
           end
  end.

Definition digits_value (ds : jsstring) : N :=
  fold_left (fun acc d => (acc * 10 + (d - 48))%N) ds 0%N.

(** A JSON number: an optional minus sign; the integer part, which is a
    single 0 or starts with a non-zero digit; an optional fraction (a dot
    and at least one digit); an optional exponent (e or E, an optional
    sign, at least one digit). *)
Definition parse_number (s : jsstring) : option (Decimal * jsstring) :=
  let '(neg, s1) :=
    match s with
    | c :: r => if (c =? 45)%N then (true, r) else (false, s)
    | [] => (false, s)
    end in
  let int_part :=
    match s1 with
    | c :: r =>
        if (c =? 48)%N then Some ([c], r)
        else if is_digit c then Some (span is_digit s1)
        else None
    | [] => None
    end in
  match int_part with
  | None => None
  | Some (ints, s2) =>
      let frac_part :=
        match s2 with
        | c :: r =>
            if (c =? 46)%N then
              match span is_digit r with
              | ([], _) => None
              | (fs, s3) => Some (fs, s3)
              end
            else Some ([], s2)
        | [] => Some ([], s2)
        end in
      match frac_part with
      | None => None
      | Some (fracs, s3) =>
          let exp_part :=
            match s3 with
            | c :: r =>
                if (c =? 101)%N || (c =? 69)%N then
                  let '(eneg, r1) :=
                    match r with
                    | sg :: r' =>
                        if (sg =? 45)%N then (true, r')
                        else if (sg =? 43)%N then (false, r')
                        else (false, r)
                    | [] => (false, r)
                    end in
                  match span is_digit r1 with
                  | ([], _) => None
                  | (es, s4) =>
                      let e := Z.of_N (digits_value es) in
                      Some ((if eneg then - e else e)%Z, s4)
                  end
                else Some (0%Z, s3)
            | [] => Some (0%Z, s3)
            end in
          match exp_part with
          | None => None
          | Some (e, s4) =>
              Some ({| d_neg := neg;
                       d_mant := digits_value (ints ++ fracs);
                       d_exp10 := (e - Z.of_nat (length fracs))%Z |}, s4)
          end
      end
  end.

Definition parse_literal (s : jsstring) : Parsed JsValue :=
  if startsWith (js "true") s then POk (JsBool true) (drop 4 s)
  else if startsWith (js "false") s then POk (JsBool false) (drop 5 s)
  else if startsWith (js "null") s then POk JsNull (drop 4 s)
  else PSyntaxError.

(** [parse_value] reads one value after optional white space;
    [parse_elements] reads the comma-separated values of an array up to its
    closing bracket and [parse_members] the members of an object up to its
    closing brace, the opening bracket being consumed already. Every call spends one unit of fuel. *)
Fixpoint parse_value (fuel : nat) (s : jsstring) : Parsed JsValue :=
  match fuel with
  | O => POutOfFuel
  | S fuel' =>
      match skip_ws s with
      | [] => PSyntaxError
      | c :: r =>
          if (c =? 123)%N then                       (* { *)
            match skip_ws r with
            | c' :: r' =>
                if (c' =? 125)%N then POk (JsObject []) r'
                else parse_members fuel' (c' :: r') []
            | [] => PSyntaxError
            end
          else if (c =? 91)%N then                   (* [ *)
            match skip_ws r with
            | c' :: r' =>
                if (c' =? 93)%N then POk (JsArray []) r'
                else parse_elements fuel' (c' :: r') []
            | [] => PSyntaxError
            end
          else if (c =? 34)%N then                   (* string *)
            match parse_string r with
            | Some (str, rest) => POk (JsString str) rest
            | None => PSyntaxError
            end
          else if (c =? 45)%N || is_digit c then     (* number *)
            match parse_number (c :: r) with
            | Some (d, rest) => POk (JsNumber d) rest
            | None => PSyntaxError
            end
          else parse_literal (c :: r)
      end
  end
with parse_elements (fuel : nat) (s : jsstring) (acc : list JsValue)
  : Parsed JsValue :=
  match fuel with
  | O => POutOfFuel
  | S fuel' =>
      match parse_value fuel' s with
      | POk v rest =>
          match skip_ws rest with
          | c :: r =>
              if (c =? 44)%N then parse_elements fuel' r (acc ++ [v])
              else if (c =? 93)%N then POk (JsArray (acc ++ [v])) r
              else PSyntaxError
          | [] => PSyntaxError
          end
      | PSyntaxError => PSyntaxError
      | POutOfFuel => POutOfFuel
      end
  end
with parse_members (fuel : nat) (s : jsstring)
       (acc : list (jsstring * JsValue)) : Parsed JsValue :=
  match fuel with
  | O => POutOfFuel
  | S fuel' =>
      match skip_ws s with
      | q :: r0 =>
          if (q =? 34)%N then
            match parse_string r0 with
            | Some (key, r1) =>
                match skip_ws r1 with
                | colon :: r2 =>
                    if (colon =? 58)%N then
                      match parse_value fuel' r2 with
                      | POk v rest =>
                          match skip_ws rest with
                          | c :: r =>
                              if (c =? 44)%N then
                                parse_members fuel' r (acc ++ [(key, v)])
                              else if (c =? 125)%N then
                                POk (JsObject (acc ++ [(key, v)])) r
                              else PSyntaxError
                          | [] => PSyntaxError
                          end
                      | PSyntaxError => PSyntaxError
                      | POutOfFuel => POutOfFuel
                      end
                    else PSyntaxError
                | [] => PSyntaxError
                end
            | None => PSyntaxError
            end
          else PSyntaxError
      | [] => PSyntaxError
      end
  end.

(** Fuel that is never used up on [s] (lemma [parse_text_fuel] below). *)
Definition enough_fuel (s : jsstring) : nat := 2 * length s + 2.

(** The whole text is one value between white space. *)
Definition parse_text (s : jsstring) : Parsed JsValue :=
  match parse_value (enough_fuel s) s with
  | POk v rest =>
      match skip_ws rest with
      | [] => POk v []
      | _ :: _ => PSyntaxError
      end
  | PSyntaxError => PSyntaxError
  | POutOfFuel => POutOfFuel
  end.

(** [JSON.parse(text)]: the value, or a [SyntaxError]. *)
Definition JSON_parse (s : jsstring) : Completion JsValue :=
  match parse_text s with
  | POk v _ => Normal v
  | _ => Throw SyntaxError
  end.

End Json.
Export Json.

(** ** The response reconstructor ([App.tsx]) *)
Module Reconstructor.

(** *** [text.replace(/re/g, replacement)]

    A [Matcher] is one regular expression together with its replacement:
    applied to the text that starts at the current position, it gives the
    replacement text and the number of characters matched there, or [None]
    when the expression does not match at this position. [replace_all]
    scans left to right: where the expression matches, the replacement is
    produced and the scan resumes after the match ([skip] counts the
    characters of the match still to pass over); elsewhere the character is
    copied. None of the expressions below matches the empty string. *)
Definition Matcher := jsstring -> option (jsstring * nat).

Fixpoint replace_all (m : Matcher) (skip : nat) (s : jsstring) : jsstring :=
  match s with
  | [] => []
  | c :: r =>
      match skip with
      | S k => replace_all m k r
      | O =>
          match m s with
          | Some (repl, n) => repl ++ replace_all m (Nat.pred n) r
          | None => c :: replace_all m 0 r
          end
      end
  end.

(** *** [normalizeStreamingText] *)

(** The class of U+200B, U+200C, U+200D and U+2060. *)
Definition is_zero_width (c : N) : bool :=
  (c =? 8203)%N || (c =? 8204)%N || (c =? 8205)%N || (c =? 8288)%N.

(** The class of U+00A0 and U+202F. *)
Definition is_nbsp (c : N) : bool := (c =? 160)%N || (c =? 8239)%N.

Definition replace_class (p : N -> bool) (by_ : N) (s : jsstring)
  : jsstring :=
  map (fun c => if p c then by_ else c) s.

Definition normalizeStreamingText (text : jsstring) : jsstring :=
  match text with
  | [] => text
  | _ => replace_class is_nbsp 32 (replace_class is_zero_width 32 text)
  end.

(** *** [cleanCurrencyAndPercent]

    The expressions of the source are quoted with blanks between their
    parts, and Q stands for the double quote character. In each of them a
    greedy [\d+] takes the whole run of digits: after a shorter run the
    next character is a digit, which none of the expressions accepts at
    that place. *)

(** [/ \$ ( \d+ \.? \d* ) /g], replaced by [$$$1]: a dollar sign and
    group 1. *)
Definition m_currency : Matcher := fun s =>
  match s with
  | c :: r =>
      if (c =? 36)%N then
        match span is_digit r with
        | ([], _) => None
        | (ds, r1) =>
            let '(dot, r2) :=
              match r1 with
              | d :: r' => if (d =? 46)%N then ([d], r') else ([], r1)
              | [] => ([], r1)
              end in
            let g1 := ds ++ dot ++ fst (span is_digit r2) in
            Some (36%N :: g1, S (length g1))
        end
      else None
  | [] => None
  end.

(** [/ ( \d+ (?: \. \d+ )? ) \s* % /g], replaced by [$1%]. The optional
    fraction is
    tried first and given up when the rest does not match after it. *)
Definition percent_tail (num rest : jsstring) : option (jsstring * nat) :=
  let '(ws, r) := span is_space rest in
  match r with
  | p :: _ =>
      if (p =? 37)%N then Some (num ++ [37%N], length num + length ws + 1)
      else None
  | [] => None
  end.

Definition m_percent : Matcher := fun s =>
  match span is_digit s with
  | ([], _) => None
  | (ds, r1) =>
      let with_fraction :=
        match r1 with
        | d :: r' =>
            if (d =? 46)%N then
              match span is_digit r' with
              | ([], _) => None
              | (fs, r2) => percent_tail (ds ++ d :: fs) r2
              end
            else None
        | [] => None
        end in
      match with_fraction with
      | Some res => Some res
      | None => percent_tail ds r1
      end
  end.

(** [/ ( \d+ ) ( [A-Za-z] ) /g], replaced by [$1 $2]. *)
Definition m_digit_letter : Matcher := fun s =>
  match span is_digit s with
  | ([], _) => None
  | (ds, l :: _) =>
      if is_letter l then Some (ds ++ [32%N; l], S (length ds)) else None
  | (_, []) => None
  end.

(** [/ ( \d+ ) \. ( \d+ ) /g], replaced by [$1.$2]. *)
Definition m_decimal : Matcher := fun s =>
  match span is_digit s with
  | ([], _) => None
  | (ds, d :: r) =>
      if (d =? 46)%N then
        match span is_digit r with
        | ([], _) => None
        | (fs, _) => Some (ds ++ d :: fs, length ds + 1 + length fs)
        end
      else None
  | (_, []) => None
  end.

(** [/ \s+ /g], replaced by one blank. *)
Definition m_spaces : Matcher := fun s =>
  match span is_space s with
  | ([], _) => None
  | (ws, _) => Some ([32%N], length ws)
  end.

(** [/ ( [.!?] ) ( [A-Z] ) /g], replaced by [$1 $2]. *)
Definition m_sentence : Matcher := fun s =>
  match s with
  | p :: u :: _ =>
      if is_sentence_end p && is_upper u then Some ([p; 32%N; u], 2)
      else None
  | _ => None
  end.

Definition cleanCurrencyAndPercent (text : jsstring) : jsstring :=
  match text with
  | [] => text
  | _ =>
      replace_all m_sentence 0
        (replace_all m_spaces 0
           (replace_all m_decimal 0
              (replace_all m_digit_letter 0
                 (replace_all m_percent 0
                    (replace_all m_currency 0 text)))))
  end.

(** The cleanup applied to every piece of text that is displayed. *)
Definition cleanup (text : jsstring) : jsstring :=
  cleanCurrencyAndPercent (normalizeStreamingText text).

(** [`${cleanCurrencyAndPercent(normalizeStreamingText(v))}`] for a value
    [v] of the parsed object. Both functions start with
    [if (!text) return text], so a falsy value comes back unchanged and
    the template prints it; a truthy value that is not a string has no
    [replace] method and the call throws. *)
Definition cleanup_value (v : JsValue) : Completion jsstring :=
  match v with
  | JsString s => Normal (cleanup s)
  | JsUndefined => Normal (js "undefined")
  | JsNull => Normal (js "null")
  | JsBool false => Normal (js "false")
  | JsNumber d => if is_zero_number d then Normal (js "0")
                  else Throw TypeError
  | _ => Throw TypeError
  end.

Fixpoint map_values (f : JsValue -> Completion jsstring)
  (l : list JsValue) : Completion (list jsstring) :=
  match l with
  | [] => Normal []
  | v :: r => x ← f v; xs ← map_values f r; Normal (x :: xs)
  end.

(** [parsed.key_points.map(point => ...)]: only an array has [map]. *)
Definition cleanup_points (v : JsValue) : Completion (list jsstring) :=
  match v with
  | JsArray items => map_values cleanup_value items
  | _ => Throw TypeError
  end.

Definition nl : jsstring := [10%N].

Definition bullets (points : list jsstring) : jsstring :=
  join nl (map (fun point => js "- " ++ point) points).

Definition key_points_heading : jsstring :=
  nl ++ nl ++ js "### Key Points" ++ nl ++ nl.

(** The text between the first opening brace and the last closing brace
    of the trimmed response, or the trimmed response itself. *)
Definition json_candidate (response : jsstring) : jsstring :=
  let cleanResponse := trim response in
  let jsonStart := indexOf 123 cleanResponse in
  let jsonEnd := lastIndexOf 125 cleanResponse in
  if negb (jsonStart =? -1)%Z && negb (jsonEnd =? -1)%Z
     && (jsonStart <? jsonEnd)%Z
  then substring cleanResponse jsonStart (jsonEnd + 1)
  else cleanResponse.

(** The [try] block of [formatResponse]: [Normal (Some text)] when it
    returns [text], [Normal None] when it ends without returning. *)
Definition try_structured (response : jsstring)
  : Completion (option jsstring) :=
  parsed ← JSON_parse (json_candidate response);
  summary ← get_prop parsed (js "summary");
  details ← get_prop parsed (js "details");
  key_points ← get_prop parsed (js "key_points");
  status ← get_prop parsed (js "status");
  if truthy summary && truthy details && truthy key_points && truthy status
  then
    cleanSummary ← cleanup_value summary;
    cleanDetails ← cleanup_value details;
    cleanKeyPoints ← cleanup_points key_points;
    Normal (Some (js "## " ++ cleanSummary ++ nl ++ nl ++ cleanDetails
                    ++ key_points_heading ++ bullets cleanKeyPoints))
  else Normal None.

(** [text.match(/re/)]: the leftmost position where [m] matches. *)
Fixpoint search {A} (m : jsstring -> option A) (s : jsstring) : option A :=
  match m s with
  | Some a => Some a
  | None => match s with
            | [] => None
            | _ :: r => search m r
            end
  end.

Definition quoted (name : jsstring) : jsstring := [34%N] ++ name ++ [34%N].

(** [/ QnameQ: \s* Q ( [^Q]+ ) Q /] at the start of [s]; the result is
    group 1. *)
Definition m_field (name : jsstring) (s : jsstring) : option jsstring :=
  let key := quoted name ++ [58%N] in
  if startsWith key s then
    match drop_while is_space (drop (length key) s) with
    | q :: r =>
        if (q =? 34)%N then
          match span (fun c => negb (c =? 34)%N) r with
          | ([], _) => None
          | (g, _ :: _) => Some g
          | (_, []) => None
          end
        else None
    | [] => None
    end
  else None.

(** [/ Qkey_pointsQ: \s* \[ ( .*? ) \] /] at the start of [s]; the result is
    group 1: the characters up to the first closing bracket, none of which
    may be a line terminator. *)
Definition m_key_points (s : jsstring) : option jsstring :=
  let key := quoted (js "key_points") ++ [58%N] in
  if startsWith key s then
    match drop_while is_space (drop (length key) s) with
    | b :: r =>
        if (b =? 91)%N then
          match span (fun c => negb (c =? 93)%N
                               && negb (is_line_terminator c)) r with
          | (g, c :: _) => if (c =? 93)%N then Some g else None
          | (_, []) => None
          end
        else None
    | [] => None
    end
  else None.

(** [point.trim()] with every double quote removed. *)
Definition strip_point (point : jsstring) : jsstring :=
  filter (fun c => c ≠ 34%N) (trim point).

(** The [catch] block of [formatResponse]: [Some text] when it returns. *)
Definition manual_extraction (response : jsstring) : option jsstring :=
  let summaryMatch := search (m_field (js "summary")) response in
  let detailsMatch := search (m_field (js "details")) response in
  let keyPointsMatch := search m_key_points response in
  match summaryMatch, detailsMatch with
  | Some summary, Some details =>
      let formatted :=
        js "## " ++ cleanup summary ++ nl ++ nl ++ cleanup details in
      Some
        match keyPointsMatch with
        | Some inner =>
            let points :=
              map cleanup
                (filter (fun point => point ≠ [])
                   (map strip_point (split_on 44 inner))) in
            match points with
            | [] => formatted
            | _ => formatted ++ key_points_heading ++ bullets points
            end
        | None => formatted
        end
  | _, _ => None
  end.

Definition formatResponse (response : jsstring) : jsstring :=
  match try_structured response with
  | Normal (Some text) => text
  | Normal None => cleanup response
  | Throw _ =>
      match manual_extraction response with
      | Some text => text
      | None => cleanup response
      end
  end.

End Reconstructor.
Export Reconstructor.

(** ** The client stream consumer ([App.tsx], component [App]) *)
Module Client.

(** The pieces of React state that the stream listeners and the two
    handlers touch. *)
Record State := {
  message : jsstring;
  isLoading : bool;
  response : jsstring;
  error : jsstring
}.

Definition initial : State :=
  {| message := []; isLoading := false; response := []; error := [] |}.

(** What can happen to the component: the four events of the local
    channel, the two user actions, and the way their [invoke] settles. *)
Inductive Event :=
| ResponseChunk (payload : jsstring)      (* ai-response-chunk *)
| ResponseDone                            (* ai-response-done *)
| ResponseError (payload : jsstring)      (* ai-response-error *)
| ResponseCancelled (payload : jsstring)  (* ai-response-cancelled *)
| SubmitClicked                           (* handleSubmit, up to the await *)
| SubmitRejected (err : jsstring)         (* handleSubmit, catch branch *)
| StopResolved                            (* handleStop, invoke resolved *)
| StopRejected.                           (* handleStop, catch branch *)

Definition step (st : State) (ev : Event) : State :=
  match ev with
  | ResponseChunk payload =>
      (* setResponse((prev) => prev + event.payload) *)
      {| message := message st; isLoading := isLoading st;
         response := response st ++ payload; error := error st |}
  | ResponseDone =>
      (* setIsLoading(false); setMessage(empty) *)
      {| message := []; isLoading := false;
         response := response st; error := error st |}
  | ResponseError payload =>
      (* setError(event.payload); setIsLoading(false) *)
      {| message := message st; isLoading := false;
         response := response st; error := payload |}
  | ResponseCancelled _ =>
      (* setIsLoading(false) *)
      {| message := message st; isLoading := false;
         response := response st; error := error st |}
  | SubmitClicked =>
      (* if (message.trim()) { setIsLoading(true); setError(empty);
         setResponse(empty); ... } *)
      match trim (message st) with
      | [] => st
      | _ => {| message := message st; isLoading := true;
                response := []; error := [] |}
      end
  | SubmitRejected err =>
      (* setError(err); setIsLoading(false) *)
      {| message := message st; isLoading := false;
         response := response st; error := err |}
  | StopResolved | StopRejected =>
      (* setIsLoading(false), on both paths of handleStop *)
      {| message := message st; isLoading := false;
         response := response st; error := error st |}
  end.

Definition run (st : State) (evs : list Event) : State :=
  fold_left step evs st.

End Client.

(** The two upstream providers, one route each. *)
Inductive Provider := Gemini | Perplexity.

(** ** The quota limiter *)
Module QuotaLimiter.

(** [createRateLimit(windowMs, max, message)]: the options handed to the
    [express-rate-limit] package. *)
Record Options := {
  windowMs : Z;
  max : nat;
  message : string
}.

Definition createRateLimit (windowMs : Z) (max : nat) (message : string)
  : Options :=
  {| windowMs := windowMs; max := max; message := message |}.

Definition geminiRateLimit : Options :=
  createRateLimit (15 * 60 * 1000) 50
    "Gemini API rate limit exceeded. Please try again later.".

Definition perplexityRateLimit : Options :=
  createRateLimit (15 * 60 * 1000) 30
    "Perplexity API rate limit exceeded. Please try again later.".

Definition generalRateLimit : Options :=
  createRateLimit (15 * 60 * 1000) 100
    "General API rate limit exceeded. Please try again later.".

(** [keyGenerator]: [`${req.ip}-${req.get("User-Agent")}`]; a missing
    header prints as [undefined]. *)
Definition keyGenerator (ip : string) (userAgent : option string)
  : string :=
  ip +:+ "-" +:+ match userAgent with
                 | Some ua => ua
                 | None => "undefined"
                 end.

(** Modelled from the spec: the admission check itself is done inside the
    [express-rate-limit] package, which is not part of the sources. The
    specification describes it as a [QuotaWindow]
    [{windowStartTime, windowDurationMs, maxRequests, countsByKey}] whose
    counts reset to empty when
    [now - windowStartTime >= windowDurationMs], and an admission that, on
    each call, resets the window if it has expired, increments
    [countsByKey[identity]] and allows the call when
    [count <= maxRequests]. *)
Record QuotaWindow := {
  windowStartTime : Z;
  windowDurationMs : Z;
  maxRequests : nat;
  countsByKey : gmap string nat
}.

Definition open_window (o : Options) (now : Z) : QuotaWindow :=
  {| windowStartTime := now; windowDurationMs := windowMs o;
     maxRequests := max o; countsByKey := ∅ |}.

Definition expired (w : QuotaWindow) (now : Z) : bool :=
  (windowDurationMs w <=? now - windowStartTime w)%Z.

Definition reset_if_expired (w : QuotaWindow) (now : Z) : QuotaWindow :=
  if expired w now then
    {| windowStartTime := now; windowDurationMs := windowDurationMs w;
       maxRequests := maxRequests w; countsByKey := ∅ |}
  else w.

Definition count_of (w : QuotaWindow) (identity : string) : nat :=
  default 0 (countsByKey w !! identity).

Definition quota_check (identity : string) (now : Z) (w : QuotaWindow)
  : bool * QuotaWindow :=
  let w1 := reset_if_expired w now in
  let count := S (count_of w1 identity) in
  (count <=? maxRequests w1,
   {| windowStartTime := windowStartTime w1;
      windowDurationMs := windowDurationMs w1;
      maxRequests := maxRequests w1;
      countsByKey := <[identity := count]> (countsByKey w1) |}).

(** A sequence of calls, each by some identity at some time, in order:
    the window they leave behind. *)
Fixpoint quota_checks (cs : list (string * Z)) (w : QuotaWindow)
  : QuotaWindow :=
  match cs with
  | [] => w
  | (identity, now) :: rest => quota_checks rest (snd (quota_check identity now w))
  end.

Definition calls_by (identity : string) (cs : list (string * Z)) : nat :=
  length (filter (fun c => fst c = identity) cs).

(** The three limiter instances of the server. *)
Record Limiters := {
  general : QuotaWindow;
  gemini : QuotaWindow;
  perplexity : QuotaWindow
}.

Definition start (now : Z) : Limiters :=
  {| general := open_window generalRateLimit now;
     gemini := open_window geminiRateLimit now;
     perplexity := open_window perplexityRateLimit now |}.

Inductive Verdict :=
| Allowed
| Denied (message : string).

(** The scopes of the quota: the whole API, or one provider. *)
Inductive QuotaScope :=
| GlobalScope
| ProviderScope (p : Provider).

Definition scope_options (s : QuotaScope) : Options :=
  match s with
  | GlobalScope => generalRateLimit
  | ProviderScope Gemini => geminiRateLimit
  | ProviderScope Perplexity => perplexityRateLimit
  end.

Definition scope_window (s : QuotaScope) (ls : Limiters) : QuotaWindow :=
  match s with
  | GlobalScope => general ls
  | ProviderScope Gemini => gemini ls
  | ProviderScope Perplexity => perplexity ls
  end.

(** The middleware chain of a provider route, as registered by
    [app.post(path, generalRateLimit, <provider>RateLimit, handler)]: the
    general limiter runs first, and the provider's limiter only once the
    general one has let the request through. *)
Definition route_limits (p : Provider) (identity : string) (now : Z)
  (ls : Limiters) : Verdict * Limiters :=
  let '(ok_general, g) := quota_check identity now (general ls) in
  if ok_general then
    match p with
    | Gemini =>
        let '(ok, w) := quota_check identity now (gemini ls) in
        (if ok then Allowed else Denied (message geminiRateLimit),
         {| general := g; gemini := w; perplexity := perplexity ls |})
    | Perplexity =>
        let '(ok, w) := quota_check identity now (perplexity ls) in
        (if ok then Allowed else Denied (message perplexityRateLimit),
         {| general := g; gemini := gemini ls; perplexity := w |})
    end
  else
    (Denied (message generalRateLimit),
     {| general := g; gemini := gemini ls; perplexity := perplexity ls |}).

End QuotaLimiter.
Export QuotaLimiter.

(** ** The gateway ([proxy-server/api/index.js]) *)
Module Gateway.

(** [req.body] after the body parsers; a field that is absent is
    [JsUndefined]. *)
Record Body := {
  b_model : JsValue;
  b_prompt : JsValue;
  b_temperature : JsValue;
  b_maxTokens : JsValue;
  b_stream : JsValue
}.

Record Request := {
  ip : string;
  userAgent : option string;
  body : Body
}.

(** [process.env]. *)
Record ProcessEnv := {
  GEMINI_API_KEY : option jsstring;
  PERPLEXITY_API_KEY : option jsstring
}.

(** [!process.env.KEY] is false exactly for a non-empty string. *)
Definition configured (key : option jsstring) : bool :=
  match key with
  | Some (_ :: _) => true
  | _ => false
  end.

(** A binding pattern with a default, [{ name = value }]. *)
Definition with_default (d v : JsValue) : JsValue :=
  match v with
  | JsUndefined => d
  | _ => v
  end.

(** *** Scopes

    The request fields [model], [prompt], [temperature], [maxTokens] and
    [stream] are bound by the [const] declaration at the top of the [try]
    block, so they live in that block only (the [let]s of the handlers
    below). The [catch] block binds [error] and otherwise sees what the
    handler function sees, its parameters [req] and [res] and the constants
    of the module: none of the request fields. Reading an identifier that is
    not bound throws a [ReferenceError]. *)
Definition Scope := list (string * JsValue).

Fixpoint lookup_identifier (x : string) (sc : Scope) : Completion JsValue :=
  match sc with
  | [] => Throw (ReferenceError x)
  | (y, v) :: rest =>
      if String.eqb x y then Normal v else lookup_identifier x rest
  end.

(** The request fields in scope in the [catch] block of a handler. *)
Definition catch_scope : Scope := [].

(** *** What the handlers do to [res] *)

(** One server-sent record, [data: <payload>\n\n]. *)
Inductive SseData :=
| SseContent (content model : JsValue) (provider : string)
| SseDone                                   (* data: [DONE] *)
| SseError (error : string).

Inductive JsonBody :=
| ErrorBody (error : string) (details : option JsValue)
| GeminiSuccess (content model : JsValue)
| PerplexitySuccess (content citations searchResults model : JsValue)
| InternalErrorBody.

Inductive ResCall :=
| SetHeader (name value : string)
| Status (code : Z)
| SendJson (b : JsonBody)
| Write (d : SseData)
| End.

(** *** The upstream *)

(** One [axios.post]. *)
Record AxiosCall := {
  call_provider : Provider;
  call_model : JsValue;
  call_prompt : JsValue;
  call_responseType_stream : bool
}.

(** The error of a rejected [axios.post]: [error.response?.status],
    [error.response.data?.error?.message] and [error.message]. A timeout
    has no [response]. *)
Record ErrorResponse := {
  status : Z;
  data_error_message : JsValue
}.

Record AxiosError := {
  err_response : option ErrorResponse;
  err_message : jsstring
}.

Definition timeout_error : AxiosError :=
  {| err_response := None; err_message := js "timeout of 30000ms exceeded" |}.

Inductive AxiosResult (D : Type) :=
| Resolved (data : D)
| Rejected (error : AxiosError).
Arguments Resolved {D} data.
Arguments Rejected {D} error.

(** [response.data] of the Gemini [generateContent] call. *)
Record Part := { text : option jsstring }.
Record Content := { parts : option (list Part) }.
Record Candidate := { content : option Content }.
Record GeminiData := { candidates : option (list Candidate) }.

(** [response.data] of the Perplexity call without streaming. *)
Record Choice := { message_content : JsValue }.
Record PerplexityData := {
  choices : option (list Choice);
  citations : JsValue;
  search_results : JsValue
}.

(** What the upstream stream of the Perplexity call emits. *)
Inductive UpstreamEvent :=
| OnData (chunk : jsstring)
| OnEnd
| OnError.

(** [response.data] of the Perplexity call: the parsed body when the call
    was made without [responseType], and a stream emitting [data_events]
    when it was made with [responseType: stream]. *)
Record PerplexityResponse := {
  data_json : PerplexityData;
  data_events : list UpstreamEvent
}.

(** One run of a handler: the upstream calls it made, its calls on [res]
    in order (those of the timer and stream callbacks it installed
    included), and how the [async] function itself completed. *)
Record Run := {
  calls : list AxiosCall;
  res_calls : list ResCall;
  outcome : Completion unit
}.

Definition respond (rs : list ResCall) : Run :=
  {| calls := []; res_calls := rs; outcome := Normal () |}.

Definition missing_fields : list ResCall :=
  [Status 400;
   SendJson (ErrorBody
     "Missing required fields: model and prompt are required" None)].

Definition sse_headers : list ResCall :=
  [SetHeader "Content-Type" "text/event-stream";
   SetHeader "Cache-Control" "no-cache";
   SetHeader "Connection" "keep-alive";
   SetHeader "Access-Control-Allow-Origin" "*";
   SetHeader "Access-Control-Allow-Headers" "Cache-Control"].

(** *** The Gemini handler *)

(** [candidates[0].content?.parts?.[0]?.text], or the empty string when
    that is falsy. *)
Definition first_text (c : Candidate) : jsstring :=
  match content c with
  | Some ct =>
      match parts ct with
      | Some (p :: _) => match text p with
                         | Some t => t
                         | None => []
                         end
      | _ => []
      end
  | None => []
  end.

(** [sendChunk], called again by its own timer until the words are used
    up. *)
Equations? sendChunk (model : JsValue) (words : list jsstring)
  (index : nat) : list ResCall by wf (length words - index) lt :=
  sendChunk model words index with decide (index < length words) := {
    | left _ =>
        let chunk :=
          words !!! index
            ++ (if decide (index < length words - 1) then js " " else []) in
        Write (SseContent (JsString chunk) model "gemini")
          :: sendChunk model words (S index)
    | right _ => [Write SseDone; End] }.
Proof. lia. Qed.

Definition gemini_stream_response (model : JsValue) (data : GeminiData)
  : list ResCall :=
  match candidates data with
  | Some (c :: _) =>
      sse_headers ++ sendChunk model (split_on 32 (first_text c)) 0
  | _ =>
      [SetHeader "Content-Type" "text/event-stream";
       Write (SseError "No response from Gemini API");
       End]
  end.

Definition gemini_json_response (model : JsValue) (data : GeminiData)
  : list ResCall :=
  match candidates data with
  | Some (c :: _) =>
      [SendJson (GeminiSuccess (JsString (first_text c)) model)]
  | _ =>
      [Status 500; SendJson (ErrorBody "No response from Gemini API" None)]
  end.

(** The two arms of the [catch] block, for a given value of [stream]. *)
Definition error_details (fallback : JsValue) (error : AxiosError)
  : JsValue :=
  match err_response error with
  | Some r => js_or (data_error_message r) fallback
  | None => fallback
  end.

Definition status_is (code : Z) (error : AxiosError) : bool :=
  match err_response error with
  | Some r => (status r =? code)%Z
  | None => false
  end.

Definition error_response (api : string) (stream : JsValue)
  (error : AxiosError) : list ResCall :=
  if truthy stream then
    [Write (SseError (api +:+ " API request failed")); End]
  else if status_is 429 error then
    [Status 429; SendJson (ErrorBody (api +:+ " API rate limit exceeded") None)]
  else if status_is 400 error then
    [Status 400;
     SendJson (ErrorBody ("Invalid request to " +:+ api +:+ " API")
                 (Some (error_details (JsString (js "Bad request")) error)))]
  else
    [Status 500;
     SendJson (ErrorBody (api +:+ " API request failed")
                 (Some (error_details (JsString (err_message error)) error)))].

(** The [catch] block: [if (stream)] reads the identifier first. *)
Definition catch_block (api : string) (sc : Scope) (error : AxiosError)
  : list ResCall * Completion unit :=
  match lookup_identifier "stream" sc with
  | Normal stream => (error_response api stream error, Normal ())
  | Throw e => ([], Throw e)
  end.

Definition gemini_handler (env : ProcessEnv) (req : Request)
  (upstream : AxiosResult GeminiData) : Run :=
  let b := body req in
  let model := b_model b in
  let prompt := b_prompt b in
  let stream := with_default (JsBool false) (b_stream b) in
  if negb (truthy model) || negb (truthy prompt) then respond missing_fields
  else if negb (configured (GEMINI_API_KEY env)) then
    respond [Status 500; SendJson (ErrorBody "Gemini API key not configured" None)]
  else
    let call := {| call_provider := Gemini; call_model := model;
                   call_prompt := prompt;
                   call_responseType_stream := false |} in
    match upstream with
    | Resolved data =>
        {| calls := [call];
           res_calls := if truthy stream
                        then gemini_stream_response model data
                        else gemini_json_response model data;
           outcome := Normal () |}
    | Rejected error =>
        let '(rs, o) := catch_block "Gemini" catch_scope error in
        {| calls := [call]; res_calls := rs; outcome := o |}
    end.

(** *** The Perplexity handler *)

(** The body of the [try] around [JSON.parse(data)] in the [data]
    listener; an exception there is swallowed. *)
Definition delta_content (data : jsstring) : Completion JsValue :=
  parsed ← JSON_parse data;
  choices ← get_prop parsed (js "choices");
  if truthy choices then
    first ← get_index0 choices;
    Normal (opt_get_prop (opt_get_prop first (js "delta")) (js "content"))
  else Normal JsUndefined.

(** The loop over the lines of one chunk; at the end marker the listener
    writes it, ends the response and returns. *)
Fixpoint on_lines (model : JsValue) (lines : list jsstring)
  : list ResCall :=
  match lines with
  | [] => []
  | line :: rest =>
      match trim line with
      | _ :: _ =>
          if startsWith (js "data: ") line then
            let data := drop 6 line in
            if JsString.eqb data (js "[DONE]") then [Write SseDone; End]
            else
              match delta_content data with
              | Normal content =>
                  if truthy content
                  then Write (SseContent content model "perplexity")
                         :: on_lines model rest
                  else on_lines model rest
              | Throw _ => on_lines model rest
              end
          else on_lines model rest
      | [] => on_lines model rest
      end
  end.

(** The three listeners installed on [response.data]. *)
Definition on_event (model : JsValue) (ev : UpstreamEvent) : list ResCall :=
  match ev with
  | OnData chunk => on_lines model (split_on 10 chunk)
  | OnEnd => [Write SseDone; End]
  | OnError => [Write (SseError "Streaming error occurred"); End]
  end.

Definition perplexity_stream_response (model : JsValue)
  (events : list UpstreamEvent) : list ResCall :=
  concat (map (on_event model) events).

Definition perplexity_json_response (model : JsValue)
  (data : PerplexityData) : list ResCall :=
  match choices data with
  | Some (c :: _) =>
      [SendJson (PerplexitySuccess
                   (js_or (message_content c) (JsString []))
                   (js_or (citations data) (JsArray []))
                   (js_or (search_results data) (JsArray []))
                   model)]
  | _ =>
      [Status 500;
       SendJson (ErrorBody "No response from Perplexity API" None)]
  end.

Definition perplexity_handler (env : ProcessEnv) (req : Request)
  (upstream : AxiosResult PerplexityResponse) : Run :=
  let b := body req in
  let model := b_model b in
  let prompt := b_prompt b in
  let stream := with_default (JsBool false) (b_stream b) in
  if negb (truthy model) || negb (truthy prompt) then respond missing_fields
  else if negb (configured (PERPLEXITY_API_KEY env)) then
    respond [Status 500;
             SendJson (ErrorBody "Perplexity API key not configured" None)]
  else
    let call := {| call_provider := Perplexity; call_model := model;
                   call_prompt := prompt;
                   call_responseType_stream := truthy stream |} in
    let headers := if truthy stream then sse_headers else [] in
    match upstream with
    | Resolved response =>
        {| calls := [call];
           res_calls :=
             if truthy stream
             then headers
                    ++ perplexity_stream_response model (data_events response)
             else perplexity_json_response model (data_json response);
           outcome := Normal () |}
    | Rejected error =>
        let '(rs, o) := catch_block "Perplexity" catch_scope error in
        {| calls := [call]; res_calls := headers ++ rs; outcome := o |}
    end.

(** *** The error-handling middleware, [app.use((error, req, res, next))] *)
Definition error_middleware : list ResCall :=
  [Status 500; SendJson InternalErrorBody].

(** *** The routes: limiters first, then the handler *)

Definition rate_limited (message : string) : Run :=
  respond [Status 429; SendJson (ErrorBody message None)].

Definition identity_of (req : Request) : string :=
  keyGenerator (ip req) (userAgent req).

Definition post_gemini (env : ProcessEnv) (now : Z) (ls : Limiters)
  (req : Request) (upstream : AxiosResult GeminiData) : Limiters * Run :=
  let '(v, ls') := route_limits Gemini (identity_of req) now ls in
  (ls', match v with
        | Allowed => gemini_handler env req upstream
        | Denied message => rate_limited message
        end).

Definition post_perplexity (env : ProcessEnv) (now : Z) (ls : Limiters)
  (req : Request) (upstream : AxiosResult PerplexityResponse)
  : Limiters * Run :=
  let '(v, ls') := route_limits Perplexity (identity_of req) now ls in
  (ls', match v with
        | Allowed => perplexity_handler env req upstream
        | Denied message => rate_limited message
        end).

(** *** Reading a trace of [res] calls as a stream of events *)

(** The records that reach the client: those written before [res.end()]. *)
Fixpoint written (rs : list ResCall) : list SseData :=
  match rs with
  | [] => []
  | End :: _ => []
  | Write d :: rest => d :: written rest
  | _ :: rest => written rest
  end.

(** Every record the handler tried to write, ended or not. *)
Definition attempted (rs : list ResCall) : list SseData :=
  omap (fun c => match c with Write d => Some d | _ => None end) rs.

Definition is_terminal (d : SseData) : bool :=
  match d with
  | SseContent _ _ _ => false
  | SseDone | SseError _ => true
  end.

(** The end marker and the error record end a stream. *)
Definition terminal_events (rs : list ResCall) : list SseData :=
  List.filter is_terminal (attempted rs).

Definition chunk_text (d : SseData) : jsstring :=
  match d with
  | SseContent (JsString s) _ _ => s
  | _ => []
  end.

(** The status code of the reply, [200] unless set. *)
Fixpoint status_code (rs : list ResCall) : Z :=
  match rs with
  | [] => 200
  | Status c :: _ => c
  | _ :: rest => status_code rest
  end.

End Gateway.
Export Gateway.

(** ** Inputs and predicates used in the statements *)

(** Sample inputs for the examples of Part II. *)
Definition sample_env : ProcessEnv :=
  {| GEMINI_API_KEY := Some (js "key-a"); PERPLEXITY_API_KEY := Some (js "key-b") |}.

Definition sample_body (model : string) (stream : JsValue) : Body :=
  {| b_model := JsString (js model); b_prompt := JsString (js "Hi");
     b_temperature := JsUndefined; b_maxTokens := JsUndefined;
     b_stream := stream |}.

Definition sample_request (model : string) (stream : JsValue) : Request :=
  {| ip := "10.0.0.7"; userAgent := Some "ghost-query";
     body := sample_body model stream |}.

Definition sample_candidate (t : option jsstring) : Candidate :=
  {| content := Some {| parts := Some [{| text := t |}] |} |}.

Definition gemini_data (t : option jsstring) : GeminiData :=
  {| candidates := Some [sample_candidate t] |}.

Definition upstream_status (code : Z) : AxiosError :=
  {| err_response := Some {| status := code; data_error_message := JsUndefined |};
     err_message := js "Request failed" |}.

Definition no_json : PerplexityData :=
  {| choices := None; citations := JsUndefined; search_results := JsUndefined |}.

(** A request that passes validation, with the API keys in place. *)
Definition accepted (env : ProcessEnv) (req : Request) : Prop :=
  truthy (b_model (body req)) = true
  /\ truthy (b_prompt (body req)) = true
  /\ configured (GEMINI_API_KEY env) = true
  /\ configured (PERPLEXITY_API_KEY env) = true.

Definition streaming (req : Request) : bool :=
  truthy (with_default (JsBool false) (b_stream (body req))).

Definition absent_or_empty (v : JsValue) : Prop :=
  v = JsUndefined \/ v = JsString [].

Definition no_candidates (data : GeminiData) : Prop :=
  candidates data = None \/ candidates data = Some [].

(** The status that the mapping of upstream failures gives: 429 for an
    upstream 429, 400 for an upstream 400, and 500 for every other failure,
    one without any upstream response (a timeout) included. *)
Definition mapped_status (error : AxiosError) : Z :=
  match err_response error with
  | Some r =>
      if (status r =? 429)%Z then 429%Z
      else if (status r =? 400)%Z then 400%Z
      else 500%Z
  | None => 500%Z
  end.

(** No reply body among the calls on [res]. *)
Definition no_reply (rs : list ResCall) : Prop :=
  Forall (fun c => match c with
                   | SendJson _ | Write _ | Status _ => False
                   | _ => True
                   end) rs.

Definition chunk_events (payloads : list jsstring) : list Client.Event :=
  map Client.ResponseChunk payloads.

Definition in_window (opened duration : Z) (t : Z) : Prop :=
  (t - opened < duration)%Z.

Definition scope_limit (s : QuotaScope) : nat :=
  match s with
  | GlobalScope => 100
  | ProviderScope Gemini => 50
  | ProviderScope Perplexity => 30
  end.

Definition fifteen_minutes : Z := 900000.

Definition provider_window (p : Provider) (ls : Limiters) : QuotaWindow :=
  scope_window (ProviderScope p) ls.

Definition burst (identity : string) (n : nat) (t : Z) : list (string * Z) :=
  repeat (identity, t) n.

(** The same as [js], with every apostrophe of the literal standing for a
    double quote. *)
Definition jsq (s : string) : jsstring :=
  map (fun c => if (c =? 39)%N then 34%N else c) (js s).

(** The branch of [formatResponse] that produces the result. *)
Inductive Tier :=
| StructuredTier   (* the parsed object was rendered *)
| ExtractedTier    (* the fields were recovered by pattern matching *)
| CleanupTier.     (* the raw text was cleaned *)

Definition tier (response : jsstring) : Tier :=
  match try_structured response with
  | Normal (Some _) => StructuredTier
  | Normal None => CleanupTier
  | Throw _ =>
      match manual_extraction response with
      | Some _ => ExtractedTier
      | None => CleanupTier
      end
  end.

(** The example of the specification. *)
Definition structured_example : jsstring :=
  jsq "{'summary':'S','details':'D','key_points':['A','B'],'status':'ok'}".

(** A value that [cleanup_value] prints: a string, or a falsy value. *)
Definition printable (v : JsValue) : bool :=
  match v with
  | JsString _ => true
  | _ => negb (truthy v)
  end.

(** The rendering of the structured tier. *)
Definition render (summary details : jsstring) (points : list jsstring)
  : jsstring :=
  js "## " ++ summary ++ nl ++ nl ++ details
    ++ key_points_heading ++ bullets points.

(** ** Local descriptions of the replacement passes

    What the four passes of [cleanCurrencyAndPercent] that change the text do,
    described character by character, and the shapes of text that each of
    them leaves behind. The lemmas of Part II relate them to
    [replace_all]. *)

(** A blank between every [P] character and a [Q] character that follows
    it directly. *)
Fixpoint insert_space (P Q : N -> bool) (l : jsstring) : jsstring :=
  match l with
  | [] => []
  | a :: r =>
      match r with
      | b :: _ =>
          if P a && Q b then a :: 32%N :: insert_space P Q r
          else a :: insert_space P Q r
      | [] => [a]
      end
  end.

(** Every run of white space becomes one blank. *)
Fixpoint collapse_spaces (l : jsstring) : jsstring :=
  match l with
  | [] => []
  | a :: r =>
      if is_space a then
        match r with
        | b :: _ => if is_space b then collapse_spaces r
                    else 32%N :: collapse_spaces r
        | [] => [32%N]
        end
      else a :: collapse_spaces r
  end.

(** The text goes on with white space, if any, and then a percent sign. *)
Fixpoint spaces_then_percent (l : jsstring) : bool :=
  match l with
  | [] => false
  | c :: r =>
      if (c =? 37)%N then true
      else if is_space c then spaces_then_percent r
      else false
  end.

(** The white space between a digit and a percent sign is dropped;
    [after_digit] tells that the last character kept is a digit. *)
Fixpoint close_gaps (after_digit : bool) (l : jsstring) : jsstring :=
  match l with
  | [] => []
  | c :: r =>
      if is_space c && after_digit && spaces_then_percent r
      then close_gaps true r
      else c :: close_gaps (is_digit c) r
  end.

(** No [P] character is directly followed by a [Q] character. *)
Fixpoint no_adjacent (P Q : N -> bool) (l : jsstring) : bool :=
  match l with
  | [] => true
  | a :: r =>
      match r with
      | b :: _ => negb (P a && Q b)
      | [] => true
      end && no_adjacent P Q r
  end.

(** Every white-space character is a blank that stands alone. *)
Fixpoint single_spaces (l : jsstring) : bool :=
  match l with
  | [] => true
  | a :: r =>
      (if is_space a then
         (a =? 32)%N && match r with
                        | b :: _ => negb (is_space b)
                        | [] => true
                        end
       else true) && single_spaces r
  end.

(** No digit is followed by white space and then a percent sign. The state
    tells how the text read so far ends: with a digit, with a digit and
    white space after it, or otherwise. *)
Inductive GapState := Neutral | AfterDigit | InGap.

Definition gap_next (st : GapState) (c : N) : GapState :=
  if is_digit c then AfterDigit
  else if is_space c then match st with
                          | Neutral => Neutral
                          | _ => InGap
                          end
  else Neutral.

Definition in_gap (st : GapState) : bool :=
  match st with
  | InGap => true
  | _ => false
  end.

Fixpoint no_gap (st : GapState) (l : jsstring) : bool :=
  match l with
  | [] => true
  | c :: r =>
      if (c =? 37)%N && in_gap st then false
      else no_gap (gap_next st c) r
  end.

(** No zero-width character. *)
Definition no_zero_width (l : jsstring) : bool :=
  forallb (fun c => negb (is_zero_width c)) l.

(** A match that is replaced by itself. *)
Definition self_replacing (m : Matcher) (s : jsstring) : Prop :=
  forall k repl n,
    k < length s ->
    m (drop k s) = Some (repl, n) ->
    0 < n /\ repl = take n (drop k s).

(** The text as [cleanup] leaves it. *)
Definition cleaned (l : jsstring) : Prop :=
  no_adjacent is_digit is_letter l = true
  /\ no_adjacent is_sentence_end is_upper l = true
  /\ single_spaces l = true
  /\ no_gap Neutral l = true
  /\ no_zero_width l = true.

(** A number: characters that are not white space, the last one a digit. *)
Definition number_like (num : jsstring) : Prop :=
  Forall (fun c => is_space c = false) num
  /\ exists front d, num = front ++ [d] /\ is_digit d = true.

(** A parser that stays within its fuel and consumes input. *)
Definition within_fuel (res : Parsed JsValue) (s : jsstring) : Prop :=
  res <> POutOfFuel
  /\ forall v rest, res = POk v rest -> length rest < length s.

(** ** Definitions used in Part III *)

(** The characters of a text that are not white space, in order. *)
Definition visible (l : jsstring) : jsstring :=
  List.filter (fun c => negb (is_space c)) l.

(** The characters that are neither white space nor zero-width. *)
Definition visible_source (l : jsstring) : jsstring :=
  List.filter (fun c => negb (is_space c) && negb (is_zero_width c)) l.

(** What [JSON.parse] can give for a text without any double quote: no
    string, and no object other than the empty one. *)
Definition quoteless_value (v : JsValue) : Prop :=
  match v with
  | JsString _ => False
  | JsObject fs => fs = []
  | _ => True
  end.

Definition no_quote (l : jsstring) : Prop := Forall (fun c => c <> 34%N) l.

(** A line on which the [data] listener of the Perplexity handler writes the
    end marker: a data record whose payload is the sentinel. *)
Definition is_done_line (line : jsstring) : bool :=
  match trim line with
  | _ :: _ =>
      startsWith (js "data: ") line && JsString.eqb (drop 6 line) (js "[DONE]")
  | [] => false
  end.

Definition has_done_line (chunk : jsstring) : bool :=
  existsb is_done_line (split_on 10 chunk).

Definition is_content (d : SseData) : bool := negb (is_terminal d).

Definition is_submit (ev : Client.Event) : bool :=
  match ev with
  | Client.SubmitClicked => true
  | _ => false
  end.

Definition has_hyphen (s : string) : bool :=
  existsb (fun a => Ascii.eqb a "-") (list_ascii_of_string s).

(** The header as [keyGenerator] prints it. *)
Definition printed_user_agent (userAgent : option string) : string :=
  match userAgent with
  | Some ua => ua
  | None => "undefined"
  end.

Definition perplexity_record (model : JsValue) (d : SseData) : Prop :=
  d = SseDone
  \/ d = SseError "Streaming error occurred"
  \/ exists content,
       d = SseContent content model "perplexity" /\ truthy content = true.

Definition content_write (c : ResCall) : Prop :=
  exists d, c = Write d /\ is_terminal d = false.

(** A line of an upstream chunk that the [data] listener of the Perplexity
    handler passes over: it is not a data record, or its payload (other than
    the end marker) is not JSON or has no [choices[0]] to read, or the delta
    content read from it is falsy (missing, or the empty string). *)
Definition silent_line (line : jsstring) : Prop :=
  startsWith (js "data: ") line = false
  \/ (drop 6 line <> js "[DONE]"
      /\ exists e, JSON_parse (drop 6 line) = Throw e)
  \/ (drop 6 line <> js "[DONE]"
      /\ exists e, delta_content (drop 6 line) = Throw e)
  \/ (exists content,
        delta_content (drop 6 line) = Normal content
        /\ truthy content = false).

(** One item of a key-points list as the model writes it: the point
    between double quotes, with white space around. The point itself has no
    double quote and no comma and is not empty. *)
Definition written_point (item point : jsstring) : Prop :=
  exists l r,
    item = l ++ quoted point ++ r
    /\ Forall (fun c => is_space c = true) l
    /\ Forall (fun c => is_space c = true) r
    /\ point <> []
    /\ no_quote point
    /\ Forall (fun c => c <> 44%N) point.

(** The points that the [catch] block of [formatResponse] takes from the
    text between the brackets, before it cleans them. *)
Definition extracted_points (inner : jsstring) : list jsstring :=
  filter (fun point => point ≠ []) (map strip_point (split_on 44 inner)).

(** ** The model selector ([components/ui/model-selector.tsx]) *)
Module Selector.

Record ModelOption := {
  id : string;
  name : string;
  provider : string;
  description : string
}.

Definition MODELS : list ModelOption :=
  [{| id := "gemini-2.0-flash";
      name := "Gemini 2.0 Flash";
      provider := "Google";
      description := "Advanced Gemini model for fast responses" |}].

(** [models.find((model) => model.id === selectedModel) || models[0]];
    [None] stands for [undefined]. *)
Definition selected_among (models : list ModelOption) (selectedModel : string)
  : option ModelOption :=
  match List.find (fun model => String.eqb (id model) selectedModel) models with
  | Some model => Some model
  | None => head models
  end.

Definition selectedModelData (selectedModel : string) : option ModelOption :=
  selected_among MODELS selectedModel.

(** [useState("gemini-1.5-flash")] of [App]: the model that [handleSubmit]
    sends until the selector changes it. *)
Definition initial_selectedModel : string := "gemini-1.5-flash".

End Selector.

(** ** Copying a code block ([App.tsx], [CodeBlock] and [copyToClipboard]) *)
Module CodeCopy.

(** [String(children).replace(/\n$/, empty)]: one final line feed is
    removed. *)
Definition codeText (children : jsstring) : jsstring :=
  match rev children with
  | c :: r => if (c =? 10)%N then rev r else children
  | [] => children
  end.

(** [`code-${codeText.slice(0, 20).replace(/\s/g, empty)}`] *)
Definition codeId (children : jsstring) : jsstring :=
  js "code-"
    ++ List.filter (fun c => negb (is_space c)) (take 20 (codeText children)).

(** [copiedStates], an object used as a map from code ids to flags. *)
Abbreviation CopiedStates := (gmap (list N) bool).

(** [copiedStates[codeId]] as a condition: a missing entry is falsy. *)
Definition isCopied (st : CopiedStates) (id : jsstring) : bool :=
  default false (st !! id).

(** [copyToClipboard(text, "code", codeId)] once the clipboard write has
    succeeded, and what its timer does two seconds later. *)
Definition copied (id : jsstring) (st : CopiedStates) : CopiedStates :=
  match id with
  | [] => st
  | _ => <[id := true]> st
  end.

Definition copy_expired (id : jsstring) (st : CopiedStates) : CopiedStates :=
  match id with
  | [] => st
  | _ => <[id := false]> st
  end.

End CodeCopy.

(* ===================================================================== *)
(** * Part II: the properties *)
(* ===================================================================== *)

(** ** Strings and replacement *)

(** *** Character classes *)

Ltac char_classes :=
  unfold is_digit, is_letter, is_upper, is_lower, is_space, is_sentence_end,
    is_zero_width, is_nbsp, between in *;
  rewrite ?orb_true_iff, ?andb_true_iff, ?orb_false_iff, ?andb_false_iff,
    ?negb_true_iff, ?negb_false_iff,
    ?N.leb_le, ?N.leb_gt, ?N.eqb_eq, ?N.eqb_neq in *;
  lia.

Lemma digit_not_space c : is_digit c = true -> is_space c = false.
Proof. intros H. char_classes. Qed.

Lemma digit_not_letter c : is_digit c = true -> is_letter c = false.
Proof. intros H. char_classes. Qed.

Lemma letter_not_digit c : is_letter c = true -> is_digit c = false.
Proof. intros H. char_classes. Qed.

Lemma letter_not_space c : is_letter c = true -> is_space c = false.
Proof. intros H. char_classes. Qed.

Lemma upper_is_letter c : is_upper c = true -> is_letter c = true.
Proof. intros H. unfold is_letter. now rewrite H. Qed.

Lemma sentence_end_not_space c : is_sentence_end c = true -> is_space c = false.
Proof. intros H. char_classes. Qed.

Lemma sentence_end_not_digit c : is_sentence_end c = true -> is_digit c = false.
Proof. intros H. char_classes. Qed.

Lemma upper_not_sentence_end c : is_upper c = true -> is_sentence_end c = false.
Proof. intros H. char_classes. Qed.

Lemma space_not_percent c : is_space c = true -> (c =? 37)%N = false.
Proof. intros H. char_classes. Qed.

Lemma letter_not_percent c : is_letter c = true -> (c =? 37)%N = false.
Proof. intros H. char_classes. Qed.

Lemma digit_not_percent c : is_digit c = true -> (c =? 37)%N = false.
Proof. intros H. char_classes. Qed.

Lemma nbsp_is_space c : is_nbsp c = true -> is_space c = true.
Proof. intros H. char_classes. Qed.

(** *** [span] *)

Lemma span_app p s : fst (span p s) ++ snd (span p s) = s.
Proof.
  induction s as [|c r IH]; simpl; [reflexivity|].
  destruct (p c); [|reflexivity].
  destruct (span p r) as [a b]. simpl in *. now f_equal.
Qed.

Lemma span_prefix p s : Forall (fun c => p c = true) (fst (span p s)).
Proof.
  induction s as [|c r IH]; simpl; [constructor|].
  destruct (p c) eqn:E; [|constructor].
  destruct (span p r) as [a b]. simpl in *. now constructor.
Qed.

Lemma span_rest p s :
  match snd (span p s) with
  | c :: _ => p c = false
  | [] => True
  end.
Proof.
  induction s as [|c r IH]; simpl; [exact I|].
  destruct (p c) eqn:E; [|exact E].
  destruct (span p r) as [a b]. exact IH.
Qed.

Lemma span_cons_true p c r :
  p c = true -> span p (c :: r) = (c :: fst (span p r), snd (span p r)).
Proof. intros H. simpl. rewrite H. now destruct (span p r). Qed.

Lemma span_cons_false p c r : p c = false -> span p (c :: r) = ([], c :: r).
Proof. intros H. simpl. now rewrite H. Qed.

Lemma span_eq p s a b : span p s = (a, b) -> s = a ++ b.
Proof. intros H. rewrite <- (span_app p s), H. reflexivity. Qed.

(** *** [replace_all] *)

Lemma replace_all_skip m k s :
  replace_all m k s = replace_all m 0 (drop k s).
Proof.
  revert k. induction s as [|c r IH]; intros [|k]; try reflexivity.
  simpl. apply IH.
Qed.

Lemma replace_all_cons m c r :
  replace_all m 0 (c :: r)
  = match m (c :: r) with
    | Some (repl, n) => repl ++ replace_all m 0 (drop (Nat.pred n) r)
    | None => c :: replace_all m 0 r
    end.
Proof.
  simpl. destruct (m (c :: r)) as [[repl n]|]; [|reflexivity].
  now rewrite replace_all_skip.
Qed.

Lemma self_replacing_drop m s j :
  self_replacing m s -> self_replacing m (drop j s).
Proof.
  intros H k repl n Hk Hm. rewrite length_drop in Hk.
  rewrite drop_drop in Hm |- *. apply H; [lia|exact Hm].
Qed.

Lemma replace_all_self m s :
  self_replacing m s -> replace_all m 0 s = s.
Proof.
  remember (length s) as n eqn:Hn.
  revert s Hn. induction n as [n IH] using lt_wf_ind. intros s Hn Hself.
  destruct s as [|c r]; [reflexivity|].
  rewrite replace_all_cons.
  destruct (m (c :: r)) as [[repl k]|] eqn:Hm.
  - destruct (Hself 0 repl k) as [Hk ->]; [simpl; lia|exact Hm|].
    destruct k as [|k]; [lia|]. simpl.
    rewrite (IH (length (drop k r))).
    + now rewrite take_drop.
    + subst n. rewrite length_drop. simpl. lia.
    + reflexivity.
    + apply (self_replacing_drop m (c :: r) (S k)). exact Hself.
  - f_equal. apply (IH (length r)).
    + subst n. simpl. lia.
    + reflexivity.
    + apply (self_replacing_drop m (c :: r) 1). exact Hself.
Qed.

(** ** The fuel of the JSON parser is never used up *)

Lemma drop_while_length p s : length (drop_while p s) <= length s.
Proof.
  induction s as [|c r IH]; simpl; [lia|].
  destruct (p c); simpl; lia.
Qed.

Lemma skip_ws_length s : length (skip_ws s) <= length s.
Proof. apply drop_while_length. Qed.

Lemma span_length p s : length (snd (span p s)) <= length s.
Proof.
  rewrite <- (span_app p s) at 2. rewrite length_app. lia.
Qed.

Lemma span_shorter p s a b :
  span p s = (a, b) -> a <> [] -> length b < length s.
Proof.
  intros H Ha. apply span_eq in H. subst s. rewrite length_app.
  destruct a; [contradiction|simpl; lia].
Qed.

Lemma parse_string_shorter s str rest :
  parse_string s = Some (str, rest) -> length rest < length s.
Proof.
  remember (length s) as n eqn:Hn.
  revert s str rest Hn. induction n as [n IH] using lt_wf_ind.
  intros s str rest Hn. destruct s as [|c r]; [discriminate|].
  cbn [parse_string].
  destruct (c =? 34)%N.
  { intros [= <- <-]. subst n. simpl. lia. }
  destruct (c =? 92)%N.
  - destruct r as [|e r1]; [discriminate|].
    destruct (e =? 117)%N.
    + destruct r1 as [|h1 [|h2 [|h3 [|h4 r2]]]]; try discriminate.
      destruct (hex4 h1 h2 h3 h4); [|discriminate].
      destruct (parse_string r2) as [[str' rest']|] eqn:E; [|discriminate].
      intros [= <- <-].
      apply (IH (length r2)) in E; [|subst n; simpl; lia|reflexivity].
      subst n. simpl. lia.
    + destruct (unescape e); [|discriminate].
      destruct (parse_string r1) as [[str' rest']|] eqn:E; [|discriminate].
      intros [= <- <-].
      apply (IH (length r1)) in E; [|subst n; simpl; lia|reflexivity].
      subst n. simpl. lia.
  - destruct (c <? 32)%N; [discriminate|].
    destruct (parse_string r) as [[str' rest']|] eqn:E; [|discriminate].
    intros [= <- <-].
    apply (IH (length r)) in E; [|subst n; simpl; lia|reflexivity].
    subst n. simpl. lia.
Qed.

Lemma parse_number_shorter s d rest :
  parse_number s = Some (d, rest) -> length rest < length s.
Proof.
  unfold parse_number.
  set (sign := match s with
               | c :: r => if (c =? 45)%N then (true, r) else (false, s)
               | [] => (false, s)
               end).
  assert (Hsign : length (snd sign) <= length s).
  { subst sign. destruct s as [|c r]; [simpl; lia|].
    destruct (c =? 45)%N; simpl; lia. }
  destruct sign as [neg s1]. cbn [snd] in Hsign.
  set (int_part := match s1 with
                   | c :: r =>
                       if (c =? 48)%N then Some ([c], r)
                       else if is_digit c then Some (span is_digit s1)
                       else None
                   | [] => None
                   end).
  assert (Hint : forall ints s2, int_part = Some (ints, s2) ->
                                 length s2 < length s1).
  { subst int_part. intros ints s2. destruct s1 as [|c r]; [discriminate|].
    destruct (c =? 48)%N; [intros [= <- <-]; simpl; lia|].
    destruct (is_digit c) eqn:Hc; [|discriminate].
    rewrite (span_cons_true _ _ _ Hc). intros [= <- <-].
    pose proof (span_length is_digit r). simpl. lia. }
  destruct int_part as [[ints s2]|]; [|discriminate].
  specialize (Hint ints s2 eq_refl).
  set (frac_part := match s2 with
                    | c :: r =>
                        if (c =? 46)%N then
                          match span is_digit r with
                          | ([], _) => None
                          | (fs, s3) => Some (fs, s3)
                          end
                        else Some ([], s2)
                    | [] => Some ([], s2)
                    end).
  assert (Hfrac : forall fracs s3, frac_part = Some (fracs, s3) ->
                                   length s3 <= length s2).
  { subst frac_part. intros fracs s3. destruct s2 as [|c r].
    - intros [= <- <-]. lia.
    - destruct (c =? 46)%N; [|intros [= <- <-]; lia].
      pose proof (span_length is_digit r) as Hl.
      destruct (span is_digit r) as [fs s3']. cbn [snd] in Hl.
      destruct fs; [discriminate|]. intros [= <- <-]. simpl. lia. }
  destruct frac_part as [[fracs s3]|]; [|discriminate].
  specialize (Hfrac fracs s3 eq_refl).
  set (exp_part := match s3 with
                   | c :: r =>
                       if (c =? 101)%N || (c =? 69)%N then
                         let '(eneg, r1) :=
                           match r with
                           | sg :: r' =>
                               if (sg =? 45)%N then (true, r')
                               else if (sg =? 43)%N then (false, r')
                               else (false, r)
                           | [] => (false, r)
                           end in
                         match span is_digit r1 with
                         | ([], _) => None
                         | (es, s4) =>
                             let e := Z.of_N (digits_value es) in
                             Some ((if eneg then - e else e)%Z, s4)
                         end
                       else Some (0%Z, s3)
                   | [] => Some (0%Z, s3)
                   end).
  assert (Hexp : forall e s4, exp_part = Some (e, s4) ->
                              length s4 <= length s3).
  { subst exp_part. intros e s4. destruct s3 as [|c r].
    - intros [= <- <-]. lia.
    - destruct ((c =? 101)%N || (c =? 69)%N); [|intros [= <- <-]; lia].
      set (sg := match r with
                 | sg :: r' =>
                     if (sg =? 45)%N then (true, r')
                     else if (sg =? 43)%N then (false, r')
                     else (false, r)
                 | [] => (false, r)
                 end).
      assert (Hsg : length (snd sg) <= length r).
      { subst sg. destruct r as [|x r']; [simpl; lia|].
        destruct (x =? 45)%N; [simpl; lia|].
        destruct (x =? 43)%N; simpl; lia. }
      destruct sg as [eneg r1]. cbn [snd] in Hsg.
      pose proof (span_length is_digit r1) as Hl.
      destruct (span is_digit r1) as [es s4']. cbn [snd] in Hl.
      destruct es; [discriminate|]. intros [= <- <-]. simpl. lia. }
  destruct exp_part as [[e s4]|]; [|discriminate].
  specialize (Hexp e s4 eq_refl).
  intros [= <- <-]. lia.
Qed.

Lemma parse_literal_shorter c r v rest :
  parse_literal (c :: r) = POk v rest -> length rest < length (c :: r).
Proof.
  unfold parse_literal.
  destruct (startsWith (js "true") (c :: r));
    [intros [= <- <-]; rewrite length_drop; simpl; lia|].
  destruct (startsWith (js "false") (c :: r));
    [intros [= <- <-]; rewrite length_drop; simpl; lia|].
  destruct (startsWith (js "null") (c :: r));
    [intros [= <- <-]; rewrite length_drop; simpl; lia|].
  discriminate.
Qed.

Lemma parse_literal_fuel s : parse_literal s <> POutOfFuel.
Proof.
  unfold parse_literal.
  destruct (startsWith (js "true") s); [discriminate|].
  destruct (startsWith (js "false") s); [discriminate|].
  destruct (startsWith (js "null") s); discriminate.
Qed.

Lemma within_fuel_error s : within_fuel PSyntaxError s.
Proof. split; [discriminate|]. intros v rest [=]. Qed.

Lemma within_fuel_ok v rest s :
  length rest < length s -> within_fuel (POk v rest) s.
Proof. intros H. split; [discriminate|]. now intros v' rest' [= <- <-]. Qed.

Lemma within_fuel_longer res s s' :
  length s <= length s' -> within_fuel res s -> within_fuel res s'.
Proof.
  intros Hl [H1 H2]. split; [exact H1|].
  intros v rest E. specialize (H2 v rest E). lia.
Qed.

Lemma parse_fuel fuel :
  (forall s, 2 * length s < fuel -> within_fuel (parse_value fuel s) s)
  /\ (forall s acc, 2 * length s + 1 < fuel ->
        within_fuel (parse_elements fuel s acc) s)
  /\ (forall s acc, 2 * length s + 1 < fuel ->
        within_fuel (parse_members fuel s acc) s).
Proof.
  induction fuel as [|f (IHv & IHe & IHm)];
    [repeat split; intros; lia|].
  split; [|split].
  - intros s Hs. cbn [parse_value].
    pose proof (skip_ws_length s) as Hws.
    destruct (skip_ws s) as [|c r]; [apply within_fuel_error|].
    apply (within_fuel_longer _ (c :: r)); [exact Hws|].
    cbn [length] in Hws.
    destruct (c =? 123)%N.
    { pose proof (skip_ws_length r) as Hws'.
      destruct (skip_ws r) as [|c' r']; [apply within_fuel_error|].
      cbn [length] in Hws'.
      destruct (c' =? 125)%N; [apply within_fuel_ok; simpl; lia|].
      apply (within_fuel_longer _ (c' :: r')); [simpl; lia|].
      apply IHm. simpl. lia. }
    destruct (c =? 91)%N.
    { pose proof (skip_ws_length r) as Hws'.
      destruct (skip_ws r) as [|c' r']; [apply within_fuel_error|].
      cbn [length] in Hws'.
      destruct (c' =? 93)%N; [apply within_fuel_ok; simpl; lia|].
      apply (within_fuel_longer _ (c' :: r')); [simpl; lia|].
      apply IHe. simpl. lia. }
    destruct (c =? 34)%N.
    { destruct (parse_string r) as [[str rest]|] eqn:E;
        [|apply within_fuel_error].
      apply parse_string_shorter in E.
      apply within_fuel_ok. simpl. lia. }
    destruct ((c =? 45)%N || is_digit c).
    { destruct (parse_number (c :: r)) as [[d rest]|] eqn:E;
        [|apply within_fuel_error].
      apply parse_number_shorter in E. now apply within_fuel_ok. }
    split; [apply parse_literal_fuel|].
    intros v rest. apply parse_literal_shorter.
  - intros s acc Hs. cbn [parse_elements].
    destruct (IHv s) as [Hv1 Hv2]; [lia|].
    destruct (parse_value f s) as [v rest| |]; [|apply within_fuel_error|
      now contradiction Hv1].
    specialize (Hv2 v rest eq_refl).
    pose proof (skip_ws_length rest) as Hws.
    destruct (skip_ws rest) as [|c r]; [apply within_fuel_error|].
    cbn [length] in Hws.
    destruct (c =? 44)%N.
    { apply (within_fuel_longer _ r); [lia|]. apply IHe. lia. }
    destruct (c =? 93)%N; [apply within_fuel_ok; lia|apply within_fuel_error].
  - intros s acc Hs. cbn [parse_members].
    pose proof (skip_ws_length s) as Hws.
    destruct (skip_ws s) as [|q r0]; [apply within_fuel_error|].
    cbn [length] in Hws.
    destruct (q =? 34)%N; [|apply within_fuel_error].
    destruct (parse_string r0) as [[key r1]|] eqn:E;
      [|apply within_fuel_error].
    apply parse_string_shorter in E.
    pose proof (skip_ws_length r1) as Hws1.
    destruct (skip_ws r1) as [|colon r2]; [apply within_fuel_error|].
    cbn [length] in Hws1.
    destruct (colon =? 58)%N; [|apply within_fuel_error].
    destruct (IHv r2) as [Hv1 Hv2]; [lia|].
    destruct (parse_value f r2) as [v rest| |]; [|apply within_fuel_error|
      now contradiction Hv1].
    specialize (Hv2 v rest eq_refl).
    pose proof (skip_ws_length rest) as Hws2.
    destruct (skip_ws rest) as [|c r]; [apply within_fuel_error|].
    cbn [length] in Hws2.
    destruct (c =? 44)%N.
    { apply (within_fuel_longer _ r); [lia|]. apply IHm. lia. }
    destruct (c =? 125)%N; [apply within_fuel_ok; lia|apply within_fuel_error].
Qed.

(** [parse_text] never runs out of fuel: a [SyntaxError] of [JSON_parse] is
    a syntax error of the text. *)
Lemma parse_text_fuel s : parse_text s <> POutOfFuel.
Proof.
  unfold parse_text.
  destruct (proj1 (parse_fuel (enough_fuel s)) s) as [H _];
    [unfold enough_fuel; lia|].
  destruct (parse_value (enough_fuel s) s) as [v rest| |];
    [|discriminate|contradiction].
  destruct (skip_ws rest); discriminate.
Qed.

(** ** The cleanup passes *)

(** *** The two passes that change nothing *)

Lemma m_currency_self t repl n :
  m_currency t = Some (repl, n) -> 0 < n /\ repl = take n t.
Proof.
  unfold m_currency. destruct t as [|c r]; [discriminate|].
  destruct (N.eqb_spec c 36) as [->|]; [|discriminate].
  destruct (span is_digit r) as [ds r1] eqn:E1.
  destruct ds as [|d ds]; [discriminate|].
  apply span_eq in E1.
  assert (Hsplit : exists dot r2, r1 = dot ++ r2
            /\ (let '(dot', r2') :=
                  match r1 with
                  | d0 :: r' => if (d0 =? 46)%N then ([d0], r') else ([], r1)
                  | [] => ([], r1)
                  end in (dot', r2')) = (dot, r2)).
  { destruct r1 as [|d0 r']; [now exists [], []|].
    destruct (d0 =? 46)%N; [now exists [d0], r'|now exists [], (d0 :: r')]. }
  destruct Hsplit as (dot & r2 & Hr1 & Hlet).
  destruct (match r1 with
            | d0 :: r' => if (d0 =? 46)%N then ([d0], r') else ([], r1)
            | [] => ([], r1)
            end) as [dot' r2'].
  injection Hlet as -> ->.
  pose proof (span_app is_digit r2) as Hr2.
  set (g := fst (span is_digit r2)) in *.
  set (tl := snd (span is_digit r2)) in *. clearbody g tl.
  intros [= <- <-]. split; [lia|].
  cbn [take]. f_equal.
  assert (Hr : r = ((d :: ds) ++ dot ++ g) ++ tl).
  { rewrite E1, Hr1, <- Hr2. now rewrite <- !app_assoc. }
  etransitivity;
    [symmetry; apply (take_app_length ((d :: ds) ++ dot ++ g) tl)|].
  now rewrite <- Hr.
Qed.

Lemma m_decimal_self t repl n :
  m_decimal t = Some (repl, n) -> 0 < n /\ repl = take n t.
Proof.
  unfold m_decimal.
  destruct (span is_digit t) as [ds r1] eqn:E1.
  destruct ds as [|d0 ds]; [discriminate|].
  destruct r1 as [|d r]; [discriminate|].
  destruct (N.eqb_spec d 46) as [->|]; [|discriminate].
  destruct (span is_digit r) as [fs r2] eqn:E2.
  destruct fs as [|f fs]; [discriminate|].
  apply span_eq in E1. apply span_eq in E2.
  intros [= <- <-]. split; [simpl; lia|].
  rewrite E1, E2.
  replace ((d0 :: ds) ++ 46%N :: (f :: fs) ++ r2)
    with (((d0 :: ds) ++ 46%N :: f :: fs) ++ r2)
    by (now rewrite <- app_assoc).
  rewrite take_app_length'; [reflexivity|].
  rewrite length_app. simpl. lia.
Qed.

Lemma always_self_replacing (m : Matcher) :
  (forall t repl n, m t = Some (repl, n) -> 0 < n /\ repl = take n t) ->
  forall s, replace_all m 0 s = s.
Proof.
  intros H s. apply replace_all_self. intros k repl n _ Hm. now apply H.
Qed.

Lemma currency_pass s : replace_all m_currency 0 s = s.
Proof. apply always_self_replacing, m_currency_self. Qed.

Lemma decimal_pass s : replace_all m_decimal 0 s = s.
Proof. apply always_self_replacing, m_decimal_self. Qed.

(** *** The two passes that insert a blank *)

Lemma insert_space_head P Q a r :
  P a = false -> insert_space P Q (a :: r) = a :: insert_space P Q r.
Proof. intros H. destruct r; simpl; [reflexivity|now rewrite H]. Qed.

Lemma insert_space_next P Q a b r :
  Q b = false ->
  insert_space P Q (a :: b :: r) = a :: insert_space P Q (b :: r).
Proof. intros H. cbn [insert_space]. now rewrite H, andb_false_r. Qed.

Lemma insert_space_here P Q a b r :
  P a = true -> Q b = true ->
  insert_space P Q (a :: b :: r) = a :: 32%N :: insert_space P Q (b :: r).
Proof. intros Ha Hb. destruct r; simpl; now rewrite Ha, Hb. Qed.

Lemma insert_space_run ds l rest :
  ds <> [] ->
  Forall (fun c => is_digit c = true) ds ->
  is_letter l = true ->
  insert_space is_digit is_letter (ds ++ l :: rest)
  = ds ++ 32%N :: l :: insert_space is_digit is_letter rest.
Proof.
  intros Hne Hds Hl. induction ds as [|d ds IH]; [contradiction|].
  inversion Hds as [|? ? Hd Hds']; subst.
  destruct ds as [|d2 ds].
  - cbn [app]. rewrite (insert_space_here _ _ _ _ _ Hd Hl).
    rewrite insert_space_head by now apply letter_not_digit.
    reflexivity.
  - change ((d :: d2 :: ds) ++ l :: rest) with (d :: d2 :: (ds ++ l :: rest)).
    rewrite insert_space_next.
    2:{ inversion Hds'; subst. now apply digit_not_letter. }
    change (d2 :: ds ++ l :: rest) with ((d2 :: ds) ++ l :: rest).
    rewrite IH; [reflexivity|discriminate|exact Hds'].
Qed.

Lemma digit_letter_pass s :
  replace_all m_digit_letter 0 s = insert_space is_digit is_letter s.
Proof.
  remember (length s) as n eqn:Hn.
  revert s Hn. induction n as [n IH] using lt_wf_ind. intros s Hn.
  destruct s as [|c r]; [reflexivity|].
  rewrite replace_all_cons. unfold m_digit_letter.
  destruct (is_digit c) eqn:Hc.
  - rewrite (span_cons_true _ _ _ Hc).
    pose proof (span_app is_digit r) as Happ.
    pose proof (span_prefix is_digit r) as Hpre.
    pose proof (span_rest is_digit r) as Hrest.
    destruct (span is_digit r) as [ds rest]. cbn [fst snd] in *.
    assert (Hfail : c :: replace_all m_digit_letter 0 r
                    = insert_space is_digit is_letter (c :: r)
                    \/ exists l rest', rest = l :: rest' /\ is_letter l = true).
    { destruct rest as [|l rest'].
      - left. rewrite (IH (length r)); [|subst n; simpl; lia|reflexivity].
        subst r. rewrite app_nil_r.
        destruct ds as [|d ds]; [reflexivity|].
        inversion Hpre; subst.
        rewrite insert_space_next by now apply digit_not_letter.
        reflexivity.
      - destruct (is_letter l) eqn:Hl; [right; eauto|].
        left. rewrite (IH (length r)); [|subst n; simpl; lia|reflexivity].
        subst r. destruct ds as [|d ds].
        + cbn [app]. now rewrite insert_space_next.
        + inversion Hpre; subst.
          change ((d :: ds) ++ l :: rest') with (d :: (ds ++ l :: rest')).
          rewrite insert_space_next by now apply digit_not_letter.
          reflexivity. }
    destruct rest as [|l rest'].
    + destruct Hfail as [H|(l & rest' & [=] & _)]. exact H.
    + destruct (is_letter l) eqn:Hl.
      * cbn [Nat.pred]. subst r.
        replace (drop (length (c :: ds)) (ds ++ l :: rest')) with rest'.
        2:{ cbn [length].
            replace (ds ++ l :: rest') with ((ds ++ [l]) ++ rest')
              by now rewrite <- app_assoc.
            rewrite drop_app_length'; [reflexivity|].
            rewrite length_app. simpl. lia. }
        rewrite (IH (length rest')); [| |reflexivity].
        2:{ subst n. cbn [length]. rewrite length_app. simpl. lia. }
        change (c :: ds ++ l :: rest') with ((c :: ds) ++ l :: rest').
        rewrite insert_space_run; [|discriminate|now constructor|exact Hl].
        now rewrite <- app_assoc.
      * destruct Hfail as [H|(l' & rest'' & [= <- <-] & Hl')]; [exact H|].
        congruence.
  - rewrite (span_cons_false _ _ _ Hc).
    rewrite insert_space_head by exact Hc.
    f_equal. apply (IH (length r)); [subst n; simpl; lia|reflexivity].
Qed.

Lemma sentence_pass s :
  replace_all m_sentence 0 s = insert_space is_sentence_end is_upper s.
Proof.
  remember (length s) as n eqn:Hn.
  revert s Hn. induction n as [n IH] using lt_wf_ind. intros s Hn.
  destruct s as [|c r]; [reflexivity|].
  rewrite replace_all_cons. unfold m_sentence.
  destruct r as [|u r'].
  - reflexivity.
  - destruct (is_sentence_end c && is_upper u) eqn:E.
    + apply andb_true_iff in E as [Hc Hu].
      cbn [Nat.pred drop app].
      rewrite (IH (length r')); [| |reflexivity].
      2:{ subst n. simpl. lia. }
      rewrite (insert_space_here _ _ _ _ _ Hc Hu).
      rewrite insert_space_head by now apply upper_not_sentence_end.
      reflexivity.
    + rewrite (IH (length (u :: r'))); [|subst n; simpl; lia|reflexivity].
      apply andb_false_iff in E as [Hc|Hu].
      * now rewrite (insert_space_head _ _ c) by exact Hc.
      * now rewrite (insert_space_next _ _ c) by exact Hu.
Qed.

(** *** The pass that collapses white space *)

Lemma collapse_spaces_drop a b r :
  is_space a = true -> is_space b = true ->
  collapse_spaces (a :: b :: r) = collapse_spaces (b :: r).
Proof. intros Ha Hb. simpl. now rewrite Ha, Hb. Qed.

Lemma collapse_spaces_last a r :
  is_space a = true ->
  match r with
  | b :: _ => is_space b = false
  | [] => True
  end ->
  collapse_spaces (a :: r) = 32%N :: collapse_spaces r.
Proof.
  intros Ha Hr. destruct r as [|b r']; simpl; rewrite Ha; [reflexivity|].
  now rewrite Hr.
Qed.

Lemma collapse_spaces_keep a r :
  is_space a = false -> collapse_spaces (a :: r) = a :: collapse_spaces r.
Proof. intros Ha. simpl. now rewrite Ha. Qed.

Lemma collapse_spaces_run c ws rest :
  is_space c = true ->
  Forall (fun x => is_space x = true) ws ->
  match rest with
  | b :: _ => is_space b = false
  | [] => True
  end ->
  collapse_spaces (c :: ws ++ rest) = 32%N :: collapse_spaces rest.
Proof.
  intros Hc Hws Hrest. revert c Hc.
  induction ws as [|w ws IH]; intros c Hc.
  - cbn [app]. now apply collapse_spaces_last.
  - inversion Hws as [|? ? Hw Hws']; subst.
    change (c :: (w :: ws) ++ rest) with (c :: w :: (ws ++ rest)).
    rewrite (collapse_spaces_drop _ _ _ Hc Hw).
    apply (IH Hws' w Hw).
Qed.

Lemma spaces_pass s : replace_all m_spaces 0 s = collapse_spaces s.
Proof.
  remember (length s) as n eqn:Hn.
  revert s Hn. induction n as [n IH] using lt_wf_ind. intros s Hn.
  destruct s as [|c r]; [reflexivity|].
  rewrite replace_all_cons. unfold m_spaces.
  destruct (is_space c) eqn:Hc.
  - rewrite (span_cons_true _ _ _ Hc).
    pose proof (span_app is_space r) as Happ.
    pose proof (span_prefix is_space r) as Hpre.
    pose proof (span_rest is_space r) as Hrest.
    destruct (span is_space r) as [ws rest]. cbn [fst snd] in *.
    cbn [length Nat.pred app]. subst r.
    rewrite drop_app_length.
    rewrite (IH (length rest)); [| |reflexivity].
    2:{ subst n. cbn [length]. rewrite length_app. lia. }
    symmetry. now apply collapse_spaces_run.
  - rewrite (span_cons_false _ _ _ Hc).
    rewrite (collapse_spaces_keep _ _ Hc). f_equal.
    apply (IH (length r)); [subst n; simpl; lia|reflexivity].
Qed.

(** *** The pass that closes the gap before a percent sign *)

Lemma spaces_then_percent_span l :
  spaces_then_percent l = true ->
  exists rest, snd (span is_space l) = 37%N :: rest.
Proof.
  induction l as [|c r IH]; [discriminate|].
  cbn [spaces_then_percent].
  destruct (N.eqb_spec c 37) as [->|Hne].
  - intros _. exists r. reflexivity.
  - destruct (is_space c) eqn:Hc; [|discriminate].
    intros H. destruct (IH H) as [rest Hrest].
    exists rest. rewrite (span_cons_true _ _ _ Hc). exact Hrest.
Qed.

Lemma spaces_then_percent_app ws rest :
  Forall (fun x => is_space x = true) ws ->
  spaces_then_percent (ws ++ 37%N :: rest) = true.
Proof.
  induction 1 as [|w ws Hw _ IH]; [reflexivity|].
  cbn [app spaces_then_percent].
  now rewrite (space_not_percent _ Hw), Hw.
Qed.

Lemma close_gaps_keep b c r :
  is_space c = false ->
  close_gaps b (c :: r) = c :: close_gaps (is_digit c) r.
Proof. intros H. cbn [close_gaps]. now rewrite H. Qed.

Lemma close_gaps_flag r :
  match r with
  | c :: r' => is_space c && spaces_then_percent r'
  | [] => false
  end = false ->
  close_gaps true r = close_gaps false r.
Proof.
  destruct r as [|c r']; [reflexivity|]. intros H.
  cbn [close_gaps]. rewrite andb_true_r, H, andb_false_r. reflexivity.
Qed.

Lemma close_gaps_number b num tail :
  number_like num ->
  close_gaps b (num ++ tail) = num ++ close_gaps true tail.
Proof.
  intros [Hall (front & d & -> & Hd)]. revert b.
  induction front as [|f front IH]; intros b.
  - cbn [app]. inversion Hall; subst.
    rewrite close_gaps_keep by assumption. now rewrite Hd.
  - inversion Hall; subst.
    change (((f :: front) ++ [d]) ++ tail)
      with (f :: ((front ++ [d]) ++ tail)).
    rewrite close_gaps_keep by assumption.
    rewrite IH by assumption. reflexivity.
Qed.

Lemma close_gaps_gap ws rest :
  Forall (fun x => is_space x = true) ws ->
  close_gaps true (ws ++ 37%N :: rest) = 37%N :: close_gaps false rest.
Proof.
  induction 1 as [|w ws Hw Hws IH].
  - cbn [app]. rewrite close_gaps_keep by reflexivity. reflexivity.
  - cbn [app close_gaps].
    rewrite Hw, (spaces_then_percent_app _ _ Hws). cbn [andb]. exact IH.
Qed.

Lemma percent_tail_some num rest repl n :
  percent_tail num rest = Some (repl, n) ->
  exists ws rest',
    rest = ws ++ 37%N :: rest'
    /\ Forall (fun x => is_space x = true) ws
    /\ repl = num ++ [37%N]
    /\ n = length num + length ws + 1.
Proof.
  unfold percent_tail.
  pose proof (span_app is_space rest) as Happ.
  pose proof (span_prefix is_space rest) as Hpre.
  destruct (span is_space rest) as [ws r]. cbn [fst snd] in *.
  destruct r as [|p r']; [discriminate|].
  destruct (N.eqb_spec p 37) as [->|]; [|discriminate].
  intros [= <- <-]. exists ws, r'. repeat split; auto.
Qed.

Lemma number_like_digits d ds :
  Forall (fun c => is_digit c = true) (d :: ds) -> number_like (d :: ds).
Proof.
  intros H. split.
  - eapply Forall_impl; [exact H|]. intros c Hc. now apply digit_not_space.
  - destruct (exists_last (l := d :: ds)) as (front & x & E); [discriminate|].
    exists front, x. split; [exact E|].
    rewrite E in H. apply Forall_app in H as [_ Hx]. now inversion Hx.
Qed.

Lemma number_like_fraction ds f fs :
  Forall (fun c => is_digit c = true) ds ->
  Forall (fun c => is_digit c = true) (f :: fs) ->
  number_like (ds ++ 46%N :: f :: fs).
Proof.
  intros Hds Hfs. split.
  - apply Forall_app. split; [|constructor; [reflexivity|]].
    + eapply Forall_impl; [exact Hds|]. intros c Hc. now apply digit_not_space.
    + eapply Forall_impl; [exact Hfs|]. intros c Hc. now apply digit_not_space.
  - destruct (number_like_digits f fs Hfs) as [_ (front & x & E & Hx)].
    exists (ds ++ 46%N :: front), x. split; [|exact Hx].
    rewrite E. now rewrite <- app_assoc.
Qed.

Lemma m_percent_some s repl n :
  m_percent s = Some (repl, n) ->
  exists num ws rest,
    s = num ++ ws ++ 37%N :: rest
    /\ number_like num
    /\ Forall (fun x => is_space x = true) ws
    /\ repl = num ++ [37%N]
    /\ n = length num + length ws + 1.
Proof.
  unfold m_percent.
  pose proof (span_app is_digit s) as Happ.
  pose proof (span_prefix is_digit s) as Hpre.
  destruct (span is_digit s) as [ds r1]. cbn [fst snd] in *.
  destruct ds as [|d ds]; [discriminate|].
  assert (Hplain : percent_tail (d :: ds) r1 = Some (repl, n) ->
    exists num ws rest,
      s = num ++ ws ++ 37%N :: rest /\ number_like num
      /\ Forall (fun x => is_space x = true) ws
      /\ repl = num ++ [37%N] /\ n = length num + length ws + 1).
  { intros H. apply percent_tail_some in H as (ws & rest' & -> & Hws & -> & ->).
    exists (d :: ds), ws, rest'. repeat split; auto.
    - eapply Forall_impl; [exact Hpre|]. intros c Hc. now apply digit_not_space.
    - apply (number_like_digits d ds Hpre). }
  destruct r1 as [|x r']; [exact Hplain|].
  destruct (N.eqb_spec x 46) as [->|]; [|exact Hplain].
  pose proof (span_app is_digit r') as Happ'.
  pose proof (span_prefix is_digit r') as Hpre'.
  destruct (span is_digit r') as [fs r2]. cbn [fst snd] in *.
  destruct fs as [|f fs]; [exact Hplain|].
  destruct (percent_tail ((d :: ds) ++ 46%N :: f :: fs) r2)
    as [[repl' n']|] eqn:Et; [|exact Hplain].
  intros [= <- <-].
  apply percent_tail_some in Et as (ws & rest' & -> & Hws & -> & ->).
  exists ((d :: ds) ++ 46%N :: f :: fs), ws, rest'.
  split; [|split; [|repeat split; auto]].
  - rewrite <- Happ, <- Happ'. now rewrite <- !app_assoc.
  - now apply number_like_fraction.
Qed.

Lemma m_percent_none c r :
  is_digit c = true ->
  m_percent (c :: r) = None ->
  match r with
  | b :: r' => is_space b && spaces_then_percent r'
  | [] => false
  end = false.
Proof.
  intros Hc Hnone. destruct r as [|b r']; [reflexivity|].
  destruct (is_space b) eqn:Hb; [|reflexivity].
  destruct (spaces_then_percent r') eqn:Hstp; [|reflexivity].
  exfalso. revert Hnone. unfold m_percent.
  rewrite (span_cons_true _ _ _ Hc).
  assert (Hbd : is_digit b = false).
  { destruct (is_digit b) eqn:E; [|reflexivity].
    apply digit_not_space in E. congruence. }
  rewrite (span_cons_false _ _ _ Hbd). cbn [fst snd].
  assert (Hb46 : (b =? 46)%N = false).
  { apply N.eqb_neq. intros ->. discriminate Hb. }
  rewrite Hb46. unfold percent_tail.
  rewrite (span_cons_true _ _ _ Hb).
  destruct (spaces_then_percent_span _ Hstp) as [rest Hrest].
  rewrite Hrest. discriminate.
Qed.

Lemma percent_pass s : replace_all m_percent 0 s = close_gaps false s.
Proof.
  remember (length s) as n eqn:Hn.
  revert s Hn. induction n as [n IH] using lt_wf_ind. intros s Hn.
  destruct s as [|c r]; [reflexivity|].
  rewrite replace_all_cons.
  destruct (m_percent (c :: r)) as [[repl k]|] eqn:Hm.
  - apply m_percent_some in Hm
      as (num & ws & rest & Hs & Hnum & Hws & -> & ->).
    assert (Hdrop : drop (Nat.pred (length num + length ws + 1)) r = rest).
    { replace (Nat.pred (length num + length ws + 1))
        with (length num + length ws) by lia.
      change (drop (length num + length ws) r)
        with (drop (S (length num + length ws)) (c :: r)).
      rewrite Hs.
      replace (num ++ ws ++ 37%N :: rest)
        with ((num ++ ws ++ [37%N]) ++ rest)
        by (now rewrite <- !app_assoc).
      apply drop_app_length'. rewrite !length_app. simpl. lia. }
    rewrite Hdrop, Hs.
    rewrite (IH (length rest)); [| |reflexivity].
    2:{ subst n. apply (f_equal length) in Hs. cbn [length] in Hs.
        rewrite !length_app in Hs. cbn [length] in Hs.
        destruct Hnum as [_ (front & d & -> & _)].
        rewrite length_app in Hs. cbn [length] in Hs |- *. lia. }
    rewrite (close_gaps_number _ _ _ Hnum), (close_gaps_gap _ _ Hws).
    now rewrite <- app_assoc.
  - rewrite (IH (length r)); [|subst n; simpl; lia|reflexivity].
    cbn [close_gaps]. rewrite andb_false_r. cbn [andb]. f_equal.
    destruct (is_digit c) eqn:Hc; [|reflexivity].
    symmetry. apply close_gaps_flag. now apply (m_percent_none c).
Qed.

(** *** The shapes of text the passes leave behind *)

Lemma no_adjacent_cons P Q a l :
  no_adjacent P Q (a :: l)
  = match l with
    | b :: _ => negb (P a && Q b)
    | [] => true
    end && no_adjacent P Q l.
Proof. reflexivity. Qed.

Lemma insert_space_first P Q a r :
  exists tail, insert_space P Q (a :: r) = a :: tail.
Proof.
  destruct r as [|b r']; [now exists []|].
  cbn [insert_space]. destruct (P a && Q b); eauto.
Qed.

Lemma insert_space_no_adjacent P Q l :
  P 32%N = false -> Q 32%N = false ->
  no_adjacent P Q (insert_space P Q l) = true.
Proof.
  intros HP HQ. induction l as [|a r IH]; [reflexivity|].
  destruct r as [|b r']; [reflexivity|].
  destruct (insert_space_first P Q b r') as [tail Htail].
  destruct (P a && Q b) eqn:E.
  - apply andb_true_iff in E as [Ha Hb].
    rewrite (insert_space_here _ _ _ _ _ Ha Hb), Htail in *.
    rewrite !no_adjacent_cons. rewrite HP, HQ, andb_false_r. cbn [negb andb].
    rewrite no_adjacent_cons in IH. exact IH.
  - assert (Hstep : insert_space P Q (a :: b :: r')
                    = a :: insert_space P Q (b :: r')).
    { cbn [insert_space]. now rewrite E. }
    rewrite Hstep, Htail in *.
    rewrite no_adjacent_cons, E. cbn [negb andb]. exact IH.
Qed.

Lemma insert_space_keeps_no_adjacent P Q P' Q' l :
  P' 32%N = false -> Q' 32%N = false ->
  no_adjacent P' Q' l = true ->
  no_adjacent P' Q' (insert_space P Q l) = true.
Proof.
  intros HP HQ. induction l as [|a r IH]; [reflexivity|].
  destruct r as [|b r']; [reflexivity|].
  rewrite no_adjacent_cons. intros H. apply andb_true_iff in H as [Hab Hr].
  specialize (IH Hr).
  destruct (insert_space_first P Q b r') as [tail Htail].
  destruct (P a && Q b) eqn:E.
  - apply andb_true_iff in E as [Ha Hb].
    rewrite (insert_space_here _ _ _ _ _ Ha Hb), Htail in *.
    rewrite !no_adjacent_cons. rewrite HP, HQ, andb_false_r. cbn [negb andb].
    rewrite no_adjacent_cons in IH. exact IH.
  - assert (Hstep : insert_space P Q (a :: b :: r')
                    = a :: insert_space P Q (b :: r')).
    { cbn [insert_space]. now rewrite E. }
    rewrite Hstep, Htail in *.
    rewrite no_adjacent_cons, Hab. exact IH.
Qed.

Lemma insert_space_fixed P Q l :
  no_adjacent P Q l = true -> insert_space P Q l = l.
Proof.
  induction l as [|a r IH]; [reflexivity|].
  destruct r as [|b r']; [reflexivity|].
  rewrite no_adjacent_cons. intros H. apply andb_true_iff in H as [Hab Hr].
  apply negb_true_iff in Hab.
  cbn [insert_space]. rewrite Hab. f_equal. exact (IH Hr).
Qed.

Lemma single_spaces_cons a l :
  single_spaces (a :: l)
  = (if is_space a then
       (a =? 32)%N && match l with
                      | b :: _ => negb (is_space b)
                      | [] => true
                      end
     else true) && single_spaces l.
Proof. reflexivity. Qed.

Lemma collapse_spaces_first a r :
  exists tail,
    collapse_spaces (a :: r) = (if is_space a then 32%N else a) :: tail.
Proof.
  revert a. induction r as [|b r IH]; intros a.
  - simpl. destruct (is_space a); eauto.
  - destruct (is_space a) eqn:Ha.
    + destruct (is_space b) eqn:Hb.
      * rewrite (collapse_spaces_drop _ _ _ Ha Hb).
        destruct (IH b) as [tail Htail]. rewrite Hb in Htail. eauto.
      * rewrite (collapse_spaces_last a (b :: r) Ha Hb). eauto.
    + rewrite (collapse_spaces_keep _ _ Ha). eauto.
Qed.

Lemma collapse_spaces_single l : single_spaces (collapse_spaces l) = true.
Proof.
  induction l as [|a r IH]; [reflexivity|].
  destruct (is_space a) eqn:Ha.
  - destruct r as [|b r'].
    + now rewrite (collapse_spaces_last a [] Ha I).
    + destruct (is_space b) eqn:Hb.
      * now rewrite (collapse_spaces_drop _ _ _ Ha Hb).
      * rewrite (collapse_spaces_last a (b :: r') Ha Hb).
        destruct (collapse_spaces_first b r') as [tail Htail].
        rewrite Hb in Htail. rewrite Htail in *.
        rewrite single_spaces_cons. cbn [is_space]. rewrite IH.
        change (is_space 32) with true. cbn iota.
        rewrite Hb. reflexivity.
  - rewrite (collapse_spaces_keep _ _ Ha), single_spaces_cons, Ha. exact IH.
Qed.

Lemma collapse_spaces_keeps_no_adjacent P Q l :
  P 32%N = false -> Q 32%N = false ->
  no_adjacent P Q l = true ->
  no_adjacent P Q (collapse_spaces l) = true.
Proof.
  intros HP HQ. induction l as [|a r IH]; [reflexivity|].
  rewrite no_adjacent_cons. intros H. apply andb_true_iff in H as [Hab Hr].
  specialize (IH Hr).
  destruct (is_space a) eqn:Ha.
  - destruct r as [|b r']; [now rewrite (collapse_spaces_last a [] Ha I)|].
    destruct (is_space b) eqn:Hb.
    + now rewrite (collapse_spaces_drop _ _ _ Ha Hb).
    + rewrite (collapse_spaces_last a (b :: r') Ha Hb).
      rewrite no_adjacent_cons, IH, HP.
      now destruct (collapse_spaces (b :: r')).
  - rewrite (collapse_spaces_keep _ _ Ha), no_adjacent_cons, IH.
    destruct r as [|b r']; [reflexivity|].
    destruct (collapse_spaces_first b r') as [tail ->].
    destruct (is_space b); [now rewrite HQ, andb_false_r|now rewrite Hab].
Qed.

Lemma collapse_spaces_fixed l :
  single_spaces l = true -> collapse_spaces l = l.
Proof.
  induction l as [|a r IH]; [reflexivity|].
  rewrite single_spaces_cons. intros H. apply andb_true_iff in H as [Ha Hr].
  specialize (IH Hr).
  destruct (is_space a) eqn:Hs.
  - apply andb_true_iff in Ha as [Ha Hb]. apply N.eqb_eq in Ha. subst a.
    rewrite collapse_spaces_last; [now rewrite IH|exact Hs|].
    destruct r as [|b r']; [exact I|]. now apply negb_true_iff.
  - rewrite (collapse_spaces_keep _ _ Hs). now rewrite IH.
Qed.

Lemma insert_space_keeps_single P Q l :
  (forall c, P c = true -> is_space c = false) ->
  (forall c, Q c = true -> is_space c = false) ->
  single_spaces l = true ->
  single_spaces (insert_space P Q l) = true.
Proof.
  intros HP HQ. induction l as [|a r IH]; [reflexivity|].
  destruct r as [|b r']; [trivial|].
  rewrite single_spaces_cons. intros H. apply andb_true_iff in H as [Ha Hr].
  specialize (IH Hr).
  destruct (insert_space_first P Q b r') as [tail Htail].
  destruct (P a && Q b) eqn:E.
  - apply andb_true_iff in E as [Hpa Hqb].
    rewrite (insert_space_here _ _ _ _ _ Hpa Hqb), Htail in *.
    rewrite (single_spaces_cons a), (single_spaces_cons 32), IH.
    rewrite (HP _ Hpa). change (is_space 32) with true.
    now rewrite (HQ _ Hqb).
  - assert (Hstep : insert_space P Q (a :: b :: r')
                    = a :: insert_space P Q (b :: r')).
    { cbn [insert_space]. now rewrite E. }
    rewrite Hstep, Htail in *.
    rewrite single_spaces_cons, IH, Ha. reflexivity.
Qed.

Lemma space_not_digit c : is_space c = true -> is_digit c = false.
Proof.
  intros H. destruct (is_digit c) eqn:E; [|reflexivity].
  apply digit_not_space in E. congruence.
Qed.

Lemma no_gap_cons st c r :
  no_gap st (c :: r)
  = if (c =? 37)%N && in_gap st then false else no_gap (gap_next st c) r.
Proof. reflexivity. Qed.

Lemma gap_next_space st a :
  is_space a = true ->
  gap_next st a = match st with
                  | Neutral => Neutral
                  | _ => InGap
                  end.
Proof.
  intros Ha. unfold gap_next. now rewrite (space_not_digit _ Ha), Ha.
Qed.

Lemma no_gap_space st a r :
  is_space a = true ->
  no_gap st (a :: r) = no_gap (gap_next st a) r.
Proof.
  intros Ha. rewrite no_gap_cons. now rewrite (space_not_percent _ Ha).
Qed.

(** What follows a character that is neither white space nor a percent
    sign does not depend on what came before it. *)
Lemma no_gap_fresh st st' c r :
  is_space c = false -> (c =? 37)%N = false ->
  no_gap st (c :: r) = no_gap st' (c :: r).
Proof.
  intros Hs Hp. rewrite !no_gap_cons, Hp. cbn [andb].
  unfold gap_next. now rewrite Hs.
Qed.

Lemma spaces_then_percent_gap r :
  spaces_then_percent r = true -> no_gap InGap r = false.
Proof.
  induction r as [|c r IH]; [discriminate|].
  cbn [spaces_then_percent]. rewrite no_gap_cons.
  destruct (c =? 37)%N; [reflexivity|].
  destruct (is_space c) eqn:Hc; [|discriminate].
  intros H. cbn [andb]. rewrite (gap_next_space _ _ Hc). now apply IH.
Qed.

Lemma close_gaps_no_gap st b l :
  match st with
  | Neutral => b = false
  | AfterDigit => b = true
  | InGap => b = false /\ spaces_then_percent l = false
  end ->
  no_gap st (close_gaps b l) = true.
Proof.
  revert st b. induction l as [|c r IH]; intros st b Hinv; [reflexivity|].
  cbn [close_gaps].
  destruct (is_space c && b && spaces_then_percent r) eqn:E.
  - apply andb_true_iff in E as [E Hstp]. apply andb_true_iff in E as [Hc ->].
    destruct st; try discriminate; [|now destruct Hinv].
    now apply IH.
  - rewrite no_gap_cons.
    destruct ((c =? 37)%N && in_gap st) eqn:Ep.
    + apply andb_true_iff in Ep as [Hp Hst]. destruct st; try discriminate.
      destruct Hinv as [_ Hinv]. cbn [spaces_then_percent] in Hinv.
      now rewrite Hp in Hinv.
    + apply IH. unfold gap_next.
      destruct (is_digit c) eqn:Hd; [reflexivity|].
      destruct (is_space c) eqn:Hc; [|reflexivity].
      destruct st.
      * reflexivity.
      * subst b. cbn [andb] in E. now split.
      * destruct Hinv as [-> Hinv]. split; [reflexivity|].
        cbn [spaces_then_percent] in Hinv.
        rewrite (space_not_percent _ Hc), Hc in Hinv. exact Hinv.
Qed.

Lemma close_gaps_fixed st b l :
  (b = true -> st <> Neutral) ->
  no_gap st l = true ->
  close_gaps b l = l.
Proof.
  revert st b. induction l as [|c r IH]; intros st b Hb; [reflexivity|].
  rewrite no_gap_cons.
  destruct ((c =? 37)%N && in_gap st); [discriminate|]. intros H.
  cbn [close_gaps].
  destruct (is_space c && b && spaces_then_percent r) eqn:E.
  - apply andb_true_iff in E as [E Hstp]. apply andb_true_iff in E as [Hc ->].
    rewrite (gap_next_space _ _ Hc) in H.
    destruct st; [now contradiction Hb| |];
      now rewrite (spaces_then_percent_gap _ Hstp) in H.
  - f_equal. apply (IH (gap_next st c)); [|exact H].
    intros Hd. unfold gap_next. now rewrite Hd.
Qed.

Lemma insert_space_keeps_no_gap P Q st l :
  (forall c, Q c = true -> is_space c = false /\ (c =? 37)%N = false) ->
  no_gap st l = true ->
  no_gap st (insert_space P Q l) = true.
Proof.
  intros HQ. revert st. induction l as [|a r IH]; intros st; [reflexivity|].
  destruct r as [|b r']; [trivial|].
  destruct (P a && Q b) eqn:E.
  - apply andb_true_iff in E as [Hpa Hqb].
    rewrite (insert_space_here _ _ _ _ _ Hpa Hqb).
    rewrite (no_gap_cons st a (b :: r')), (no_gap_cons st a).
    destruct ((a =? 37)%N && in_gap st); [trivial|].
    intros H. rewrite no_gap_space by reflexivity.
    apply IH.
    destruct (HQ _ Hqb) as [Hs Hp].
    now rewrite (no_gap_fresh _ (gap_next st a) b r' Hs Hp).
  - assert (Hstep : insert_space P Q (a :: b :: r')
                    = a :: insert_space P Q (b :: r')).
    { cbn [insert_space]. now rewrite E. }
    rewrite Hstep, (no_gap_cons st a (b :: r')), (no_gap_cons st a).
    destruct ((a =? 37)%N && in_gap st); [trivial|]. apply IH.
Qed.

Lemma collapse_spaces_keeps_no_gap st l :
  no_gap st l = true -> no_gap st (collapse_spaces l) = true.
Proof.
  revert st. induction l as [|a r IH]; intros st; [reflexivity|].
  destruct (is_space a) eqn:Ha.
  - rewrite (no_gap_space _ _ _ Ha).
    destruct r as [|b r'].
    + now rewrite (collapse_spaces_last a [] Ha I).
    + destruct (is_space b) eqn:Hb.
      * rewrite (collapse_spaces_drop _ _ _ Ha Hb). intros H. apply IH.
        rewrite (no_gap_space _ _ _ Hb) in H. rewrite (no_gap_space _ _ _ Hb).
        rewrite (gap_next_space (gap_next st a) _ Hb),
          (gap_next_space st _ Ha) in H.
        rewrite (gap_next_space st _ Hb).
        now destruct st.
      * rewrite (collapse_spaces_last a (b :: r') Ha Hb). intros H.
        rewrite no_gap_space by reflexivity. apply IH.
        rewrite (gap_next_space _ _ Ha) in H.
        now rewrite gap_next_space by reflexivity.
  - rewrite (collapse_spaces_keep _ _ Ha), !no_gap_cons.
    destruct ((a =? 37)%N && in_gap st); [trivial|]. apply IH.
Qed.

(** *** Zero-width characters *)

Lemma no_zero_width_cons c l :
  no_zero_width (c :: l) = negb (is_zero_width c) && no_zero_width l.
Proof. reflexivity. Qed.

Lemma close_gaps_keeps_zero_width b l :
  no_zero_width l = true -> no_zero_width (close_gaps b l) = true.
Proof.
  revert b. induction l as [|c r IH]; intros b; [reflexivity|].
  rewrite no_zero_width_cons. intros H. apply andb_true_iff in H as [Hc Hr].
  cbn [close_gaps].
  destruct (is_space c && b && spaces_then_percent r); [now apply IH|].
  rewrite no_zero_width_cons, Hc. now apply IH.
Qed.

Lemma insert_space_keeps_zero_width P Q l :
  no_zero_width l = true -> no_zero_width (insert_space P Q l) = true.
Proof.
  induction l as [|a r IH]; [reflexivity|].
  rewrite no_zero_width_cons. intros H. apply andb_true_iff in H as [Ha Hr].
  specialize (IH Hr).
  destruct r as [|b r']; [simpl; now rewrite Ha|].
  cbn [insert_space]. destruct (P a && Q b).
  - rewrite !no_zero_width_cons, Ha. exact IH.
  - rewrite no_zero_width_cons, Ha. exact IH.
Qed.

Lemma collapse_spaces_keeps_zero_width l :
  no_zero_width l = true -> no_zero_width (collapse_spaces l) = true.
Proof.
  induction l as [|a r IH]; [reflexivity|].
  rewrite no_zero_width_cons. intros H. apply andb_true_iff in H as [Ha Hr].
  specialize (IH Hr).
  destruct (is_space a) eqn:Hs.
  - destruct r as [|b r'].
    + now rewrite (collapse_spaces_last a [] Hs I).
    + destruct (is_space b) eqn:Hb.
      * now rewrite (collapse_spaces_drop _ _ _ Hs Hb).
      * rewrite (collapse_spaces_last a (b :: r') Hs Hb).
        now rewrite no_zero_width_cons, IH.
  - now rewrite (collapse_spaces_keep _ _ Hs), no_zero_width_cons, Ha, IH.
Qed.

Lemma replace_class_fixed p l :
  forallb (fun c => negb (p c)) l = true -> replace_class p 32 l = l.
Proof.
  unfold replace_class. induction l as [|c r IH]; [reflexivity|].
  cbn [forallb map]. intros H. apply andb_true_iff in H as [Hc Hr].
  apply negb_true_iff in Hc. rewrite Hc. now rewrite IH.
Qed.

Lemma normalize_no_zero_width l :
  no_zero_width
    (replace_class is_nbsp 32 (replace_class is_zero_width 32 l)) = true.
Proof.
  unfold replace_class, no_zero_width.
  induction l as [|c r IH]; [reflexivity|].
  cbn [map forallb]. rewrite IH, andb_true_r.
  destruct (is_zero_width c) eqn:Hz.
  - reflexivity.
  - destruct (is_nbsp c); [reflexivity|now rewrite Hz].
Qed.

Lemma single_spaces_no_nbsp l :
  single_spaces l = true -> forallb (fun c => negb (is_nbsp c)) l = true.
Proof.
  induction l as [|a r IH]; [reflexivity|].
  rewrite single_spaces_cons. intros H. apply andb_true_iff in H as [Ha Hr].
  cbn [forallb]. rewrite (IH Hr), andb_true_r.
  destruct (is_nbsp a) eqn:Hn; [|reflexivity].
  rewrite (nbsp_is_space _ Hn) in Ha.
  apply andb_true_iff in Ha as [Ha _]. apply N.eqb_eq in Ha. subst a.
  discriminate Hn.
Qed.

(** *** The cleanup as a whole *)

Lemma cleanCurrencyAndPercent_passes text :
  cleanCurrencyAndPercent text
  = insert_space is_sentence_end is_upper
      (collapse_spaces
         (insert_space is_digit is_letter (close_gaps false text))).
Proof.
  unfold cleanCurrencyAndPercent. destruct text as [|c r]; [reflexivity|].
  now rewrite currency_pass, percent_pass, digit_letter_pass, decimal_pass,
    spaces_pass, sentence_pass.
Qed.

Lemma normalizeStreamingText_maps text :
  normalizeStreamingText text
  = replace_class is_nbsp 32 (replace_class is_zero_width 32 text).
Proof. now destruct text. Qed.

Lemma letter_plain c :
  is_letter c = true -> is_space c = false /\ (c =? 37)%N = false.
Proof.
  intros H. split; [now apply letter_not_space|now apply letter_not_percent].
Qed.

Lemma upper_plain c :
  is_upper c = true -> is_space c = false /\ (c =? 37)%N = false.
Proof. intros H. now apply letter_plain, upper_is_letter. Qed.

Lemma cleanup_cleaned x : cleaned (cleanup x).
Proof.
  unfold cleanup.
  rewrite cleanCurrencyAndPercent_passes, normalizeStreamingText_maps.
  set (z0 := replace_class is_nbsp 32 (replace_class is_zero_width 32 x)).
  set (z1 := close_gaps false z0).
  set (z2 := insert_space is_digit is_letter z1).
  set (z3 := collapse_spaces z2).
  assert (G1 : no_gap Neutral z1 = true) by now apply close_gaps_no_gap.
  assert (G2 : no_gap Neutral z2 = true)
    by (apply insert_space_keeps_no_gap; [exact letter_plain|exact G1]).
  assert (G3 : no_gap Neutral z3 = true)
    by now apply collapse_spaces_keeps_no_gap.
  assert (A2 : no_adjacent is_digit is_letter z2 = true)
    by now apply insert_space_no_adjacent.
  assert (A3 : no_adjacent is_digit is_letter z3 = true)
    by now apply collapse_spaces_keeps_no_adjacent.
  assert (Z0 : no_zero_width z0 = true) by apply normalize_no_zero_width.
  assert (Z3 : no_zero_width z3 = true).
  { apply collapse_spaces_keeps_zero_width, insert_space_keeps_zero_width.
    now apply close_gaps_keeps_zero_width. }
  repeat split.
  - now apply insert_space_keeps_no_adjacent.
  - now apply insert_space_no_adjacent.
  - apply insert_space_keeps_single.
    + exact sentence_end_not_space.
    + intros c Hc. now apply letter_not_space, upper_is_letter.
    + apply collapse_spaces_single.
  - apply insert_space_keeps_no_gap; [exact upper_plain|exact G3].
  - now apply insert_space_keeps_zero_width.
Qed.

Lemma cleaned_fixed y : cleaned y -> cleanup y = y.
Proof.
  intros (HA & HB & HS & HG & HZ). unfold cleanup.
  rewrite cleanCurrencyAndPercent_passes, normalizeStreamingText_maps.
  rewrite (replace_class_fixed is_zero_width y) by exact HZ.
  rewrite (replace_class_fixed is_nbsp y) by now apply single_spaces_no_nbsp.
  rewrite (close_gaps_fixed Neutral false y); [|discriminate|exact HG].
  rewrite (insert_space_fixed _ _ y HA).
  rewrite (collapse_spaces_fixed y HS).
  apply (insert_space_fixed _ _ y HB).
Qed.

Lemma cleanup_twice x : cleanup (cleanup x) = cleanup x.
Proof. apply cleaned_fixed, cleanup_cleaned. Qed.

Lemma cleanup_tier x : tier x = CleanupTier -> formatResponse x = cleanup x.
Proof.
  unfold tier, formatResponse.
  destruct (try_structured x) as [[text|]|e]; try discriminate; trivial.
  destruct (manual_extraction x); [discriminate|trivial].
Qed.

(** C7, as stated, fails on the example of the specification itself: the
    rendering of the structured object is not valid JSON and has none of the
    field patterns, so a second pass cleans it as raw text and turns its line
    breaks into blanks. A text that is first cleaned as raw text can in turn
    be rendered on the second pass. *)
Lemma formatResponse_not_idempotent :
  formatResponse structured_example
  = js "## S" ++ nl ++ nl ++ js "D" ++ nl ++ nl ++ js "### Key Points"
      ++ nl ++ nl ++ js "- A" ++ nl ++ js "- B"
  /\ formatResponse (formatResponse structured_example)
     = js "## S D ### Key Points - A - B"
  /\ formatResponse (formatResponse structured_example)
     <> formatResponse structured_example
  /\ formatResponse (jsq "{'summary':'S','details':'D','status':0E1}")
     = jsq "{'summary':'S','details':'D','status':0 E1}"
  /\ formatResponse
       (formatResponse (jsq "{'summary':'S','details':'D','status':0E1}"))
     = js "## S" ++ nl ++ nl ++ js "D".
Proof. vm_compute. repeat split; discriminate. Qed.

(** C7, amended: the cleanup pipeline, [normalizeStreamingText] followed by
    [cleanCurrencyAndPercent], is idempotent on every text; so
    [formatResponse] applied twice equals [formatResponse] applied once on
    every raw text for which both applications end in the cleanup of the raw
    text (neither renders a parsed object or extracted fields). *)
Theorem cleanup_idempotent :
  (forall x, cleanup (cleanup x) = cleanup x)
  /\ (forall x,
        tier x = CleanupTier ->
        tier (formatResponse x) = CleanupTier ->
        formatResponse (formatResponse x) = formatResponse x).
Proof.
  split; [exact cleanup_twice|].
  intros x H1 H2.
  rewrite (cleanup_tier _ H2), (cleanup_tier _ H1). apply cleanup_twice.
Qed.

Lemma cleanup_idempotent_witness :
  formatResponse (formatResponse (js "Total: 5  %of 12kg.Then 3.5 % ok"))
  = formatResponse (js "Total: 5  %of 12kg.Then 3.5 % ok")
  /\ formatResponse (js "Hello   world") = js "Hello world".
Proof.
  split.
  - apply (proj2 cleanup_idempotent); vm_compute; reflexivity.
  - vm_compute. reflexivity.
Defined.

(** ** The boundaries of the JSON object *)

Lemma drop_while_stop p l1 c l2 :
  p c = false ->
  drop_while p (l1 ++ c :: l2) = drop_while p l1 ++ c :: l2.
Proof.
  intros Hc. induction l1 as [|x l1 IH]; simpl; [now rewrite Hc|].
  destruct (p x); [exact IH|reflexivity].
Qed.

Lemma drop_while_Forall (P : N -> Prop) p l :
  Forall P l -> Forall P (drop_while p l).
Proof.
  induction 1 as [|x l Hx Hl IH]; simpl; [constructor|].
  destruct (p x); [exact IH|now constructor].
Qed.

Lemma trim_around before inner after :
  exists before' after',
    trim (before ++ (123%N :: inner ++ [125%N]) ++ after)
    = before' ++ (123%N :: inner ++ [125%N]) ++ after'
    /\ (Forall (fun c => c <> 123%N) before ->
        Forall (fun c => c <> 123%N) before')
    /\ (Forall (fun c => c <> 125%N) after ->
        Forall (fun c => c <> 125%N) after').
Proof.
  exists (drop_while is_space before), (rev (drop_while is_space (rev after))).
  split; [|split].
  - unfold trim, trimStart, trimEnd.
    change ((123%N :: inner ++ [125%N]) ++ after)
      with (123%N :: ((inner ++ [125%N]) ++ after)).
    rewrite drop_while_stop by reflexivity.
    set (b := drop_while is_space before).
    replace (b ++ 123%N :: (inner ++ [125%N]) ++ after)
      with ((b ++ 123%N :: inner) ++ 125%N :: after)
      by (rewrite <- !app_assoc; reflexivity).
    rewrite rev_app_distr. cbn [rev]. rewrite <- app_assoc. cbn [app].
    rewrite drop_while_stop by reflexivity.
    rewrite rev_app_distr. cbn [rev]. rewrite rev_involutive.
    rewrite <- !app_assoc. reflexivity.
  - apply drop_while_Forall.
  - intros H. apply Forall_rev, drop_while_Forall, Forall_rev. exact H.
Qed.

Lemma indexOf_from_first c l1 l2 i :
  Forall (fun x => x <> c) l1 ->
  indexOf_from c (l1 ++ c :: l2) i = (i + Z.of_nat (length l1))%Z.
Proof.
  intros H. revert i. induction H as [|x l1 Hx _ IH]; intros i; simpl.
  - rewrite N.eqb_refl. lia.
  - apply N.eqb_neq in Hx. rewrite Hx, IH. lia.
Qed.

Lemma lastIndexOf_from_none c l i found :
  Forall (fun x => x <> c) l -> lastIndexOf_from c l i found = found.
Proof.
  intros H. revert i found. induction H as [|x l Hx _ IH]; intros i found.
  - reflexivity.
  - simpl. apply N.eqb_neq in Hx. rewrite Hx. apply IH.
Qed.

Lemma lastIndexOf_from_last c l1 l2 i found :
  Forall (fun x => x <> c) l2 ->
  lastIndexOf_from c (l1 ++ c :: l2) i found = (i + Z.of_nat (length l1))%Z.
Proof.
  intros H. revert i found. induction l1 as [|x l1 IH]; intros i found.
  - simpl. rewrite N.eqb_refl, lastIndexOf_from_none by exact H. lia.
  - simpl. rewrite IH. lia.
Qed.

Lemma json_candidate_between before inner after :
  Forall (fun c => c <> 123%N) before ->
  Forall (fun c => c <> 125%N) after ->
  json_candidate (before ++ (123%N :: inner ++ [125%N]) ++ after)
  = 123%N :: inner ++ [125%N].
Proof.
  intros Hb Ha. unfold json_candidate.
  destruct (trim_around before inner after) as (b & a & -> & Hb' & Ha').
  specialize (Hb' Hb). specialize (Ha' Ha).
  assert (Hstart : indexOf 123 (b ++ (123%N :: inner ++ [125%N]) ++ a)
                   = Z.of_nat (length b)).
  { unfold indexOf.
    change ((123%N :: inner ++ [125%N]) ++ a)
      with (123%N :: ((inner ++ [125%N]) ++ a)).
    rewrite indexOf_from_first by exact Hb'. lia. }
  assert (Hend : lastIndexOf 125 (b ++ (123%N :: inner ++ [125%N]) ++ a)
                 = Z.of_nat (length b + length inner + 1)).
  { unfold lastIndexOf.
    replace (b ++ (123%N :: inner ++ [125%N]) ++ a)
      with ((b ++ 123%N :: inner) ++ 125%N :: a)
      by (rewrite <- !app_assoc; cbn [app]; now rewrite <- app_assoc).
    rewrite lastIndexOf_from_last by exact Ha'.
    rewrite length_app. cbn [length]. lia. }
  rewrite Hstart, Hend.
  replace (negb (Z.of_nat (length b) =? -1)%Z) with true
    by (symmetry; apply negb_true_iff, Z.eqb_neq; lia).
  replace (negb (Z.of_nat (length b + length inner + 1) =? -1)%Z) with true
    by (symmetry; apply negb_true_iff, Z.eqb_neq; lia).
  replace (Z.of_nat (length b) <? Z.of_nat (length b + length inner + 1))%Z
    with true by (symmetry; apply Z.ltb_lt; lia).
  cbn [andb]. unfold substring.
  rewrite !Z.max_r by lia.
  replace (Z.to_nat (Z.of_nat (length b))) with (length b) by lia.
  replace (Z.to_nat (Z.of_nat (length b + length inner + 1) + 1))
    with (length b + length (123%N :: inner ++ [125%N]))
    by (cbn [length]; rewrite length_app; cbn [length]; lia).
  rewrite Nat.min_l, Nat.max_r by lia.
  rewrite drop_app_length.
  replace (length b + length (123%N :: inner ++ [125%N]) - length b)
    with (length (123%N :: inner ++ [125%N])) by lia.
  apply take_app_length.
Qed.

Lemma json_candidate_alone inner :
  json_candidate (123%N :: inner ++ [125%N]) = 123%N :: inner ++ [125%N].
Proof.
  pose proof (json_candidate_between [] inner []
                (List.Forall_nil _) (List.Forall_nil _)) as H.
  cbn [app] in H. now rewrite app_nil_r in H.
Qed.

Lemma printable_cleanup_value v :
  printable v = true -> exists s, cleanup_value v = Normal s.
Proof.
  destruct v as [| |b|d|s|l|fs]; simpl; try discriminate; eauto.
  - destruct b; [discriminate|eauto].
  - rewrite negb_involutive. intros ->. eauto.
Qed.

Lemma printable_map_values items :
  forallb printable items = true ->
  exists points, map_values cleanup_value items = Normal points.
Proof.
  induction items as [|v items IH]; [now exists []|].
  cbn [forallb]. intros H. apply andb_true_iff in H as [Hv Hitems].
  destruct (printable_cleanup_value v Hv) as [s Hs].
  destruct (IH Hitems) as [points Hpoints].
  exists (s :: points). cbn [map_values]. now rewrite Hs, Hpoints.
Qed.

Lemma formatResponse_candidate x y :
  json_candidate x = json_candidate y ->
  (exists text, try_structured y = Normal (Some text)) ->
  formatResponse x = formatResponse y.
Proof.
  intros Hc [text Hy].
  assert (Hx : try_structured x = Normal (Some text)).
  { unfold try_structured in *. now rewrite Hc. }
  unfold formatResponse. now rewrite Hx, Hy.
Qed.

(** C10, as stated, fails: the object between the braces parses, its four
    fields are present and truthy, and yet the output is built from text that
    stands before the opening brace. [key_points] is a string here, which has
    no [map]; the exception sends [formatResponse] to its [catch] block, and
    that block searches the whole raw text. *)
Lemma text_before_brace_is_displayed :
  let body :=
    jsq "{'summary':'S','details':'D','key_points':'none','status':'ok'}" in
  let raw := jsq "'summary':'X' 'details':'Y' " ++ body in
  json_candidate raw = body
  /\ (exists parsed,
        JSON_parse body = Normal parsed
        /\ get_prop parsed (js "summary") = Normal (JsString (js "S"))
        /\ get_prop parsed (js "details") = Normal (JsString (js "D"))
        /\ get_prop parsed (js "key_points") = Normal (JsString (js "none"))
        /\ get_prop parsed (js "status") = Normal (JsString (js "ok")))
  /\ formatResponse raw = js "## X" ++ nl ++ nl ++ js "Y"
  /\ formatResponse body = js "## S" ++ nl ++ nl ++ js "D"
  /\ formatResponse raw <> formatResponse body.
Proof.
  split; [vm_compute; reflexivity|].
  split; [eexists; vm_compute; repeat split; reflexivity|].
  vm_compute. repeat split; discriminate.
Qed.

(** C10, amended: when the raw text has an opening brace and a later closing
    brace, the text from the first opening brace to the last closing brace
    parses as JSON, and in the parsed object [summary] and [details] are
    non-empty strings, [key_points] is an array whose items are strings or
    falsy values, and [status] is truthy, then the output is the rendering of
    that object: the text before the first opening brace and after the last
    closing brace has no influence on it. *)
Theorem structured_output_from_object
  (before inner after : jsstring) (parsed : JsValue)
  (summary details : jsstring) (items : list JsValue) (status : JsValue) :
  let body := 123%N :: inner ++ [125%N] in
  Forall (fun c => c <> 123%N) before ->
  Forall (fun c => c <> 125%N) after ->
  JSON_parse body = Normal parsed ->
  get_prop parsed (js "summary") = Normal (JsString summary) ->
  summary <> [] ->
  get_prop parsed (js "details") = Normal (JsString details) ->
  details <> [] ->
  get_prop parsed (js "key_points") = Normal (JsArray items) ->
  forallb printable items = true ->
  get_prop parsed (js "status") = Normal status ->
  truthy status = true ->
  formatResponse (before ++ body ++ after) = formatResponse body
  /\ exists points,
       map_values cleanup_value items = Normal points
       /\ formatResponse body
          = render (cleanup summary) (cleanup details) points.
Proof.
  intros body Hb Ha Hparse Hsum Hsne Hdet Hdne Hkp Hitems Hst Htruthy.
  destruct (printable_map_values items Hitems) as [points Hpoints].
  assert (Htry : try_structured body
                 = Normal (Some (render (cleanup summary) (cleanup details)
                                   points))).
  { unfold try_structured. subst body.
    rewrite json_candidate_alone, Hparse. cbn [mbind completion_bind].
    rewrite Hsum, Hdet, Hkp, Hst. cbn [mbind completion_bind].
    destruct summary as [|s0 summary']; [contradiction|].
    destruct details as [|d0 details']; [contradiction|].
    cbn [truthy andb]. rewrite Htruthy.
    cbn [cleanup_value cleanup_points mbind completion_bind].
    rewrite Hpoints. reflexivity. }
  split.
  - apply formatResponse_candidate; [|eauto].
    subst body. now rewrite json_candidate_between, json_candidate_alone.
  - exists points. split; [exact Hpoints|].
    unfold formatResponse. now rewrite Htry.
Qed.

Lemma structured_output_from_object_witness :
  formatResponse
    (js "Sure, here it is: " ++ structured_example ++ js " Anything else?")
  = formatResponse structured_example.
Proof.
  refine (proj1 (structured_output_from_object
    (js "Sure, here it is: ")
    (jsq "'summary':'S','details':'D','key_points':['A','B'],'status':'ok'")
    (js " Anything else?")
    (JsObject [(js "summary", JsString (js "S"));
               (js "details", JsString (js "D"));
               (js "key_points", JsArray [JsString (js "A"); JsString (js "B")]);
               (js "status", JsString (js "ok"))])
    (js "S") (js "D") [JsString (js "A"); JsString (js "B")]
    (JsString (js "ok")) _ _ _ _ _ _ _ _ _ _ _)).
  - vm_compute. repeat constructor; discriminate.
  - vm_compute. repeat constructor; discriminate.
  - vm_compute. reflexivity.
  - vm_compute. reflexivity.
  - discriminate.
  - vm_compute. reflexivity.
  - discriminate.
  - vm_compute. reflexivity.
  - reflexivity.
  - vm_compute. reflexivity.
  - reflexivity.
Defined.

(** ** Splitting and joining *)

Lemma split_on_nonempty sep s : split_on sep s <> [].
Proof.
  destruct s as [|c r]; simpl; [discriminate|].
  destruct (c =? sep)%N; [discriminate|].
  destruct (split_on sep r); discriminate.
Qed.

Lemma join_cons sep p q rest :
  join sep (p :: q :: rest) = p ++ sep ++ join sep (q :: rest).
Proof. reflexivity. Qed.

Lemma join_split_on sep s : join [sep] (split_on sep s) = s.
Proof.
  induction s as [|c r IH]; simpl; [reflexivity|].
  destruct (N.eqb_spec c sep) as [->|Hne].
  - pose proof (split_on_nonempty sep r) as Hn.
    destruct (split_on sep r) as [|w ws]; [contradiction|].
    rewrite join_cons. simpl. f_equal. exact IH.
  - destruct (split_on sep r) as [|w ws] eqn:E.
    + exfalso. eapply split_on_nonempty; eauto.
    + destruct ws as [|w' ws'].
      * simpl in *. now f_equal.
      * rewrite join_cons in *. simpl. now f_equal.
Qed.

(** What [sendChunk] writes from position [index] on is the rest of the
    words, joined by single spaces, and then the end marker. *)
Lemma sendChunk_written model words index :
  index <= length words ->
  concat (map chunk_text (written (sendChunk model words index)))
  = join [32%N] (drop index words).
Proof.
  intros Hle.
  remember (length words - index) as n eqn:Hn.
  revert index Hle Hn.
  induction n as [|n IH]; intros index Hle Hn.
  - simp sendChunk. destruct (decide (index < length words)); [lia|].
    simpl. rewrite drop_ge by lia. reflexivity.
  - simp sendChunk. destruct (decide (index < length words)) as [Hlt|]; [|lia].
    simpl. rewrite IH by lia.
    destruct (lookup_lt_is_Some_2 words index Hlt) as [w Hw].
    rewrite (drop_S _ _ _ Hw).
    rewrite (list_lookup_total_correct _ _ _ Hw).
    destruct (decide (index < length words - 1)) as [Hlt'|Hge].
    + destruct (drop (S index) words) as [|q rest] eqn:E.
      * apply (f_equal length) in E. rewrite length_drop in E. simpl in E. lia.
      * rewrite join_cons. now rewrite <- app_assoc.
    + rewrite drop_ge by lia. simpl. now rewrite !app_nil_r.
Qed.

Lemma sendChunk_ends model words index :
  index <= length words ->
  exists chunks,
    sendChunk model words index
    = map (fun c => Write (SseContent (JsString c) model "gemini")) chunks
        ++ [Write SseDone; End].
Proof.
  intros Hle.
  remember (length words - index) as n eqn:Hn.
  revert index Hle Hn.
  induction n as [|n IH]; intros index Hle Hn.
  - simp sendChunk. destruct (decide (index < length words)); [lia|].
    now exists [].
  - simp sendChunk. destruct (decide (index < length words)) as [Hlt|]; [|lia].
    simpl. destruct (IH (S index)) as [chunks ->]; [lia|lia|].
    eexists (_ :: chunks). reflexivity.
Qed.

(** ** The gateway handlers *)

Lemma gemini_handler_resolved env req data :
  accepted env req ->
  gemini_handler env req (Resolved data)
  = {| calls := [{| call_provider := Gemini;
                    call_model := b_model (body req);
                    call_prompt := b_prompt (body req);
                    call_responseType_stream := false |}];
       res_calls := if streaming req
                    then gemini_stream_response (b_model (body req)) data
                    else gemini_json_response (b_model (body req)) data;
       outcome := Normal () |}.
Proof.
  intros (Hm & Hp & Hk & _). unfold gemini_handler, streaming.
  now rewrite Hm, Hp, Hk.
Qed.

Lemma gemini_handler_rejected env req error :
  accepted env req ->
  gemini_handler env req (Rejected error)
  = {| calls := [{| call_provider := Gemini;
                    call_model := b_model (body req);
                    call_prompt := b_prompt (body req);
                    call_responseType_stream := false |}];
       res_calls := [];
       outcome := Throw (ReferenceError "stream") |}.
Proof.
  intros (Hm & Hp & Hk & _). unfold gemini_handler.
  now rewrite Hm, Hp, Hk.
Qed.

Lemma perplexity_handler_rejected env req error :
  accepted env req ->
  perplexity_handler env req (Rejected error)
  = {| calls := [{| call_provider := Perplexity;
                    call_model := b_model (body req);
                    call_prompt := b_prompt (body req);
                    call_responseType_stream := streaming req |}];
       res_calls := if streaming req then sse_headers else [];
       outcome := Throw (ReferenceError "stream") |}.
Proof.
  intros (Hm & Hp & _ & Hk). unfold perplexity_handler, streaming.
  rewrite Hm, Hp, Hk. simpl. now rewrite app_nil_r.
Qed.

Lemma written_sse_headers rs : written (sse_headers ++ rs) = written rs.
Proof. reflexivity. Qed.

Lemma written_chunks model chunks :
  written (map (fun c => Write (SseContent (JsString c) model "gemini")) chunks
             ++ [Write SseDone; End])
  = map (fun c => SseContent (JsString c) model "gemini") chunks ++ [SseDone].
Proof. induction chunks as [|c cs IH]; simpl; [reflexivity|now rewrite IH]. Qed.

(** C2: for the Gemini endpoint in streaming mode, the texts of the chunk
    events that reach the client, concatenated in the order they are written,
    are the upstream response text; the chunks are followed by the end marker
    and nothing else. (The upstream text need not even be non-empty.) *)
Theorem gemini_stream_round_trip env req data c rest :
  accepted env req ->
  streaming req = true ->
  candidates data = Some (c :: rest) ->
  let run := gemini_handler env req (Resolved data) in
  concat (map chunk_text (written (res_calls run))) = first_text c
  /\ exists chunks,
       written (res_calls run)
       = map (fun t => SseContent (JsString t) (b_model (body req)) "gemini")
           chunks ++ [SseDone].
Proof.
  intros Hacc Hs Hc run. subst run.
  rewrite (gemini_handler_resolved _ _ _ Hacc), Hs. simpl.
  unfold gemini_stream_response. rewrite Hc, written_sse_headers. split.
  - rewrite sendChunk_written by lia. rewrite drop_0. apply join_split_on.
  - destruct (sendChunk_ends (b_model (body req))
                (split_on 32 (first_text c)) 0) as [chunks ->]; [lia|].
    exists chunks. apply written_chunks.
Qed.

Lemma gemini_stream_round_trip_witness :
  concat (map chunk_text (written (res_calls
    (gemini_handler sample_env (sample_request "gemini-1.5-flash" (JsBool true))
       (Resolved (gemini_data (Some (js "Hello  brave new world"))))))))
  = js "Hello  brave new world".
Proof.
  refine (proj1 (gemini_stream_round_trip sample_env
            (sample_request "gemini-1.5-flash" (JsBool true))
            (gemini_data (Some (js "Hello  brave new world")))
            (sample_candidate (Some (js "Hello  brave new world"))) [] _ _ _)).
  - repeat split; reflexivity.
  - reflexivity.
  - reflexivity.
Defined.

(** C1: the failing inputs. A streamed request whose upstream call times out
    gets no terminal event, from either handler: the [catch] block throws
    before it writes the error event. And when the Perplexity stream carries
    its own end marker and then ends, the handler writes the end marker
    twice, the second time after it has ended the response, so that only the
    first one reaches the client. *)
Theorem stream_terminal_event_failures :
  let req := sample_request "sonar" (JsBool true) in
  let timed_out_a := gemini_handler sample_env req (Rejected timeout_error) in
  let timed_out_b := perplexity_handler sample_env req (Rejected timeout_error) in
  let ended_twice :=
    perplexity_handler sample_env req
      (Resolved {| data_json := no_json;
                   data_events := [OnData (js "data: [DONE]"); OnEnd] |}) in
  (terminal_events (res_calls timed_out_a) = []
   /\ res_calls timed_out_a = []
   /\ outcome timed_out_a = Throw (ReferenceError "stream"))
  /\ (terminal_events (res_calls timed_out_b) = []
      /\ res_calls timed_out_b = sse_headers
      /\ outcome timed_out_b = Throw (ReferenceError "stream"))
  /\ (terminal_events (res_calls ended_twice) = [SseDone; SseDone]
      /\ res_calls ended_twice
         = sse_headers ++ [Write SseDone; End; Write SseDone; End]
      /\ written (res_calls ended_twice) = [SseDone]).
Proof. vm_compute. repeat split; reflexivity. Qed.

(** The validation of the two handlers rejects every falsy field. *)
Lemma falsy_field_rejected env req up_a up_b :
  truthy (b_model (body req)) = false \/ truthy (b_prompt (body req)) = false ->
  gemini_handler env req up_a = respond missing_fields
  /\ perplexity_handler env req up_b = respond missing_fields.
Proof.
  intros H. unfold gemini_handler, perplexity_handler.
  destruct H as [-> | ->]; simpl; [split; reflexivity|].
  rewrite orb_true_r. split; reflexivity.
Qed.

(** C3: a request to either provider endpoint whose [model] or [prompt] is
    absent or empty is answered with status 400 and the structured error
    body, and no upstream call is made, whatever the upstream would have
    answered. *)
Theorem missing_field_rejected env req up_a up_b :
  absent_or_empty (b_model (body req)) \/ absent_or_empty (b_prompt (body req)) ->
  let a := gemini_handler env req up_a in
  let b := perplexity_handler env req up_b in
  (calls a = [] /\ status_code (res_calls a) = 400%Z
   /\ res_calls a = [Status 400; SendJson (ErrorBody
        "Missing required fields: model and prompt are required" None)]
   /\ outcome a = Normal ())
  /\ (calls b = [] /\ status_code (res_calls b) = 400%Z
      /\ res_calls b = [Status 400; SendJson (ErrorBody
           "Missing required fields: model and prompt are required" None)]
      /\ outcome b = Normal ()).
Proof.
  intros H a b. subst a b.
  assert (Hf : truthy (b_model (body req)) = false
               \/ truthy (b_prompt (body req)) = false).
  { destruct H as [[-> | ->] | [-> | ->]]; auto. }
  destruct (falsy_field_rejected env req up_a up_b Hf) as [-> ->].
  repeat split; reflexivity.
Qed.

Lemma missing_field_rejected_witness :
  calls (gemini_handler sample_env
           {| ip := "10.0.0.7"; userAgent := None;
              body := {| b_model := JsString (js "gemini-1.5-pro");
                         b_prompt := JsString [];
                         b_temperature := JsUndefined;
                         b_maxTokens := JsUndefined;
                         b_stream := JsUndefined |} |}
           (Resolved (gemini_data (Some (js "unused"))))) = [].
Proof.
  refine (proj1 (proj1 (missing_field_rejected sample_env _ _
            (Rejected timeout_error) _))).
  right. right. reflexivity.
Defined.

(** The non-streaming arm of the [catch] block sets the mapped status. *)
Lemma error_response_status api stream error :
  truthy stream = false ->
  status_code (error_response api stream error) = mapped_status error.
Proof.
  intros Hs. unfold error_response, mapped_status, status_is. rewrite Hs.
  destruct (err_response error) as [r|]; [|reflexivity].
  destruct (status r =? 429)%Z; [reflexivity|].
  destruct (status r =? 400)%Z; reflexivity.
Qed.

Lemma mapped_status_set error : mapped_status error <> 200%Z.
Proof.
  unfold mapped_status. destruct (err_response error) as [r|]; [|discriminate].
  destruct (status r =? 429)%Z; [discriminate|].
  destruct (status r =? 400)%Z; discriminate.
Qed.

(** C5: the failing input. The [catch] block of either handler is written to
    answer an upstream failure of a request without streaming with the mapped
    status: 429 for an upstream 429, 400 for an upstream 400, 500 for every
    other failure, a timeout included. No run of a handler gives that answer.
    Whenever the upstream call of an accepted request fails, in either mode,
    the block throws at [if (stream)], before either arm: the status is never
    set, no error body or error event is sent, and the replies of the block
    are not what the handler does. *)
Theorem upstream_failure_not_mapped env req error :
  accepted env req ->
  let a := gemini_handler env req (Rejected error) in
  let b := perplexity_handler env req (Rejected error) in
  let stream := with_default (JsBool false) (b_stream (body req)) in
  (streaming req = false ->
     status_code (error_response "Gemini" stream error) = mapped_status error
     /\ status_code (error_response "Perplexity" stream error)
        = mapped_status error)
  /\ (status_code (res_calls a) = 200%Z
      /\ status_code (res_calls a) <> mapped_status error
      /\ no_reply (res_calls a)
      /\ res_calls a <> error_response "Gemini" stream error
      /\ outcome a = Throw (ReferenceError "stream"))
  /\ (status_code (res_calls b) = 200%Z
      /\ status_code (res_calls b) <> mapped_status error
      /\ no_reply (res_calls b)
      /\ res_calls b <> error_response "Perplexity" stream error
      /\ outcome b = Throw (ReferenceError "stream")).
Proof.
  intros Hacc a b stream. subst a b.
  rewrite (gemini_handler_rejected _ _ _ Hacc).
  rewrite (perplexity_handler_rejected _ _ _ Hacc). cbn [res_calls outcome].
  split; [|split].
  - intros Hs. split; now apply error_response_status.
  - repeat split.
    + intros H. now apply (mapped_status_set error).
    + constructor.
    + unfold error_response. destruct (truthy stream); [discriminate|].
      destruct (status_is 429 error); [discriminate|].
      destruct (status_is 400 error); discriminate.
  - assert (Hc : status_code (if streaming req then sse_headers else [])
                 = 200%Z) by now destruct (streaming req).
    repeat split.
    + exact Hc.
    + rewrite Hc. intros H. now apply (mapped_status_set error).
    + destruct (streaming req); repeat constructor.
    + unfold error_response, streaming. fold stream.
      destruct (truthy stream); [discriminate|].
      destruct (status_is 429 error); [discriminate|].
      destruct (status_is 400 error); discriminate.
Qed.

Lemma upstream_failure_not_mapped_witness :
  status_code (error_response "Gemini" (JsBool false) (upstream_status 429))
  = 429%Z
  /\ status_code (res_calls
       (gemini_handler sample_env
          (sample_request "gemini-1.5-flash" (JsBool false))
          (Rejected (upstream_status 429))))
     = 200%Z.
Proof.
  refine ((fun H => conj (proj1 (proj1 H eq_refl)) (proj1 (proj1 (proj2 H))))
            (upstream_failure_not_mapped sample_env
               (sample_request "gemini-1.5-flash" (JsBool false))
               (upstream_status 429) _)).
  repeat split; reflexivity.
Defined.

(** C6: the failing input. Whenever the upstream call of an accepted request
    fails, the [catch] block of the handler itself throws: it reads [stream],
    which is bound in the [try] block only. The exception leaves the handler
    and none of the error replies of the block is written (the Perplexity
    handler has at most set its streaming headers). *)
Theorem catch_block_throws env req error :
  accepted env req ->
  let a := gemini_handler env req (Rejected error) in
  let b := perplexity_handler env req (Rejected error) in
  outcome a = Throw (ReferenceError "stream")
  /\ res_calls a = []
  /\ outcome b = Throw (ReferenceError "stream")
  /\ res_calls b = (if streaming req then sse_headers else [])
  /\ attempted (res_calls b) = [].
Proof.
  intros Hacc a b. subst a b.
  rewrite (gemini_handler_rejected _ _ _ Hacc).
  rewrite (perplexity_handler_rejected _ _ _ Hacc). simpl.
  repeat split. now destruct (streaming req).
Qed.

Lemma catch_block_throws_witness :
  outcome (gemini_handler sample_env
             (sample_request "gemini-1.5-flash" JsUndefined)
             (Rejected (upstream_status 429)))
  = Throw (ReferenceError "stream").
Proof.
  refine (proj1 (catch_block_throws sample_env
            (sample_request "gemini-1.5-flash" JsUndefined)
            (upstream_status 429) _)).
  repeat split; reflexivity.
Defined.

(** C8, as stated, fails: a candidate without any text is an upstream answer
    with no content, and the handler answers it with a success, in both
    modes. *)
Lemma empty_candidate_is_success :
  let data := gemini_data None in
  let model := JsString (js "gemini-1.5-flash") in
  res_calls (gemini_handler sample_env
               (sample_request "gemini-1.5-flash" (JsBool false))
               (Resolved data))
  = [SendJson (GeminiSuccess (JsString []) model)]
  /\ written (res_calls (gemini_handler sample_env
                 (sample_request "gemini-1.5-flash" (JsBool true))
                 (Resolved data)))
     = [SseContent (JsString []) model "gemini"; SseDone].
Proof. vm_compute. split; reflexivity. Qed.

(** C8, amended: when the upstream call succeeds and returns no candidates
    (the list is absent or empty), the result is the
    no-response error: one error event and the end of the response in
    streaming mode, status 500 with the error body otherwise. *)
Theorem no_candidates_is_error env req data :
  accepted env req ->
  no_candidates data ->
  let run := gemini_handler env req (Resolved data) in
  outcome run = Normal ()
  /\ (streaming req = true ->
        written (res_calls run) = [SseError "No response from Gemini API"]
        /\ res_calls run
           = [SetHeader "Content-Type" "text/event-stream";
              Write (SseError "No response from Gemini API"); End])
  /\ (streaming req = false ->
        res_calls run
        = [Status 500; SendJson (ErrorBody "No response from Gemini API" None)]).
Proof.
  intros Hacc Hn run. subst run.
  rewrite (gemini_handler_resolved _ _ _ Hacc). simpl.
  unfold gemini_stream_response, gemini_json_response.
  split; [reflexivity|].
  destruct Hn as [-> | ->]; split; intros ->; repeat split; reflexivity.
Qed.

Lemma no_candidates_is_error_witness :
  outcome (gemini_handler sample_env
             (sample_request "gemini-1.5-flash" (JsBool true))
             (Resolved {| candidates := Some [] |})) = Normal ().
Proof.
  refine (proj1 (no_candidates_is_error sample_env
            (sample_request "gemini-1.5-flash" (JsBool true))
            {| candidates := Some [] |} _ _)).
  - repeat split; reflexivity.
  - right. reflexivity.
Defined.

(** ** The client stream consumer *)

Lemma run_chunks st payloads :
  Client.run st (chunk_events payloads)
  = {| Client.message := Client.message st;
       Client.isLoading := Client.isLoading st;
       Client.response := Client.response st ++ concat payloads;
       Client.error := Client.error st |}.
Proof.
  revert st. induction payloads as [|p ps IH]; intros st.
  - simpl. rewrite app_nil_r. now destruct st.
  - change (Client.run st (chunk_events (p :: ps)))
      with (Client.run (Client.step st (Client.ResponseChunk p))
              (chunk_events ps)).
    rewrite IH. simpl. now rewrite <- app_assoc.
Qed.

(** C9, as stated, fails: two chunks are received, the user stops the
    stream, and a third chunk that arrives afterwards is appended to the
    response buffer all the same. *)
Lemma chunk_after_stop_is_appended :
  let st := {| Client.message := js "question"; Client.isLoading := false;
               Client.response := []; Client.error := [] |} in
  let stopped :=
    Client.run st [Client.SubmitClicked; Client.ResponseChunk (js "one ");
                   Client.ResponseChunk (js "two "); Client.StopResolved] in
  Client.response stopped = js "one two "
  /\ Client.response (Client.step stopped (Client.ResponseChunk (js "three")))
     = js "one two three"
  /\ Client.response (Client.step stopped (Client.ResponseChunk (js "three")))
     <> Client.response stopped.
Proof. vm_compute. repeat split; discriminate. Qed.

(** C9, amended: after a local cancel ([handleStop], whichever way its
    [invoke] settles) the chunk events that arrive do not reopen the loading
    state; each of them is still appended to the response buffer. *)
Theorem chunks_after_stop st (stop : Client.Event) (payloads : list jsstring) :
  stop = Client.StopResolved \/ stop = Client.StopRejected ->
  let after := Client.run (Client.step st stop) (chunk_events payloads) in
  Client.isLoading after = false
  /\ Client.response after = Client.response st ++ concat payloads
  /\ Client.error after = Client.error st.
Proof.
  intros Hstop after. subst after. rewrite run_chunks.
  destruct Hstop as [-> | ->]; repeat split; reflexivity.
Qed.

Lemma chunks_after_stop_witness :
  Client.isLoading
    (Client.run (Client.step Client.initial Client.StopResolved)
       (chunk_events [js "late"])) = false.
Proof.
  refine (proj1 (chunks_after_stop Client.initial Client.StopResolved
                   [js "late"] _)).
  left. reflexivity.
Defined.

(** ** The quota limiter *)

Lemma quota_check_in_window identity now w :
  expired w now = false ->
  quota_check identity now w
  = (S (count_of w identity) <=? maxRequests w,
     {| windowStartTime := windowStartTime w;
        windowDurationMs := windowDurationMs w;
        maxRequests := maxRequests w;
        countsByKey := <[identity := S (count_of w identity)]> (countsByKey w) |}).
Proof. intros H. unfold quota_check, reset_if_expired. now rewrite H. Qed.

Lemma count_of_quota_check identity other now w :
  expired w now = false ->
  count_of (snd (quota_check other now w)) identity
  = count_of w identity + (if decide (other = identity) then 1 else 0).
Proof.
  intros H. rewrite (quota_check_in_window _ _ _ H). unfold count_of. simpl.
  destruct (decide (other = identity)) as [->|Hne].
  - rewrite lookup_insert_eq. simpl. lia.
  - rewrite lookup_insert_ne by exact Hne. lia.
Qed.

Lemma expired_false w t :
  in_window (windowStartTime w) (windowDurationMs w) t -> expired w t = false.
Proof. unfold in_window, expired. intros H. apply Z.leb_gt. exact H. Qed.

Lemma quota_checks_in_window identity cs w :
  Forall (fun c => in_window (windowStartTime w) (windowDurationMs w) (snd c)) cs ->
  let w' := quota_checks cs w in
  windowStartTime w' = windowStartTime w
  /\ windowDurationMs w' = windowDurationMs w
  /\ maxRequests w' = maxRequests w
  /\ count_of w' identity = count_of w identity + calls_by identity cs.
Proof.
  revert w. induction cs as [|[other t] cs IH]; intros w Hall.
  - unfold calls_by. simpl. repeat split. lia.
  - inversion Hall as [|? ? Ht Hrest]; subst. simpl in Ht.
    pose proof (expired_false _ _ Ht) as He.
    pose proof (count_of_quota_check identity other t w He) as Hc.
    cbn [quota_checks]. cbv zeta.
    remember (snd (quota_check other t w)) as w1 eqn:Hw1.
    assert (Hsame : windowStartTime w1 = windowStartTime w
                    /\ windowDurationMs w1 = windowDurationMs w
                    /\ maxRequests w1 = maxRequests w).
    { subst w1. rewrite (quota_check_in_window _ _ _ He). simpl. repeat split. }
    destruct Hsame as (E1 & E2 & E3).
    specialize (IH w1). rewrite E1, E2 in IH.
    destruct (IH Hrest) as (H1 & H2 & H3 & H4).
    rewrite H1, H2, H3, H4, E3, Hc.
    repeat split.
    unfold calls_by. rewrite filter_cons. simpl.
    destruct (decide (other = identity)); simpl; lia.
Qed.

Lemma reset_if_expired_fresh now duration limit :
  reset_if_expired
    {| windowStartTime := now; windowDurationMs := duration;
       maxRequests := limit; countsByKey := ∅ |} now
  = {| windowStartTime := now; windowDurationMs := duration;
       maxRequests := limit; countsByKey := ∅ |}.
Proof. unfold reset_if_expired. now destruct (expired _ _). Qed.

Lemma quota_check_expired identity now w :
  expired w now = true ->
  quota_check identity now w
  = quota_check identity now
      {| windowStartTime := now; windowDurationMs := windowDurationMs w;
         maxRequests := maxRequests w; countsByKey := ∅ |}.
Proof.
  intros H. unfold quota_check. rewrite reset_if_expired_fresh.
  unfold reset_if_expired. now rewrite H.
Qed.

(** C4: for every identity and every scope (global 100, Gemini 50,
    Perplexity 30, each per 15 minutes): in a window opened at [opened], a
    call is admitted exactly when the identity has made fewer than the limit
    of calls earlier in that window, so the first [limit] calls are admitted
    and the next one is denied, whatever other identities do in between; a
    call that comes once the window has elapsed is treated as the first call
    of a window opened at that moment; and a provider route admits a request
    exactly when both the global and the provider's window quota_check it. *)
Theorem quota_window_admission (scope : QuotaScope) (identity : string) :
  let o := scope_options scope in
  (windowMs o = fifteen_minutes /\ max o = scope_limit scope)
  /\ (forall (opened : Z) (cs : list (string * Z)) (t : Z),
        Forall (fun c => in_window opened (windowMs o) (snd c)) cs ->
        in_window opened (windowMs o) t ->
        fst (quota_check identity t (quota_checks cs (open_window o opened)))
        = bool_decide (calls_by identity cs < max o))
  /\ (forall (w : QuotaWindow) (t : Z),
        windowDurationMs w = windowMs o ->
        maxRequests w = max o ->
        (windowMs o <= t - windowStartTime w)%Z ->
        quota_check identity t w = quota_check identity t (open_window o t)
        /\ fst (quota_check identity t w) = true)
  /\ (forall (p : Provider) (now : Z) (ls : Limiters),
        fst (route_limits p identity now ls) = Allowed
        <-> fst (quota_check identity now (general ls)) = true
            /\ fst (quota_check identity now (provider_window p ls)) = true).
Proof.
  intros o. split; [|split; [|split]].
  - subst o. destruct scope as [|[|]]; split; reflexivity.
  - intros opened cs t Hall Ht.
    pose proof (quota_checks_in_window identity cs (open_window o opened) Hall)
      as (Hs & Hd & Hm & Hc).
    rewrite quota_check_in_window.
    2:{ apply expired_false. rewrite Hs, Hd. exact Ht. }
    cbn [fst]. rewrite Hm, Hc.
    change (count_of (open_window o opened) identity)
      with (default 0 ((∅ : gmap string nat) !! identity)).
    change (maxRequests (open_window o opened)) with (max o).
    rewrite lookup_empty. cbn [default Nat.add].
    destruct (Nat.leb_spec (S (calls_by identity cs)) (max o));
      symmetry; [apply bool_decide_eq_true_2|apply bool_decide_eq_false_2]; lia.
  - intros w t Hd Hm Ht. split.
    + rewrite quota_check_expired.
      2:{ unfold expired. apply Z.leb_le. rewrite Hd. exact Ht. }
      unfold open_window. now rewrite Hd, Hm.
    + rewrite quota_check_expired.
      2:{ unfold expired. apply Z.leb_le. rewrite Hd. exact Ht. }
      unfold quota_check. rewrite reset_if_expired_fresh.
      cbn [fst maxRequests]. unfold count_of. cbn [countsByKey].
      rewrite lookup_empty, Hm. subst o.
      destruct scope as [|[|]]; reflexivity.
  - intros p now ls. unfold route_limits, provider_window, scope_window.
    destruct (quota_check identity now (general ls)) as [okg g].
    destruct p;
      [destruct (quota_check identity now (gemini ls)) as [ok w]
      |destruct (quota_check identity now (perplexity ls)) as [ok w]];
      destruct okg, ok; cbn [fst];
      (split; [intros H|intros [H1 H2]]);
      first [discriminate | split; reflexivity | reflexivity].
Qed.

Lemma quota_window_admission_witness :
  fst (quota_check "10.0.0.7-ghost-query" 1700
         (quota_checks (burst "10.0.0.7-ghost-query" 30 1500)
            (open_window perplexityRateLimit 1000))) = false
  /\ fst (quota_check "10.0.0.7-ghost-query" 901000
            (quota_checks (burst "10.0.0.7-ghost-query" 30 1500)
               (open_window perplexityRateLimit 1000))) = true.
Proof.
  pose proof (quota_window_admission (ProviderScope Perplexity)
                "10.0.0.7-ghost-query") as (_ & Hin & Hout & _).
  split.
  - refine (eq_trans (Hin 1000%Z (burst "10.0.0.7-ghost-query" 30 1500)
                        1700%Z _ _) _).
    + unfold burst. apply Forall_forall. intros c Hc.
      apply list_elem_of_In, repeat_spec in Hc. subst c.
      unfold in_window. simpl. lia.
    + unfold in_window. simpl. lia.
    + reflexivity.
  - refine (proj2 (Hout _ 901000%Z _ _ _)).
    + reflexivity.
    + reflexivity.
    + vm_compute. discriminate.
Defined.

(* ===================================================================== *)
(** * Part III: further properties of the code *)
(* ===================================================================== *)

(** ** The reconstructor: more properties *)

Lemma visible_cons c l :
  visible (c :: l) = if is_space c then visible l else c :: visible l.
Proof. unfold visible. simpl. now destruct (is_space c). Qed.

Lemma visible_close_gaps b l : visible (close_gaps b l) = visible l.
Proof.
  revert b. induction l as [|c r IH]; intros b; [reflexivity|].
  cbn [close_gaps].
  destruct (is_space c && b && spaces_then_percent r) eqn:E.
  - apply andb_true_iff in E as [E _]. apply andb_true_iff in E as [Hc _].
    rewrite visible_cons, Hc. apply IH.
  - rewrite !visible_cons. now rewrite IH.
Qed.

Lemma visible_insert_space P Q l : visible (insert_space P Q l) = visible l.
Proof.
  induction l as [|a r IH]; [reflexivity|].
  destruct r as [|b r']; [reflexivity|].
  destruct (P a && Q b) eqn:E.
  - apply andb_true_iff in E as [Ha Hb].
    rewrite (insert_space_here _ _ _ _ _ Ha Hb).
    rewrite (visible_cons a), (visible_cons 32), (visible_cons a (b :: r')).
    change (is_space 32) with true. cbv iota. now rewrite IH.
  - assert (Hstep : insert_space P Q (a :: b :: r')
                    = a :: insert_space P Q (b :: r')).
    { cbn [insert_space]. now rewrite E. }
    rewrite Hstep, (visible_cons a), (visible_cons a (b :: r')).
    now rewrite IH.
Qed.

Lemma visible_collapse_spaces l : visible (collapse_spaces l) = visible l.
Proof.
  induction l as [|a r IH]; [reflexivity|].
  destruct (is_space a) eqn:Ha.
  - rewrite (visible_cons a), Ha.
    destruct r as [|b r'].
    + now rewrite (collapse_spaces_last a [] Ha I).
    + destruct (is_space b) eqn:Hb.
      * now rewrite (collapse_spaces_drop _ _ _ Ha Hb).
      * rewrite (collapse_spaces_last a (b :: r') Ha Hb).
        now rewrite visible_cons.
  - rewrite (collapse_spaces_keep _ _ Ha), !visible_cons, Ha. now rewrite IH.
Qed.

Lemma zero_width_not_space c : is_zero_width c = true -> is_space c = false.
Proof. intros H. char_classes. Qed.

Lemma visible_normalize l :
  visible (replace_class is_nbsp 32 (replace_class is_zero_width 32 l))
  = visible_source l.
Proof.
  unfold replace_class, visible_source.
  induction l as [|c r IH]; [reflexivity|].
  cbn [map List.filter]. rewrite visible_cons, IH.
  destruct (is_zero_width c) eqn:Hz.
  - change (is_nbsp 32) with false. cbv iota.
    change (is_space 32) with true. cbv iota.
    now rewrite andb_false_r.
  - rewrite andb_true_r.
    destruct (is_nbsp c) eqn:Hn.
    + change (is_space 32) with true. cbv iota.
      now rewrite (nbsp_is_space _ Hn).
    + now destruct (is_space c).
Qed.

(** X1: the cleanup keeps every visible character, in order. What it
    removes, inserts or replaces is white space, and the zero-width
    characters it turns into blanks. *)
Theorem cleanup_keeps_visible_text (x : jsstring) :
  visible (cleanup x) = visible_source x.
Proof.
  unfold cleanup.
  rewrite cleanCurrencyAndPercent_passes, normalizeStreamingText_maps.
  rewrite visible_insert_space, visible_collapse_spaces,
    visible_insert_space, visible_close_gaps.
  apply visible_normalize.
Qed.

(** X2: what the cleanup produces is a cleaned text (white space only as
    single blanks, no digit directly before a letter, no sentence end
    directly before a capital, no white space between a digit and a percent
    sign, no zero-width character), and the texts the cleanup leaves
    unchanged are exactly the cleaned ones. *)
Theorem cleanup_fixed_points (x : jsstring) :
  cleaned (cleanup x) /\ (cleanup x = x <-> cleaned x).
Proof.
  split; [apply cleanup_cleaned|]. split.
  - intros H. rewrite <- H. apply cleanup_cleaned.
  - apply cleaned_fixed.
Qed.

(** X3: two of the six replacements of [cleanCurrencyAndPercent] never
    change a text: the currency one puts back the dollar sign and the number
    it matched, the decimal one the two numbers and the dot between them.
    The function is the other four replacements in sequence. *)
Theorem currency_and_decimal_fixes_do_nothing (text : jsstring) :
  replace_all m_currency 0 text = text
  /\ replace_all m_decimal 0 text = text
  /\ cleanCurrencyAndPercent text
     = replace_all m_sentence 0
         (replace_all m_spaces 0
            (replace_all m_digit_letter 0 (replace_all m_percent 0 text))).
Proof.
  split; [apply currency_pass|]. split; [apply decimal_pass|].
  unfold cleanCurrencyAndPercent. destruct text as [|c r]; [reflexivity|].
  now rewrite currency_pass, decimal_pass.
Qed.

(** X4: [normalizeStreamingText] works character by character: the text
    keeps its length, the result has no zero-width and no non-breaking
    space, and a text without such characters is returned as it is. *)
Theorem normalizeStreamingText_invisible (text : jsstring) :
  length (normalizeStreamingText text) = length text
  /\ forallb (fun c => negb (is_zero_width c) && negb (is_nbsp c))
       (normalizeStreamingText text) = true
  /\ (forallb (fun c => negb (is_zero_width c) && negb (is_nbsp c)) text = true ->
      normalizeStreamingText text = text).
Proof.
  rewrite normalizeStreamingText_maps. unfold replace_class.
  split; [now rewrite !length_map|]. split.
  - induction text as [|c r IH]; [reflexivity|].
    cbn [map forallb]. rewrite IH, andb_true_r.
    destruct (is_zero_width c) eqn:Hz; [reflexivity|].
    destruct (is_nbsp c) eqn:Hn; [reflexivity|]. now rewrite Hz, Hn.
  - induction text as [|c r IH]; [reflexivity|].
    cbn [map forallb]. intros H. apply andb_true_iff in H as [Hc Hr].
    apply andb_true_iff in Hc as [Hz Hn].
    apply negb_true_iff in Hz, Hn. rewrite Hz, Hn. now rewrite IH.
Qed.

Lemma normalizeStreamingText_invisible_witness :
  normalizeStreamingText (js "plain text") = js "plain text".
Proof.
  apply (proj2 (proj2 (normalizeStreamingText_invisible (js "plain text")))).
  reflexivity.
Defined.

Lemma cleanup_fixed_points_witness :
  cleanup (js "Price: 5% of 12 kg. Done") = js "Price: 5% of 12 kg. Done".
Proof.
  apply (proj2 (cleanup_fixed_points (js "Price: 5% of 12 kg. Done"))).
  repeat split; vm_compute; reflexivity.
Defined.

(** *** Text without a double quote *)

Lemma no_quote_drop_while p l : no_quote l -> no_quote (drop_while p l).
Proof. apply drop_while_Forall. Qed.

Lemma no_quote_json_candidate x : no_quote x -> no_quote (json_candidate x).
Proof.
  intros H. unfold json_candidate.
  assert (Ht : no_quote (trim x)).
  { unfold trim, trimEnd, trimStart.
    apply Forall_rev, no_quote_drop_while, Forall_rev, no_quote_drop_while, H. }
  destruct (negb (indexOf 123 (trim x) =? -1)%Z
            && negb (lastIndexOf 125 (trim x) =? -1)%Z
            && (indexOf 123 (trim x) <? lastIndexOf 125 (trim x))%Z);
    [|exact Ht].
  unfold substring. apply Forall_take, Forall_drop, Ht.
Qed.

Lemma no_quote_head c r : no_quote (c :: r) -> (c =? 34)%N = false.
Proof. intros H. inversion H; subst. now apply N.eqb_neq. Qed.

Lemma parse_members_no_quote fuel s acc v rest :
  no_quote s -> parse_members fuel s acc <> POk v rest.
Proof.
  intros H. destruct fuel as [|f]; [discriminate|].
  cbn [parse_members].
  pose proof (no_quote_drop_while is_json_ws s H) as Hs.
  fold (skip_ws s) in Hs.
  destruct (skip_ws s) as [|q r0]; [discriminate|].
  rewrite (no_quote_head _ _ Hs). discriminate.
Qed.

Lemma parse_elements_array fuel s acc v rest :
  parse_elements fuel s acc = POk v rest -> exists items, v = JsArray items.
Proof.
  revert s acc. induction fuel as [|f IH]; intros s acc; [discriminate|].
  cbn [parse_elements].
  destruct (parse_value f s) as [v0 rest0| |]; try discriminate.
  destruct (skip_ws rest0) as [|c r]; [discriminate|].
  destruct (c =? 44)%N; [apply IH|].
  destruct (c =? 93)%N; [|discriminate].
  intros [= <- <-]. eauto.
Qed.

Lemma parse_value_no_quote fuel s v rest :
  no_quote s -> parse_value fuel s = POk v rest -> quoteless_value v.
Proof.
  intros H. destruct fuel as [|f]; [discriminate|].
  cbn [parse_value].
  pose proof (no_quote_drop_while is_json_ws s H) as Hs.
  fold (skip_ws s) in Hs.
  destruct (skip_ws s) as [|c r]; [discriminate|].
  assert (Hr : no_quote r) by now inversion Hs.
  destruct (c =? 123)%N.
  { pose proof (no_quote_drop_while is_json_ws r Hr) as Hr'.
    fold (skip_ws r) in Hr'.
    destruct (skip_ws r) as [|c' r']; [discriminate|].
    destruct (c' =? 125)%N; [now intros [= <- <-]|].
    intros E. now apply parse_members_no_quote in E. }
  destruct (c =? 91)%N.
  { destruct (skip_ws r) as [|c' r']; [discriminate|].
    destruct (c' =? 93)%N; [now intros [= <- <-]|].
    intros E. apply parse_elements_array in E as [items ->]. exact I. }
  rewrite (no_quote_head _ _ Hs).
  destruct ((c =? 45)%N || is_digit c).
  { destruct (parse_number (c :: r)) as [[d rest']|]; [|discriminate].
    now intros [= <- <-]. }
  unfold parse_literal.
  destruct (startsWith (js "true") (c :: r)); [now intros [= <- <-]|].
  destruct (startsWith (js "false") (c :: r)); [now intros [= <- <-]|].
  destruct (startsWith (js "null") (c :: r)); [now intros [= <- <-]|].
  discriminate.
Qed.

Lemma quoteless_get_prop v name :
  quoteless_value v ->
  get_prop v name = Normal JsUndefined \/ get_prop v name = Throw TypeError.
Proof.
  destruct v as [| |b|d|s|items|fs]; simpl; intros H;
    first [contradiction | now right | subst; now left].
Qed.

Lemma try_structured_no_quote x text :
  no_quote x -> try_structured x <> Normal (Some text).
Proof.
  intros H. apply no_quote_json_candidate in H.
  unfold try_structured, JSON_parse, parse_text.
  destruct (parse_value (enough_fuel (json_candidate x)) (json_candidate x))
    as [v rest| |] eqn:E; try discriminate.
  apply (parse_value_no_quote _ _ _ _ H) in E.
  destruct (skip_ws rest); [|discriminate].
  cbn [mbind completion_bind].
  destruct (quoteless_get_prop v (js "summary") E) as [-> | ->];
    [|discriminate].
  cbn [mbind completion_bind].
  destruct (get_prop v (js "details")); [|discriminate].
  cbn [mbind completion_bind].
  destruct (get_prop v (js "key_points")); [|discriminate].
  cbn [mbind completion_bind].
  destruct (get_prop v (js "status")); discriminate.
Qed.

Lemma m_field_no_quote name s : no_quote s -> m_field name s = None.
Proof.
  intros H. unfold m_field, quoted. cbn [app startsWith].
  destruct s as [|c r]; [reflexivity|].
  rewrite N.eqb_sym, (no_quote_head _ _ H). reflexivity.
Qed.

Lemma search_m_field_no_quote name s :
  no_quote s -> search (m_field name) s = None.
Proof.
  induction 1 as [|c r Hc Hr IH].
  - cbn [search]. now rewrite m_field_no_quote by constructor.
  - cbn [search]. rewrite m_field_no_quote by now constructor. exact IH.
Qed.

(** X5: a raw text without any double quote is never rendered as a
    structured answer: whatever JSON it may contain has no field, and the
    field patterns need quotes, so [formatResponse] only cleans it. *)
Theorem formatResponse_without_quotes (x : jsstring) :
  no_quote x -> formatResponse x = cleanup x.
Proof.
  intros H. unfold formatResponse.
  pose proof (try_structured_no_quote x) as Htry.
  destruct (try_structured x) as [[text|]|e].
  - now contradiction (Htry text H).
  - reflexivity.
  - unfold manual_extraction.
    now rewrite (search_m_field_no_quote (js "summary") x H).
Qed.

Lemma formatResponse_without_quotes_witness :
  formatResponse (js "The answer is {42}:  12kg.Next") 
  = js "The answer is {42}: 12 kg. Next".
Proof.
  refine (eq_trans (formatResponse_without_quotes _ _) _).
  - vm_compute. repeat constructor; discriminate.
  - vm_compute. reflexivity.
Defined.

(** *** The field pattern *)

Lemma startsWith_app p rest : startsWith p (p ++ rest) = true.
Proof.
  induction p as [|a p IH]; [now destruct rest|].
  cbn [app startsWith]. now rewrite N.eqb_refl.
Qed.

Lemma drop_while_all p ws c rest :
  Forall (fun x => p x = true) ws -> p c = false ->
  drop_while p (ws ++ c :: rest) = c :: rest.
Proof.
  intros Hws Hc. rewrite drop_while_stop by exact Hc.
  induction Hws as [|w ws Hw _ IH]; [reflexivity|].
  simpl. now rewrite Hw.
Qed.

Lemma span_until p value c rest :
  Forall (fun x => p x = true) value -> p c = false ->
  span p (value ++ c :: rest) = (value, c :: rest).
Proof.
  intros Hv Hc. induction Hv as [|v value Hv _ IH].
  - cbn [app]. now rewrite (span_cons_false _ _ _ Hc).
  - cbn [app]. rewrite (span_cons_true _ _ _ Hv), IH. reflexivity.
Qed.

Lemma m_field_here name ws value rest :
  Forall (fun c => is_space c = true) ws ->
  value <> [] -> no_quote value ->
  m_field name
    ((quoted name ++ [58%N]) ++ ws ++ quoted value ++ rest) = Some value.
Proof.
  intros Hws Hne Hv. unfold m_field.
  rewrite startsWith_app, drop_app_length.
  change (quoted value ++ rest) with (34%N :: (value ++ [34%N]) ++ rest).
  rewrite <- app_assoc. cbn [app].
  rewrite drop_while_all; [|exact Hws|reflexivity].
  rewrite N.eqb_refl.
  rewrite (span_until (fun c => negb (c =? 34)%N) value 34 rest).
  - destruct value; [contradiction|reflexivity].
  - eapply Forall_impl; [exact Hv|]. intros c Hc.
    now apply negb_true_iff, N.eqb_neq.
  - reflexivity.
Qed.

Lemma search_skip_no_quote name pre s :
  no_quote pre ->
  search (m_field name) (pre ++ s) = search (m_field name) s.
Proof.
  induction 1 as [|c pre Hc Hpre IH]; [reflexivity|].
  cbn [app search].
  assert (Hnone : m_field name (c :: pre ++ s) = None).
  { unfold m_field, quoted. cbn [app startsWith].
    apply N.eqb_neq in Hc. now rewrite N.eqb_sym, Hc. }
  now rewrite Hnone.
Qed.

(** X6: the field pattern of the [catch] block recovers a value written as
    a quoted name, a colon, optional white space and the quoted value: when
    no double quote stands before it, the match is that value, for every
    non-empty value without a double quote and whatever follows. *)
Theorem field_pattern_recovers_value
  (name pre ws value rest : jsstring) :
  no_quote pre ->
  Forall (fun c => is_space c = true) ws ->
  value <> [] -> no_quote value ->
  search (m_field name)
    (pre ++ (quoted name ++ [58%N]) ++ ws ++ quoted value ++ rest)
  = Some value.
Proof.
  intros Hpre Hws Hne Hv.
  rewrite search_skip_no_quote by exact Hpre.
  destruct ((quoted name ++ [58%N]) ++ ws ++ quoted value ++ rest)
    as [|c s] eqn:E.
  - destruct name; discriminate E.
  - cbn [search]. rewrite <- E. now rewrite m_field_here.
Qed.

Lemma field_pattern_recovers_value_witness :
  search (m_field (js "summary"))
    (jsq "Answer: 'summary':  'It works' and more")
  = Some (js "It works").
Proof.
  refine (field_pattern_recovers_value (js "summary") (js "Answer: ")
            (js "  ") (js "It works") (js " and more") _ _ _ _).
  - vm_compute. repeat constructor; discriminate.
  - repeat constructor.
  - discriminate.
  - vm_compute. repeat constructor; discriminate.
Defined.

(** ** The key points of the fallback *)

Lemma split_on_cons_other sep c r :
  (c =? sep)%N = false ->
  split_on sep (c :: r)
  = match split_on sep r with
    | w :: ws => (c :: w) :: ws
    | [] => [[c]]
    end.
Proof. intros H. cbn [split_on]. now rewrite H. Qed.

Lemma split_on_single sep item :
  Forall (fun c => c <> sep) item -> split_on sep item = [item].
Proof.
  induction 1 as [|c r Hc _ IH]; [reflexivity|].
  apply N.eqb_neq in Hc. rewrite (split_on_cons_other _ _ _ Hc). now rewrite IH.
Qed.

Lemma split_on_item sep item rest :
  Forall (fun c => c <> sep) item ->
  split_on sep (item ++ sep :: rest) = item :: split_on sep rest.
Proof.
  induction 1 as [|c r Hc _ IH].
  - cbn [app split_on]. now rewrite N.eqb_refl.
  - apply N.eqb_neq in Hc. cbn [app].
    rewrite (split_on_cons_other _ _ _ Hc). now rewrite IH.
Qed.

Lemma split_on_join sep items :
  items <> [] ->
  Forall (Forall (fun c => c <> sep)) items ->
  split_on sep (join [sep] items) = items.
Proof.
  intros Hne Hall. induction Hall as [|item items Hitem Hitems IH];
    [contradiction|].
  destruct items as [|item' items'].
  - cbn [join]. now apply split_on_single.
  - rewrite join_cons. cbn [app].
    rewrite (split_on_item _ _ _ Hitem). f_equal. now apply IH.
Qed.

Lemma drop_while_spaces ws rest :
  Forall (fun c => is_space c = true) ws ->
  match rest with
  | c :: _ => is_space c = false
  | [] => True
  end ->
  drop_while is_space (ws ++ rest) = rest.
Proof.
  intros Hws Hrest. induction Hws as [|w ws Hw _ IH].
  - destruct rest as [|c rest']; [reflexivity|]. simpl. now rewrite Hrest.
  - simpl. now rewrite Hw.
Qed.

Lemma trim_padded l r point :
  Forall (fun c => is_space c = true) l ->
  Forall (fun c => is_space c = true) r ->
  trim (l ++ quoted point ++ r) = quoted point.
Proof.
  intros Hl Hr. unfold trim, trimStart, trimEnd.
  rewrite drop_while_spaces; [|exact Hl|reflexivity].
  unfold quoted. rewrite <- !app_assoc.
  rewrite !rev_app_distr. cbn [rev app]. rewrite <- !app_assoc.
  rewrite drop_while_spaces; [|now apply Forall_rev|reflexivity].
  cbn [rev app]. rewrite rev_app_distr, rev_involutive. reflexivity.
Qed.

Lemma strip_written_point item point :
  written_point item point -> strip_point item = point.
Proof.
  intros (l & r & -> & Hl & Hr & _ & Hq & _). unfold strip_point.
  rewrite (trim_padded _ _ _ Hl Hr). unfold quoted.
  rewrite filter_app, filter_cons_False by (intros H; now apply H).
  rewrite filter_app.
  rewrite (filter_cons_False _ 34%N []) by (intros H; now apply H).
  rewrite filter_nil, app_nil_r. cbn [app].
  induction Hq as [|c p Hc _ IH]; [reflexivity|].
  rewrite filter_cons_True by exact Hc. now rewrite IH.
Qed.

Lemma written_point_no_comma item point :
  written_point item point -> Forall (fun c => c <> 44%N) item.
Proof.
  intros (l & r & -> & Hl & Hr & _ & _ & Hc). unfold quoted.
  assert (Hsp : forall ws, Forall (fun c => is_space c = true) ws ->
                           Forall (fun c => c <> 44%N) ws).
  { intros ws Hws. eapply Forall_impl; [exact Hws|].
    intros c Hs ->. discriminate Hs. }
  repeat (apply Forall_app; split); auto;
    repeat constructor; discriminate.
Qed.

(** X19: the fallback recovers a key-points list: when the text between the
    brackets is a comma-separated list of quoted points, each with any
    white space around it, the points taken from it are exactly those points,
    in order, without their quotes and the white space around them; the
    [catch] block then shows them, cleaned, as the bullets under the summary
    and the details it has matched. *)
Theorem key_points_recovered (items points : list jsstring) :
  items <> [] ->
  Forall2 written_point items points ->
  extracted_points (join [44%N] items) = points
  /\ forall response summary details,
       search (m_field (js "summary")) response = Some summary ->
       search (m_field (js "details")) response = Some details ->
       search m_key_points response = Some (join [44%N] items) ->
       manual_extraction response
       = Some (js "## " ++ cleanup summary ++ nl ++ nl ++ cleanup details
                 ++ key_points_heading ++ bullets (map cleanup points)).
Proof.
  intros Hne Hall.
  assert (Hpoints : extracted_points (join [44%N] items) = points).
  { unfold extracted_points.
    rewrite split_on_join; [|exact Hne|].
    2:{ clear Hne. induction Hall as [|item point items points H _ IH];
          constructor; [now apply (written_point_no_comma item point)|exact IH]. }
    clear Hne. induction Hall as [|item point items points H _ IH];
      [reflexivity|].
    cbn [map]. rewrite (strip_written_point _ _ H).
    rewrite filter_cons_True, IH; [reflexivity|].
    now destruct H as (_ & _ & _ & _ & _ & Hp & _). }
  split; [exact Hpoints|].
  intros response summary details Hs Hd Hk. unfold manual_extraction.
  rewrite Hs, Hd, Hk.
  fold (extracted_points (join [44%N] items)). rewrite Hpoints.
  destruct Hall as [|item point items points _ _]; [contradiction|].
  cbn [map]. now rewrite <- !app_assoc.
Qed.

Lemma key_points_recovered_witness :
  extracted_points (jsq "'Fast', 'Two words' ,'3rd'")
  = [js "Fast"; js "Two words"; js "3rd"].
Proof.
  refine (proj1 (key_points_recovered
            [jsq "'Fast'"; jsq " 'Two words' "; jsq "'3rd'"]
            [js "Fast"; js "Two words"; js "3rd"] _ _)).
  - discriminate.
  - repeat constructor.
    + exists [], []. repeat split; try discriminate;
        vm_compute; repeat constructor; discriminate.
    + exists (js " "), (js " "). repeat split; try discriminate;
        vm_compute; repeat constructor; discriminate.
    + exists [], []. repeat split; try discriminate;
        vm_compute; repeat constructor; discriminate.
Defined.

(** ** The client stream consumer: more properties *)

(** X7: a session. From any state with a message that is not blank (a stream
    may even be running, with chunks in the buffer), a submit followed by
    chunk events leaves exactly the concatenation of those chunks in the
    buffer, in arrival order, with the loading state open and the error
    cleared; a done event then closes the loading state, clears the message
    and keeps the buffer; an error event instead closes the loading state,
    stores the error and keeps the buffer too. *)
Theorem session_buffer st (payloads : list jsstring) :
  trim (Client.message st) <> [] ->
  let streaming :=
    Client.run (Client.step st Client.SubmitClicked) (chunk_events payloads) in
  streaming
  = {| Client.message := Client.message st; Client.isLoading := true;
       Client.response := concat payloads; Client.error := [] |}
  /\ Client.step streaming Client.ResponseDone
     = {| Client.message := []; Client.isLoading := false;
          Client.response := concat payloads; Client.error := [] |}
  /\ forall e,
       Client.step streaming (Client.ResponseError e)
       = {| Client.message := Client.message st; Client.isLoading := false;
            Client.response := concat payloads; Client.error := e |}.
Proof.
  intros Hmsg streaming.
  assert (Hs : streaming
               = {| Client.message := Client.message st;
                    Client.isLoading := true;
                    Client.response := concat payloads;
                    Client.error := [] |}).
  { subst streaming. rewrite run_chunks. cbn [Client.step].
    destruct (trim (Client.message st)); [contradiction|]. reflexivity. }
  rewrite Hs. repeat split.
Qed.

Lemma session_buffer_witness :
  Client.response
    (Client.run
       (Client.step
          {| Client.message := js "why?"; Client.isLoading := true;
             Client.response := js "stale "; Client.error := js "old" |}
          Client.SubmitClicked)
       (chunk_events [js "be"; js "cause"])) = js "because".
Proof.
  refine (f_equal Client.response (proj1 (session_buffer
            {| Client.message := js "why?"; Client.isLoading := true;
               Client.response := js "stale "; Client.error := js "old" |}
            [js "be"; js "cause"] _))).
  vm_compute. discriminate.
Defined.

Lemma step_keeps_closed st ev :
  Client.isLoading st = false -> is_submit ev = false ->
  Client.isLoading (Client.step st ev) = false.
Proof. intros Hst Hev. destruct ev; try reflexivity; [exact Hst|discriminate]. Qed.

(** X8: only a submit opens the loading state. From a state that is not
    loading, no sequence of stream events, stop requests and rejected
    submits makes the component show a stream as running. *)
Theorem loading_needs_submit st (evs : list Client.Event) :
  Client.isLoading st = false ->
  forallb (fun ev => negb (is_submit ev)) evs = true ->
  Client.isLoading (Client.run st evs) = false.
Proof.
  revert st. induction evs as [|ev evs IH]; intros st Hst Hevs; [exact Hst|].
  cbn [forallb] in Hevs. apply andb_true_iff in Hevs as [Hev Hevs].
  apply negb_true_iff in Hev.
  change (Client.run st (ev :: evs))
    with (Client.run (Client.step st ev) evs).
  apply IH; [now apply step_keeps_closed|exact Hevs].
Qed.

Lemma loading_needs_submit_witness :
  Client.isLoading
    (Client.run Client.initial
       [Client.ResponseChunk (js "late"); Client.ResponseCancelled (js "x");
        Client.StopResolved; Client.ResponseChunk (js "later")]) = false.
Proof.
  apply loading_needs_submit; reflexivity.
Defined.

(** X9: once the user has stopped a stream, the cancelled events that the
    backend sends afterwards change nothing, however many arrive, and a
    second stop changes nothing either. *)
Theorem cancelled_after_stop_is_noop st (stop : Client.Event)
  (reasons : list jsstring) :
  stop = Client.StopResolved \/ stop = Client.StopRejected ->
  Client.run (Client.step st stop) (map Client.ResponseCancelled reasons)
  = Client.step st stop
  /\ Client.step (Client.step st stop) Client.StopResolved = Client.step st stop
  /\ Client.step (Client.step st stop) Client.StopRejected = Client.step st stop.
Proof.
  intros Hstop. split; [|destruct Hstop as [-> | ->]; split; reflexivity].
  induction reasons as [|r rs IH]; [reflexivity|].
  change (Client.run (Client.step st stop)
            (map Client.ResponseCancelled (r :: rs)))
    with (Client.run
            (Client.step (Client.step st stop) (Client.ResponseCancelled r))
            (map Client.ResponseCancelled rs)).
  replace (Client.step (Client.step st stop) (Client.ResponseCancelled r))
    with (Client.step st stop)
    by (destruct Hstop as [-> | ->]; reflexivity).
  exact IH.
Qed.

Lemma cancelled_after_stop_is_noop_witness :
  Client.run (Client.step Client.initial Client.StopResolved)
    (map Client.ResponseCancelled [js "user"; js "user"])
  = Client.step Client.initial Client.StopResolved.
Proof.
  refine (proj1 (cancelled_after_stop_is_noop Client.initial
                   Client.StopResolved [js "user"; js "user"] _)).
  now left.
Defined.

(** ** The gateway: more properties *)

(** X10: a handler calls the upstream at most once, with the model and the
    prompt of the request, and only for a request whose [model] and [prompt]
    are truthy and whose API key is configured. *)
Theorem upstream_called_only_when_accepted env req up_a up_b :
  let a := gemini_handler env req up_a in
  let b := perplexity_handler env req up_b in
  (calls a = []
   \/ calls a = [{| call_provider := Gemini;
                    call_model := b_model (body req);
                    call_prompt := b_prompt (body req);
                    call_responseType_stream := false |}]
      /\ truthy (b_model (body req)) = true
      /\ truthy (b_prompt (body req)) = true
      /\ configured (GEMINI_API_KEY env) = true)
  /\ (calls b = []
      \/ calls b = [{| call_provider := Perplexity;
                       call_model := b_model (body req);
                       call_prompt := b_prompt (body req);
                       call_responseType_stream := streaming req |}]
         /\ truthy (b_model (body req)) = true
         /\ truthy (b_prompt (body req)) = true
         /\ configured (PERPLEXITY_API_KEY env) = true).
Proof.
  intros a b. subst a b. unfold gemini_handler, perplexity_handler, streaming.
  destruct (truthy (b_model (body req))); [|split; now left].
  destruct (truthy (b_prompt (body req))); [|split; now left].
  cbn [negb orb]. split.
  - destruct (configured (GEMINI_API_KEY env)); [|now left].
    right. cbn [negb]. destruct up_a; [|destruct (catch_block _ _ _)];
      repeat split.
  - destruct (configured (PERPLEXITY_API_KEY env)); [|now left].
    right. cbn [negb]. destruct up_b; [|destruct (catch_block _ _ _)];
      repeat split.
Qed.

(** X11: a valid request for a provider whose API key is not set (absent or
    empty) is answered with status 500 and the key error of that provider,
    and the upstream is not called. *)
Theorem missing_key_rejected env req up_a up_b :
  truthy (b_model (body req)) = true ->
  truthy (b_prompt (body req)) = true ->
  (configured (GEMINI_API_KEY env) = false ->
   gemini_handler env req up_a
   = {| calls := [];
        res_calls := [Status 500;
                      SendJson (ErrorBody "Gemini API key not configured" None)];
        outcome := Normal () |})
  /\ (configured (PERPLEXITY_API_KEY env) = false ->
      perplexity_handler env req up_b
      = {| calls := [];
           res_calls := [Status 500;
                         SendJson (ErrorBody "Perplexity API key not configured"
                                     None)];
           outcome := Normal () |}).
Proof.
  intros Hm Hp. unfold gemini_handler, perplexity_handler.
  rewrite Hm, Hp. split; intros ->; reflexivity.
Qed.

Lemma missing_key_rejected_witness :
  calls (gemini_handler
           {| GEMINI_API_KEY := Some []; PERPLEXITY_API_KEY := None |}
           (sample_request "gemini-1.5-flash" JsUndefined)
           (Resolved (gemini_data (Some (js "unused"))))) = [].
Proof.
  refine (f_equal calls (proj1 (missing_key_rejected
            {| GEMINI_API_KEY := Some []; PERPLEXITY_API_KEY := None |}
            (sample_request "gemini-1.5-flash" JsUndefined)
            _ (Rejected timeout_error) _ _) _)); reflexivity.
Defined.

(** *** The Perplexity stream *)

Lemma attempted_app rs rs' : attempted (rs ++ rs') = attempted rs ++ attempted rs'.
Proof. unfold attempted. apply omap_app. Qed.

Lemma on_lines_records model lines :
  Forall (perplexity_record model) (attempted (on_lines model lines)).
Proof.
  induction lines as [|line rest IH]; [constructor|].
  cbn [on_lines].
  destruct (trim line); [exact IH|].
  destruct (startsWith (js "data: ") line); [|exact IH].
  destruct (JsString.eqb (drop 6 line) (js "[DONE]")).
  { repeat constructor. }
  destruct (delta_content (drop 6 line)) as [content|e]; [|exact IH].
  destruct (truthy content) eqn:Ht; [|exact IH].
  constructor; [|exact IH].
  right. right. eauto.
Qed.

Lemma parse_failure_skipped data e :
  JSON_parse data = Throw e -> delta_content data = Throw e.
Proof. intros H. unfold delta_content. now rewrite H. Qed.

Lemma delta_content_parsed data content :
  delta_content data = Normal content ->
  exists parsed, JSON_parse data = Normal parsed.
Proof.
  unfold delta_content. destruct (JSON_parse data) as [parsed|e]; [eauto|].
  discriminate.
Qed.

Lemma done_payload_not_json : delta_content (js "[DONE]") = Throw SyntaxError.
Proof. vm_compute. reflexivity. Qed.

Lemma data_line_not_blank line :
  startsWith (js "data: ") line = true -> trim line <> [].
Proof.
  destruct line as [|c rest]; [discriminate|].
  intros H. cbn [js startsWith] in H.
  change (js "data: ") with (100%N :: js "ata: ") in H.
  cbn [startsWith] in H. apply andb_true_iff in H as [Hc _].
  apply N.eqb_eq in Hc. subst c.
  unfold trim, trimStart, trimEnd. cbn [drop_while].
  change (is_space 100) with false. cbn [rev].
  rewrite drop_while_stop by reflexivity.
  rewrite rev_app_distr. discriminate.
Qed.

Lemma on_lines_silent model line rest :
  silent_line line -> on_lines model (line :: rest) = on_lines model rest.
Proof.
  intros H. cbn [on_lines].
  destruct (trim line); [reflexivity|].
  destruct H as [-> | H]; [reflexivity|].
  destruct (startsWith (js "data: ") line); [|reflexivity].
  assert (Hd : JsString.eqb (drop 6 line) (js "[DONE]") = false).
  { unfold JsString.eqb. apply bool_decide_eq_false.
    destruct H as [[Hd _] | [[Hd _] | (content & Hc & _)]]; try exact Hd.
    intros Hd. rewrite Hd, done_payload_not_json in Hc. discriminate. }
  rewrite Hd.
  destruct H as [(_ & e & He) | [(_ & e & He) | (content & -> & ->)]].
  - now rewrite (parse_failure_skipped _ _ He).
  - now rewrite He.
  - reflexivity.
Qed.

Lemma on_lines_drop_silent model l1 line l2 :
  silent_line line ->
  on_lines model (l1 ++ line :: l2) = on_lines model (l1 ++ l2).
Proof.
  intros H. induction l1 as [|x l1 IH]; [now apply on_lines_silent|].
  cbn [app on_lines]. now rewrite IH.
Qed.

Lemma on_lines_all_silent model lines :
  Forall silent_line lines -> on_lines model lines = [].
Proof.
  induction 1 as [|line rest H _ IH]; [reflexivity|].
  now rewrite on_lines_silent.
Qed.

Lemma on_lines_forwarded model line rest content :
  startsWith (js "data: ") line = true ->
  delta_content (drop 6 line) = Normal content ->
  truthy content = true ->
  on_lines model (line :: rest)
  = Write (SseContent content model "perplexity") :: on_lines model rest.
Proof.
  intros Hs Hc Ht. cbn [on_lines].
  destruct (trim line) eqn:E; [now apply data_line_not_blank in Hs|].
  rewrite Hs.
  assert (Hd : JsString.eqb (drop 6 line) (js "[DONE]") = false).
  { unfold JsString.eqb. apply bool_decide_eq_false. intros Hd.
    rewrite Hd, done_payload_not_json in Hc. discriminate. }
  now rewrite Hd, Hc, Ht.
Qed.

Lemma on_lines_source model lines content m p :
  In (SseContent content m p) (attempted (on_lines model lines)) ->
  exists line parsed,
    In line lines
    /\ startsWith (js "data: ") line = true
    /\ JSON_parse (drop 6 line) = Normal parsed
    /\ delta_content (drop 6 line) = Normal content
    /\ truthy content = true.
Proof.
  induction lines as [|line rest IH]; [intros []|].
  assert (Hrest : In (SseContent content m p) (attempted (on_lines model rest)) ->
                  exists line0 parsed,
                    In line0 (line :: rest)
                    /\ startsWith (js "data: ") line0 = true
                    /\ JSON_parse (drop 6 line0) = Normal parsed
                    /\ delta_content (drop 6 line0) = Normal content
                    /\ truthy content = true).
  { intros H. destruct (IH H) as (l & parsed & Hin & Hl).
    exists l, parsed. split; [now right|exact Hl]. }
  cbn [on_lines].
  destruct (trim line); [exact Hrest|].
  destruct (startsWith (js "data: ") line) eqn:Hs; [|exact Hrest].
  destruct (JsString.eqb (drop 6 line) (js "[DONE]")).
  { intros [H | []]. discriminate. }
  destruct (delta_content (drop 6 line)) as [c|e] eqn:Hc; [|exact Hrest].
  destruct (truthy c) eqn:Ht; [|exact Hrest].
  intros [H | H]; [|now apply Hrest].
  injection H as -> _ _.
  destruct (delta_content_parsed _ _ Hc) as [parsed Hp].
  exists line, parsed. repeat split; try assumption. now left.
Qed.

(** X12: whatever the upstream stream sends, every record the Perplexity
    handler writes is the end marker, the streaming error, or a content
    record that carries the model of the request, the provider name and a
    truthy content. Each content record comes from a line of an upstream
    chunk that is a data record whose payload is JSON with that delta
    content. A line that is not a data record, or whose payload is not JSON,
    or has no delta content or an empty one, is never forwarded: the
    listener does what it does without the line, and a chunk of such lines
    only leaves the response as it is. A data record with a truthy delta
    content is forwarded in its place. *)
Theorem perplexity_stream_records model (events : list UpstreamEvent) :
  Forall (perplexity_record model)
    (attempted (perplexity_stream_response model events))
  /\ (forall content m p,
        In (SseContent content m p)
          (attempted (perplexity_stream_response model events)) ->
        exists chunk line parsed,
          In (OnData chunk) events
          /\ In line (split_on 10 chunk)
          /\ startsWith (js "data: ") line = true
          /\ JSON_parse (drop 6 line) = Normal parsed
          /\ delta_content (drop 6 line) = Normal content
          /\ truthy content = true)
  /\ (forall l1 line l2,
        silent_line line ->
        on_lines model (l1 ++ line :: l2) = on_lines model (l1 ++ l2))
  /\ (forall chunk later,
        Forall silent_line (split_on 10 chunk) ->
        perplexity_stream_response model (events ++ OnData chunk :: later)
        = perplexity_stream_response model (events ++ later))
  /\ (forall line rest content,
        startsWith (js "data: ") line = true ->
        delta_content (drop 6 line) = Normal content ->
        truthy content = true ->
        on_lines model (line :: rest)
        = Write (SseContent content model "perplexity")
            :: on_lines model rest).
Proof.
  split; [|split; [|split; [|split]]].
  - unfold perplexity_stream_response.
    induction events as [|ev events IH]; [constructor|].
    cbn [map concat]. rewrite attempted_app. apply Forall_app.
    split; [|exact IH].
    destruct ev; cbn [on_event].
    + apply on_lines_records.
    + repeat constructor.
    + constructor; [|constructor]. right. now left.
  - intros content m p. unfold perplexity_stream_response.
    induction events as [|ev events IH]; [intros []|].
    cbn [map concat]. rewrite attempted_app. intros H.
    apply in_app_or in H as [H | H].
    + destruct ev; cbn [on_event] in H.
      * destruct (on_lines_source _ _ _ _ _ H) as (line & parsed & Hin & Hl).
        exists chunk, line, parsed. split; [now left|]. split; assumption.
      * destruct H as [H | []]. discriminate.
      * destruct H as [H | []]. discriminate.
    + destruct (IH H) as (chunk & line & parsed & Hin & Hl).
      exists chunk, line, parsed. split; [now right|exact Hl].
  - intros l1 line l2. apply on_lines_drop_silent.
  - intros chunk later H. unfold perplexity_stream_response.
    rewrite !map_app, !concat_app. cbn [map concat on_event].
    now rewrite (on_lines_all_silent _ _ H).
  - intros line rest content. apply on_lines_forwarded.
Qed.

Lemma perplexity_stream_records_witness :
  perplexity_stream_response (JsString (js "sonar"))
    [OnData (jsq "data: {'choices':[{'delta':{'content':'Hi'}}]}");
     OnData (join [10%N] [js ": keep-alive comment"; js "data: not json";
                          js "data: {}"; js "data: null"; []]);
     OnEnd]
  = perplexity_stream_response (JsString (js "sonar"))
      [OnData (jsq "data: {'choices':[{'delta':{'content':'Hi'}}]}"); OnEnd]
  /\ perplexity_stream_response (JsString (js "sonar"))
       [OnData (jsq "data: {'choices':[{'delta':{'content':'Hi'}}]}"); OnEnd]
     = [Write (SseContent (JsString (js "Hi")) (JsString (js "sonar"))
                 "perplexity");
        Write SseDone; End].
Proof.
  split; [|vm_compute; reflexivity].
  refine (proj1 (proj2 (proj2 (proj2 (perplexity_stream_records
            (JsString (js "sonar"))
            [OnData (jsq "data: {'choices':[{'delta':{'content':'Hi'}}]}")]))))
            _ [OnEnd] _).
  set (lines := split_on 10 _). vm_compute in lines. subst lines.
  constructor; [now left|].
  constructor.
  { right. left. split; [discriminate|]. now exists SyntaxError. }
  constructor.
  { right. right. right. now exists JsUndefined. }
  constructor.
  { right. right. left. split; [discriminate|]. now exists TypeError. }
  constructor; [now left|]. constructor.
Defined.

Lemma on_lines_quiet model lines :
  existsb is_done_line lines = false ->
  Forall content_write (on_lines model lines).
Proof.
  induction lines as [|line rest IH]; [constructor|].
  cbn [existsb]. intros H. apply orb_false_iff in H as [Hline Hrest].
  specialize (IH Hrest). cbn [on_lines]. unfold is_done_line in Hline.
  destruct (trim line); [exact IH|].
  destruct (startsWith (js "data: ") line); [|exact IH].
  cbn [andb] in Hline. rewrite Hline.
  destruct (delta_content (drop 6 line)) as [content|e]; [|exact IH].
  destruct (truthy content); [|exact IH].
  constructor; [|exact IH]. eexists. split; reflexivity.
Qed.

Lemma content_writes rs :
  Forall content_write rs ->
  exists contents,
    rs = map Write contents /\ forallb is_content contents = true.
Proof.
  induction 1 as [|c rs (d & -> & Hd) _ (contents & -> & Hc)].
  - now exists [].
  - exists (d :: contents). split; [reflexivity|].
    cbn [forallb]. unfold is_content at 1. now rewrite Hd.
Qed.

Lemma written_contents contents tail :
  written (map Write contents ++ tail) = contents ++ written tail.
Proof. induction contents as [|d ds IH]; simpl; [reflexivity|now rewrite IH]. Qed.

Lemma terminal_contents contents tail :
  forallb is_content contents = true ->
  terminal_events (map Write contents ++ tail) = terminal_events tail.
Proof.
  intros H.
  induction contents as [|d ds IH]; [reflexivity|].
  cbn [forallb] in H. apply andb_true_iff in H as [Hd Hds].
  unfold is_content in Hd. apply negb_true_iff in Hd.
  cbn [map app].
  change (terminal_events (Write d :: map Write ds ++ tail))
    with (if is_terminal d
          then d :: terminal_events (map Write ds ++ tail)
          else terminal_events (map Write ds ++ tail)).
  rewrite Hd. now apply IH.
Qed.

(** X13: when no line of the upstream chunks is the end-marker record, the
    Perplexity handler writes content records only while data arrives and
    then, on the end of the upstream stream, the end marker, once, as the
    last record; on an upstream error it writes the streaming error instead,
    once, as the last record. *)
Theorem perplexity_stream_one_terminal model (chunks : list jsstring) :
  forallb (fun chunk => negb (has_done_line chunk)) chunks = true ->
  exists contents,
    forallb is_content contents = true
    /\ perplexity_stream_response model (map OnData chunks ++ [OnEnd])
       = map Write contents ++ [Write SseDone; End]
    /\ written (perplexity_stream_response model (map OnData chunks ++ [OnEnd]))
       = contents ++ [SseDone]
    /\ terminal_events
         (perplexity_stream_response model (map OnData chunks ++ [OnEnd]))
       = [SseDone]
    /\ perplexity_stream_response model (map OnData chunks ++ [OnError])
       = map Write contents
           ++ [Write (SseError "Streaming error occurred"); End]
    /\ terminal_events
         (perplexity_stream_response model (map OnData chunks ++ [OnError]))
       = [SseError "Streaming error occurred"].
Proof.
  intros Hq.
  assert (Hdata : Forall content_write
            (concat (map (on_event model) (map OnData chunks)))).
  { induction chunks as [|chunk chunks IH]; [constructor|].
    cbn [forallb] in Hq. apply andb_true_iff in Hq as [Hc Hq].
    apply negb_true_iff in Hc. cbn [map concat on_event].
    apply Forall_app. split; [now apply on_lines_quiet|now apply IH]. }
  destruct (content_writes _ Hdata) as (contents & Hrs & Hc).
  exists contents. unfold perplexity_stream_response.
  rewrite !map_app, !concat_app, Hrs. cbn [map concat on_event app].
  repeat split.
  - exact Hc.
  - now rewrite written_contents.
  - now rewrite terminal_contents.
  - now rewrite terminal_contents.
Qed.

Lemma perplexity_stream_one_terminal_witness :
  terminal_events
    (perplexity_stream_response (JsString (js "sonar"))
       (map OnData [jsq "data: {'choices':[{'delta':{'content':'Hi'}}]}";
                    js "data: not json"] ++ [OnEnd]))
  = [SseDone].
Proof.
  destruct (perplexity_stream_one_terminal (JsString (js "sonar"))
              [jsq "data: {'choices':[{'delta':{'content':'Hi'}}]}";
               js "data: not json"])
    as (contents & _ & _ & _ & H & _); [vm_compute; reflexivity|].
  exact H.
Defined.

(** X14: without streaming, the Perplexity handler answers an upstream reply
    that has no choices (absent or empty list) with status 500 and the
    no-response error, and a reply with a choice with a success that carries
    the content of the first choice, the empty string standing in for a
    missing one, and empty lists for missing citations and search results. *)
Theorem perplexity_json_reply env req (response : PerplexityResponse) :
  accepted env req ->
  streaming req = false ->
  let run := perplexity_handler env req (Resolved response) in
  outcome run = Normal ()
  /\ (choices (data_json response) = None
      \/ choices (data_json response) = Some [] ->
      res_calls run
      = [Status 500; SendJson (ErrorBody "No response from Perplexity API" None)])
  /\ (forall c rest,
        choices (data_json response) = Some (c :: rest) ->
        res_calls run
        = [SendJson (PerplexitySuccess
             (js_or (message_content c) (JsString []))
             (js_or (citations (data_json response)) (JsArray []))
             (js_or (search_results (data_json response)) (JsArray []))
             (b_model (body req)))]
        /\ status_code (res_calls run) = 200%Z).
Proof.
  intros (Hm & Hp & _ & Hk) Hs run. subst run.
  unfold perplexity_handler. unfold streaming in Hs.
  rewrite Hm, Hp, Hk, Hs. cbn [negb orb res_calls outcome].
  unfold perplexity_json_response. repeat split.
  - now intros [-> | ->].
  - now rewrite H.
  - now rewrite H.
Qed.

Lemma perplexity_json_reply_witness :
  res_calls (perplexity_handler sample_env (sample_request "sonar" JsUndefined)
               (Resolved {| data_json := no_json; data_events := [] |}))
  = [Status 500; SendJson (ErrorBody "No response from Perplexity API" None)].
Proof.
  refine (proj1 (proj2 (perplexity_json_reply sample_env
            (sample_request "sonar" JsUndefined)
            {| data_json := no_json; data_events := [] |} _ _)) _).
  - repeat split; reflexivity.
  - reflexivity.
  - now left.
Defined.

(** ** The Gemini stream ends once *)

Lemma attempted_sse_headers rs : attempted (sse_headers ++ rs) = attempted rs.
Proof. reflexivity. Qed.

Lemma attempted_contents contents tail :
  attempted (map Write contents ++ tail) = contents ++ attempted tail.
Proof.
  induction contents as [|d ds IH]; [reflexivity|].
  cbn [map app].
  change (attempted (Write d :: map Write ds ++ tail))
    with (d :: attempted (map Write ds ++ tail)).
  now rewrite IH.
Qed.

(** X18: in streaming mode, whenever the upstream call of the Gemini handler
    succeeds, with candidates or without, the handler writes exactly one
    terminal record and ends the response right after it: content records
    come first, the end marker or the no-response error is last, and nothing
    is written after the end of the response. *)
Theorem gemini_stream_one_terminal env req data :
  accepted env req ->
  streaming req = true ->
  let rs := res_calls (gemini_handler env req (Resolved data)) in
  exists contents terminal,
    forallb is_content contents = true
    /\ is_terminal terminal = true
    /\ written rs = contents ++ [terminal]
    /\ attempted rs = contents ++ [terminal]
    /\ terminal_events rs = [terminal].
Proof.
  intros Hacc Hs rs. subst rs.
  rewrite (gemini_handler_resolved _ _ _ Hacc), Hs. cbn [res_calls].
  unfold gemini_stream_response.
  assert (Herr : exists contents terminal,
    forallb is_content contents = true /\ is_terminal terminal = true
    /\ written [SetHeader "Content-Type" "text/event-stream";
                Write (SseError "No response from Gemini API"); End]
       = contents ++ [terminal]
    /\ attempted [SetHeader "Content-Type" "text/event-stream";
                  Write (SseError "No response from Gemini API"); End]
       = contents ++ [terminal]
    /\ terminal_events [SetHeader "Content-Type" "text/event-stream";
                        Write (SseError "No response from Gemini API"); End]
       = [terminal]).
  { exists [], (SseError "No response from Gemini API"). repeat split. }
  destruct (candidates data) as [[|c rest]|]; [exact Herr| |exact Herr].
  destruct (sendChunk_ends (b_model (body req)) (split_on 32 (first_text c)) 0)
    as [chunks ->]; [lia|].
  exists (map (fun t => SseContent (JsString t) (b_model (body req)) "gemini")
            chunks), SseDone.
  assert (Hw : map (fun t => Write (SseContent (JsString t)
                                      (b_model (body req)) "gemini")) chunks
               = map Write (map (fun t => SseContent (JsString t)
                                   (b_model (body req)) "gemini") chunks))
    by now rewrite map_map.
  assert (Hc : forallb is_content
                 (map (fun t => SseContent (JsString t)
                                  (b_model (body req)) "gemini") chunks) = true).
  { clear. induction chunks as [|t ts IH]; [reflexivity|exact IH]. }
  rewrite written_sse_headers. unfold terminal_events.
  rewrite attempted_sse_headers, Hw.
  fold (terminal_events
          (map Write (map (fun t => SseContent (JsString t)
                             (b_model (body req)) "gemini") chunks)
             ++ [Write SseDone; End])).
  rewrite written_contents, attempted_contents, (terminal_contents _ _ Hc).
  repeat split. exact Hc.
Qed.

Lemma gemini_stream_one_terminal_witness :
  exists contents terminal,
    written (res_calls (gemini_handler sample_env
               (sample_request "gemini-1.5-flash" (JsBool true))
               (Resolved (gemini_data (Some (js "two words"))))))
    = contents ++ [terminal]
    /\ is_terminal terminal = true.
Proof.
  destruct (gemini_stream_one_terminal sample_env
              (sample_request "gemini-1.5-flash" (JsBool true))
              (gemini_data (Some (js "two words")))
              (conj eq_refl (conj eq_refl (conj eq_refl eq_refl))) eq_refl)
    as (contents & terminal & _ & Ht & Hw & _).
  exists contents, terminal. split; assumption.
Defined.


(** ** The rate-limit key *)

Lemma append_hyphen_injective (a b u v : string) :
  has_hyphen a = false -> has_hyphen b = false ->
  a +:+ "-" +:+ u = b +:+ "-" +:+ v -> a = b /\ u = v.
Proof.
  revert b. induction a as [|x a IH]; intros [|y b] Ha Hb E.
  - change (String "-" u = String "-" v) in E. now injection E as ->.
  - change (String "-" u = String y (b +:+ "-" +:+ v)) in E.
    injection E as <- _. discriminate Hb.
  - change (String x (a +:+ "-" +:+ u) = String "-" v) in E.
    injection E as -> _. discriminate Ha.
  - change (String x (a +:+ "-" +:+ u) = String y (b +:+ "-" +:+ v)) in E.
    injection E as -> E.
    unfold has_hyphen in Ha, Hb.
    change (list_ascii_of_string (String y a))
      with (y :: list_ascii_of_string a) in Ha.
    change (list_ascii_of_string (String y b))
      with (y :: list_ascii_of_string b) in Hb.
    cbn [existsb] in Ha, Hb.
    apply orb_false_iff in Ha as [_ Ha]. apply orb_false_iff in Hb as [_ Hb].
    destruct (IH b Ha Hb E) as [-> ->]. now split.
Qed.

(** X15: the rate-limit key tells requests apart by origin and by
    User-Agent: for origins without a hyphen, two requests have the same key
    exactly when they have the same origin and the same User-Agent as
    printed, so a client that changes its User-Agent gets another key. A
    missing header is printed as the word undefined and shares its key with
    that literal header. *)
Theorem keyGenerator_separates (ip1 ip2 : string) (ua1 ua2 : option string) :
  has_hyphen ip1 = false -> has_hyphen ip2 = false ->
  (keyGenerator ip1 ua1 = keyGenerator ip2 ua2
   <-> ip1 = ip2 /\ printed_user_agent ua1 = printed_user_agent ua2)
  /\ keyGenerator ip1 None = keyGenerator ip1 (Some "undefined").
Proof.
  intros H1 H2. split; [|reflexivity]. split.
  - intros E. apply (append_hyphen_injective _ _ _ _ H1 H2).
    destruct ua1, ua2; exact E.
  - intros [-> E]. unfold keyGenerator.
    change (match ua1 with Some ua => ua | None => "undefined" end)
      with (printed_user_agent ua1).
    change (match ua2 with Some ua => ua | None => "undefined" end)
      with (printed_user_agent ua2).
    now rewrite E.
Qed.

Lemma keyGenerator_separates_witness :
  keyGenerator "10.0.0.7" (Some "curl/8") <> keyGenerator "10.0.0.7" (Some "curl/9").
Proof.
  intros E.
  apply (proj1 (proj1 (keyGenerator_separates "10.0.0.7" "10.0.0.7"
           (Some "curl/8") (Some "curl/9") eq_refl eq_refl))) in E.
  destruct E as [_ E]. discriminate E.
Defined.

(** ** The model selector *)

Lemma find_some_id models selected m :
  List.find (fun model => String.eqb (Selector.id model) selected) models
  = Some m ->
  In m models /\ Selector.id m = selected.
Proof.
  intros H. apply find_some in H as [Hin Heq].
  split; [exact Hin|]. now apply String.eqb_eq.
Qed.

(** X16: the selector always has a model to show when its list is not
    empty: the one with the selected id, or else the first of the list,
    whose id then differs from the selected one. With the list as shipped it
    shows Gemini 2.0 Flash for every selected id, also for the id that the
    application starts with and sends with each prompt. *)
Theorem selector_falls_back_to_first
  (models : list Selector.ModelOption) (selected : string) :
  models <> [] ->
  (exists m,
     Selector.selected_among models selected = Some m
     /\ In m models
     /\ (Selector.id m = selected
         \/ head models = Some m
            /\ forall m', In m' models -> Selector.id m' <> selected))
  /\ (exists m,
        Selector.selectedModelData selected = Some m
        /\ Selector.name m = "Gemini 2.0 Flash")
  /\ (exists m,
        Selector.selectedModelData Selector.initial_selectedModel = Some m
        /\ Selector.id m <> Selector.initial_selectedModel).
Proof.
  intros Hne. split; [|split].
  - unfold Selector.selected_among.
    destruct (List.find _ models) as [m|] eqn:E.
    + apply find_some_id in E as [Hin Hid]. exists m. auto.
    + destruct models as [|m0 models']; [contradiction|].
      exists m0. split; [reflexivity|]. split; [now left|]. right.
      split; [reflexivity|]. intros m' Hin Hid.
      apply (find_none _ _ E) in Hin. apply String.eqb_neq in Hin.
      contradiction.
  - unfold Selector.selectedModelData, Selector.selected_among, Selector.MODELS.
    cbn [List.find Selector.id].
    destruct (String.eqb "gemini-2.0-flash" selected); eexists; split;
      reflexivity.
  - eexists. split; [reflexivity|]. discriminate.
Qed.

Lemma selector_falls_back_to_first_witness :
  exists m,
    Selector.selected_among Selector.MODELS "sonar" = Some m
    /\ In m Selector.MODELS.
Proof.
  destruct (proj1 (selector_falls_back_to_first Selector.MODELS "sonar"
                     ltac:(discriminate))) as (m & H1 & H2 & _).
  exists m. split; assumption.
Defined.

(** ** Copying a code block *)

Lemma filter_length_le (p : N -> bool) l : length (List.filter p l) <= length l.
Proof.
  induction l as [|c r IH]; simpl; [lia|]. destruct (p c); simpl; lia.
Qed.

Lemma filter_visible l :
  visible (List.filter (fun c => negb (is_space c)) l)
  = List.filter (fun c => negb (is_space c)) l.
Proof.
  unfold visible. induction l as [|c r IH]; [reflexivity|].
  simpl. destruct (is_space c) eqn:E; simpl; [exact IH|].
  rewrite E. simpl. now rewrite IH.
Qed.

Lemma copied_lookup a b st :
  b <> [] ->
  CodeCopy.isCopied (CodeCopy.copied a st) b
  = if decide (a = b) then true else CodeCopy.isCopied st b.
Proof.
  intros Hb. unfold CodeCopy.isCopied, CodeCopy.copied.
  destruct a as [|x a].
  - destruct (decide ([] = b)) as [<-|]; [contradiction|reflexivity].
  - destruct (decide (x :: a = b)) as [<-|Hne].
    + now rewrite lookup_insert_eq.
    + now rewrite lookup_insert_ne.
Qed.

Lemma codeId_nonempty children : CodeCopy.codeId children <> [].
Proof. discriminate. Qed.

(** X17: the id of a code block is the word code, a hyphen and at most
    twenty characters without white space, so at most 25 characters; it is
    computed from the first twenty characters of the code only. Two blocks
    that agree there share their id and with it the copied flag: copying one
    marks the other as copied, and the timer of the one clears both, while
    the flag of a block with another id is left as it was. *)
Theorem code_blocks_share_copied_flag
  (a b : jsstring) (st : CodeCopy.CopiedStates) :
  length (CodeCopy.codeId a) <= 25
  /\ visible (CodeCopy.codeId a) = CodeCopy.codeId a
  /\ (take 20 (CodeCopy.codeText a) = take 20 (CodeCopy.codeText b) ->
      CodeCopy.codeId a = CodeCopy.codeId b
      /\ CodeCopy.isCopied (CodeCopy.copied (CodeCopy.codeId a) st)
           (CodeCopy.codeId b) = true
      /\ CodeCopy.isCopied
           (CodeCopy.copy_expired (CodeCopy.codeId a)
              (CodeCopy.copied (CodeCopy.codeId b) st))
           (CodeCopy.codeId b) = false)
  /\ (CodeCopy.codeId a <> CodeCopy.codeId b ->
      CodeCopy.isCopied (CodeCopy.copied (CodeCopy.codeId a) st)
        (CodeCopy.codeId b)
      = CodeCopy.isCopied st (CodeCopy.codeId b)).
Proof.
  split; [|split; [|split]].
  - unfold CodeCopy.codeId. rewrite length_app.
    pose proof (filter_length_le (fun c => negb (is_space c))
                  (take 20 (CodeCopy.codeText a))) as H.
    rewrite length_take in H. cbn [length js]. simpl. lia.
  - unfold CodeCopy.codeId.
    change (visible (js "code-" ++ ?l)) with (js "code-" ++ visible l).
    now rewrite filter_visible.
  - intros E.
    assert (Hid : CodeCopy.codeId a = CodeCopy.codeId b)
      by (unfold CodeCopy.codeId; now rewrite E).
    split; [exact Hid|]. split.
    + rewrite copied_lookup by apply codeId_nonempty.
      now destruct (decide (CodeCopy.codeId a = CodeCopy.codeId b)).
    + rewrite Hid. unfold CodeCopy.isCopied, CodeCopy.copy_expired.
      destruct (CodeCopy.codeId b) eqn:Eb; [now apply codeId_nonempty in Eb|].
      now rewrite lookup_insert_eq.
  - intros Hne. rewrite copied_lookup by apply codeId_nonempty.
    now destruct (decide (CodeCopy.codeId a = CodeCopy.codeId b)).
Qed.

Lemma code_blocks_share_copied_flag_witness :
  CodeCopy.isCopied
    (CodeCopy.copied (CodeCopy.codeId (js "const answer = compute(41) + 1;")) ∅)
    (CodeCopy.codeId (js "const answer = compute(99) - 7;")) = true.
Proof.
  refine (proj1 (proj2 (proj1 (proj2 (proj2 (code_blocks_share_copied_flag
    (js "const answer = compute(41) + 1;")
    (js "const answer = compute(99) - 7;") ∅))) _))).
  vm_compute. reflexivity.
Defined.
